(** * Circuit Construction Kit (common): solver core

    A shallow embedding of the numerical core of the simulation:

    - [TimestepSubdivisions], [TimestepSubdivisionsDouble]: the adaptive
      step-halving integrator (js/model/TimestepSubdivisions.ts);
    - [LTAStateSet], [LTAStateSetDouble]: the aggregation of the accepted
      sub-steps (js/model/analysis/LTAStateSet.ts);
    - [MNA]: the equation builder of the static solver
      (ModifiedNodalAnalysisCircuit);
    - [Adapter]: the solve-level policy of
      js/model/ModifiedNodalAnalysisAdapter.js.

    JavaScript numbers are IEEE 754 binary64 values.  The modules whose
    name ends in [Double] model them as such, with the primitive floats of
    the kernel: every operation rounds to the nearest double, overflows to
    an infinity and propagates NaN as in the source, and every comparison
    with NaN is false.  Whatever depends on the values the arithmetic
    returns (how many sub-steps are taken, what the elapsed time or an
    average is) is stated there.

    The other modules model numbers as exact rationals [Q]: every sum,
    product and halving is the exact one, comparisons are [Qle_bool] and
    friends, and [x === 0] is [Qeq_bool x 0]; a division whose result the
    source can observe as NaN is given an [option] result.  They carry the
    properties of the structure of the code: which branch is taken, which
    terms and equations are built, which objects are read and written. *)

From Stdlib Require Import QArith Qabs Qround ZArith List Sorted Relations
  Lia Lqa Bool Arith Floats FunctionalExtensionality.
Import ListNotations.

Local Open Scope Q_scope.

(** ** Comparisons of the source on [Q] *)

(** [a < b] of the source. *)
Definition Qltb (a b : Q) : bool := negb (Qle_bool b a).

Lemma Qltb_true (a b : Q) : Qltb a b = true <-> a < b.
Proof.
  unfold Qltb. rewrite negb_true_iff.
  split; intro H.
  - apply Qnot_le_lt. intro Hle. apply Qle_bool_iff in Hle. congruence.
  - destruct (Qle_bool b a) eqn:E; trivial.
    apply Qle_bool_iff in E. exfalso. revert E. apply Qlt_not_le. exact H.
Qed.

Lemma Qltb_false (a b : Q) : Qltb a b = false <-> b <= a.
Proof.
  unfold Qltb. rewrite negb_false_iff. apply Qle_bool_iff.
Qed.

Lemma Qle_bool_false (a b : Q) : Qle_bool a b = false <-> b < a.
Proof.
  rewrite <- Qltb_true. unfold Qltb. rewrite negb_true_iff. tauto.
Qed.

(** Powers of two, the factors by which [search] divides its step. *)
Fixpoint pow2 (n : nat) : Q :=
  match n with
  | O => 1
  | S k => 2 * pow2 k
  end.

Lemma pow2_pos (n : nat) : 0 < pow2 n.
Proof. induction n; simpl; lra. Qed.

Lemma pow2_inject (n : nat) : pow2 n == inject_Z (2 ^ Z.of_nat n).
Proof.
  induction n.
  - reflexivity.
  - cbn [pow2]. rewrite IHn, Nat2Z.inj_succ, Z.pow_succ_r by lia.
    rewrite inject_Z_mult. reflexivity.
Qed.

(** * The adaptive integrator: TimestepSubdivisions.ts *)
Module TimestepSubdivisions.

(** [ERROR_THRESHOLD = 1E-5]. *)
Definition ERROR_THRESHOLD : Q := 1 # 100000.

Section Integrator.

(** [MIN_DT = CCKCQueryParameters.minDT]: the query-parameter module with
    this entry is not part of the sources at hand, so the constant is a
    parameter of the development. *)
Variable MIN_DT : Q.

(** The state type [T] of [TimestepSubdivisions<T>]. *)
Variable T : Type.

(** [type Steppable<T> = { update, distance }]. *)
Record Steppable : Type := mkSteppable {
  update : T -> Q -> T;
  distance : T -> T -> Q
}.

(** The object literal [{ dt, state }] returned by [search] and pushed on
    [states]. *)
Record Result : Type := mkResult {
  dt : Q;
  state : T
}.

(** [search( state, steppable, dt, halfStepState )].  The recursion of the
    source is on [dt / 2]; [fuel] counts the recursive calls that remain
    allowed and [None] means the budget was used up.  [halfStepState] is
    [T | null]: [None] is [null], and [halfStepState || e] takes the
    argument when it is present (states are objects, hence truthy). *)
Fixpoint search (fuel : nat) (st : T) (steppable : Steppable) (dt0 : Q)
         (halfStepState : option T) : option Result :=
  if Qle_bool dt0 MIN_DT then
    Some (mkResult MIN_DT (update steppable st MIN_DT))
  else
    match fuel with
    | O => None
    | S fuel' =>
        let a := update steppable st dt0 in
        let b1 := match halfStepState with
                  | Some h => h
                  | None => update steppable st (dt0 / 2)
                  end in
        let b2 := update steppable b1 (dt0 / 2) in
        let d := distance steppable a b2 in
        let errorAcceptable := Qltb d ERROR_THRESHOLD in
        if errorAcceptable then Some (mkResult dt0 b2)
        else search fuel' st steppable (dt0 / 2) (Some b1)
    end.

(** The number of halvings after which [dt0] is at most [MIN_DT]. *)
Definition halvings (dt0 : Q) : nat :=
  Z.to_nat (Z.log2_up (Qceiling (dt0 / MIN_DT))).

(** The body of [while ( elapsedTime < totalTime )] in
    [stepInTimeWithHistory], as a loop on the four mutable locals.
    [fuel] bounds the number of iterations. *)
Fixpoint stepLoop (fuel : nat) (steppable : Steppable) (totalTime : Q)
         (st : T) (elapsedTime : Q) (states : list Result)
         (attemptedDT : Q) : option (list Result) :=
  if Qltb elapsedTime totalTime then
    match fuel with
    | O => None
    | S fuel' =>
        match search (halvings attemptedDT) st steppable attemptedDT None with
        | None => None
        | Some result =>
            let elapsedTime' := elapsedTime + dt result in
            let attemptedDT' := dt result * 2 in
            let attemptedDT'' :=
              if Qltb (totalTime - elapsedTime') attemptedDT'
              then totalTime - elapsedTime' else attemptedDT' in
            stepLoop fuel' steppable totalTime (state result) elapsedTime'
                     (states ++ [result]) attemptedDT''
        end
    end
  else Some states.

(** The number of iterations that always suffices. *)
Definition iterations (totalTime : Q) : nat :=
  Z.to_nat (Qceiling (totalTime / MIN_DT)).

(** [stepInTimeWithHistory( originalState, steppable, totalTime )]; the
    list is the array wrapped by the returned [ResultSet]. *)
Definition stepInTimeWithHistory (originalState : T) (steppable : Steppable)
           (totalTime : Q) : option (list Result) :=
  stepLoop (iterations totalTime) steppable totalTime originalState 0 []
           totalTime.

(** The sum of the recorded durations. *)
Definition totalDuration (states : list Result) : Q :=
  fold_right (fun r acc => dt r + acc) 0 states.

End Integrator.

Arguments mkSteppable {T} _ _.
Arguments update {T} _ _ _.
Arguments distance {T} _ _ _.
Arguments mkResult {T} _ _.
Arguments dt {T} _.
Arguments state {T} _.
Arguments search MIN_DT {T} fuel st steppable dt0 halfStepState.
Arguments stepLoop MIN_DT {T} fuel steppable totalTime st elapsedTime states
  attemptedDT.
Arguments stepInTimeWithHistory MIN_DT {T} originalState steppable totalTime.
Arguments totalDuration {T} states.

(** ** Concrete steppables *)

(** Explicit Euler for [x' = -x], with the absolute difference as metric. *)
Definition decay : Steppable Q :=
  mkSteppable (fun x h => x - x * h) (fun a b => Qabs (a - b)).

(** A steppable whose two candidates never agree. *)
Definition alwaysHigh : Steppable unit :=
  mkSteppable (fun _ _ => tt) (fun _ _ => 1).

(** A state that only accumulates the time it was advanced by; the metric
    tells apart the two candidates exactly when they are different. *)
Definition clock : Steppable Q :=
  mkSteppable (fun t h => t + h) (fun a b => if Qeq_bool a b then 1 else 0).

(** The reading of "bounded by O(log2(totalTime/MIN_DT))": some constant [c]
    bounds the number of recorded sub-steps by [c] times one plus the number
    of halvings from [totalTime] down to [MIN_DT]. *)
Definition logarithmic_sub_steps (MIN_DT : Q) (c : nat) : Prop :=
  forall (T : Type) (steppable : Steppable T) (originalState : T)
         (totalTime : Q) (rs : list (Result T)),
    0 < totalTime ->
    stepInTimeWithHistory MIN_DT originalState steppable totalTime = Some rs ->
    (length rs <= c * S (halvings MIN_DT totalTime))%nat.

(** Every duration of [rs] is at most twice the one before it, [previous]
    being the one before the first. *)
Fixpoint atMostDoubling {T : Type} (previous : Q) (rs : list (Result T))
  : Prop :=
  match rs with
  | [] => True
  | r :: rest => dt r <= 2 * previous /\ atMostDoubling (dt r) rest
  end.

(** ** Facts about [search] *)
Section SearchFacts.

Variable MIN_DT : Q.
Variable T : Type.
Variable steppable : Steppable T.

(** The floor branch: a step that is already small enough is taken as
    [MIN_DT], whatever the budget. *)
Lemma search_floor (fuel : nat) (st : T) (dt0 : Q) (h : option T) :
  dt0 <= MIN_DT ->
  search MIN_DT fuel st steppable dt0 h
  = Some (mkResult MIN_DT (update steppable st MIN_DT)).
Proof.
  intro H. apply Qle_bool_iff in H.
  destruct fuel; simpl; rewrite H; reflexivity.
Qed.

(** One unfolding of [search] above the floor. *)
Lemma search_step (fuel : nat) (st : T) (dt0 : Q) (h : option T) :
  MIN_DT < dt0 ->
  search MIN_DT (S fuel) st steppable dt0 h
  = let b1 := match h with
              | Some x => x
              | None => update steppable st (dt0 / 2)
              end in
    let b2 := update steppable b1 (dt0 / 2) in
    if Qltb (distance steppable (update steppable st dt0) b2) ERROR_THRESHOLD
    then Some (mkResult dt0 b2)
    else search MIN_DT fuel st steppable (dt0 / 2) (Some b1).
Proof.
  intro H. apply Qle_bool_false in H. simpl. rewrite H. reflexivity.
Qed.

(** The first call, with [halfStepState = null]: the two candidates are one
    step of [dt0] and two steps of [dt0 / 2], and the first half step is
    handed to the recursive call. *)
Lemma search_first_call (fuel : nat) (st : T) (dt0 : Q) :
  MIN_DT < dt0 ->
  search MIN_DT (S fuel) st steppable dt0 None
  = let a := update steppable st dt0 in
    let b1 := update steppable st (dt0 / 2) in
    let b2 := update steppable b1 (dt0 / 2) in
    if Qltb (distance steppable a b2) ERROR_THRESHOLD
    then Some (mkResult dt0 b2)
    else search MIN_DT fuel st steppable (dt0 / 2) (Some b1).
Proof. intro H. rewrite search_step by exact H. reflexivity. Qed.

(** The call that the first call makes: its caller's step was [2 * dt0], so
    the state handed down is [update( state, dt0 )], the one step of [dt0].
    It is taken for the first half step all the same, so the second
    candidate is [update( update( state, dt0 ), dt0 / 2 )], and the same
    state is handed down again. *)
Lemma search_recursive_call (fuel : nat) (st : T) (dt0 : Q) :
  MIN_DT < dt0 ->
  search MIN_DT (S fuel) st steppable dt0 (Some (update steppable st dt0))
  = let a := update steppable st dt0 in
    let b2 := update steppable a (dt0 / 2) in
    if Qltb (distance steppable a b2) ERROR_THRESHOLD
    then Some (mkResult dt0 b2)
    else search MIN_DT fuel st steppable (dt0 / 2) (Some a).
Proof. intro H. rewrite search_step by exact H. reflexivity. Qed.

(** [search] returns as soon as the budget covers the halvings. *)
Lemma search_enough_fuel (fuel : nat) :
  forall (st : T) (dt0 : Q) (h : option T),
    dt0 <= MIN_DT * pow2 fuel ->
    exists r, search MIN_DT fuel st steppable dt0 h = Some r.
Proof.
  induction fuel as [|fuel IH]; intros st dt0 h Hle.
  - simpl in Hle. rewrite search_floor by lra. eauto.
  - destruct (Qlt_le_dec MIN_DT dt0) as [Hgt|Hfl].
    + rewrite search_step by exact Hgt. cbv zeta.
      destruct (Qltb _ ERROR_THRESHOLD); [eauto|].
      apply IH. cbn [pow2] in Hle.
      apply Qle_shift_div_r; lra.
    + rewrite search_floor by exact Hfl. eauto.
Qed.

(** More budget never changes a result. *)
Lemma search_fuel_mono (fuel : nat) :
  forall (st : T) (dt0 : Q) (h : option T) (r : Result T),
    search MIN_DT fuel st steppable dt0 h = Some r ->
    search MIN_DT (S fuel) st steppable dt0 h = Some r.
Proof.
  induction fuel as [|fuel IH]; intros st dt0 h r H.
  - simpl in *. destruct (Qle_bool dt0 MIN_DT); congruence.
  - destruct (Qlt_le_dec MIN_DT dt0) as [Hgt|Hfl].
    + rewrite search_step in * by exact Hgt. cbv zeta in *.
      destruct (Qltb _ ERROR_THRESHOLD); [exact H|].
      apply IH. exact H.
    + rewrite search_floor in * by exact Hfl. exact H.
Qed.

Hypothesis MIN_DT_pos : 0 < MIN_DT.

(** The accepted step is the floor [MIN_DT], or the attempted step divided
    by a power of two that is still above the floor. *)
Lemma search_dt (fuel : nat) :
  forall (st : T) (dt0 : Q) (h : option T) (r : Result T),
    search MIN_DT fuel st steppable dt0 h = Some r ->
    dt r = MIN_DT \/
    (MIN_DT < dt r /\ dt r <= dt0 /\
     exists k, (k <= fuel)%nat /\ dt r == dt0 / pow2 k).
Proof.
  induction fuel as [|fuel IH]; intros st dt0 h r H.
  - simpl in H. destruct (Qle_bool dt0 MIN_DT); [|discriminate].
    injection H as <-. left. reflexivity.
  - destruct (Qlt_le_dec MIN_DT dt0) as [Hgt|Hfl].
    + rewrite search_step in H by exact Hgt. cbv zeta in H.
      destruct (Qltb _ ERROR_THRESHOLD).
      * injection H as <-. right. cbn [dt]. repeat split; try lra.
        exists O. split; [lia|]. simpl. field.
      * apply IH in H. destruct H as [H|(H1 & H2 & k & Hk & Hk')].
        -- left. exact H.
        -- right. repeat split; try lra.
           ++ apply Qle_trans with (dt0 / 2); [exact H2|].
              apply Qle_shift_div_r; lra.
           ++ exists (S k). split; [lia|]. rewrite Hk'. cbn [pow2].
              pose proof (pow2_pos k). field. lra.
    + rewrite search_floor in H by exact Hfl.
      injection H as <-. left. reflexivity.
Qed.

(** [halvings] is an adequate budget. *)
Lemma halvings_enough (dt0 : Q) : dt0 <= MIN_DT * pow2 (halvings MIN_DT dt0).
Proof.
  unfold halvings.
  set (c := Qceiling (dt0 / MIN_DT)).
  assert (Hc : dt0 / MIN_DT <= inject_Z c) by apply Qle_ceiling.
  assert (Hp : inject_Z c <= pow2 (Z.to_nat (Z.log2_up c))).
  { rewrite pow2_inject, Z2Nat.id by apply Z.log2_up_nonneg.
    rewrite <- Zle_Qle.
    destruct (Z_lt_le_dec 0 c) as [Hpos|Hnp].
    - apply Z.log2_up_le_pow2; [exact Hpos|lia].
    - rewrite Z.log2_up_nonpos by exact Hnp. simpl. lia. }
  assert (Hd : dt0 / MIN_DT <= pow2 (Z.to_nat (Z.log2_up c))) by lra.
  assert (E : dt0 == dt0 / MIN_DT * MIN_DT) by (field; lra).
  rewrite E at 1. rewrite (Qmult_comm MIN_DT).
  apply Qmult_le_compat_r; lra.
Qed.

(** [search], as the loop calls it, always returns. *)
Lemma search_returns (st : T) (dt0 : Q) :
  exists r,
    search MIN_DT (halvings MIN_DT dt0) st steppable dt0 None = Some r.
Proof. apply search_enough_fuel, halvings_enough. Qed.

End SearchFacts.

(** ** Facts about the loop of [stepInTimeWithHistory] *)
Section LoopFacts.

Variable MIN_DT : Q.
Variable T : Type.
Variable steppable : Steppable T.
Variable totalTime : Q.
Hypothesis MIN_DT_pos : 0 < MIN_DT.

(** One iteration of the loop. *)
Lemma stepLoop_step (fuel : nat) (st : T) (elapsedTime : Q)
      (states : list (Result T)) (attemptedDT : Q) (r : Result T) :
  elapsedTime < totalTime ->
  search MIN_DT (halvings MIN_DT attemptedDT) st steppable attemptedDT None
  = Some r ->
  stepLoop MIN_DT (S fuel) steppable totalTime st elapsedTime states attemptedDT
  = stepLoop MIN_DT fuel steppable totalTime (state r) (elapsedTime + dt r)
      (states ++ [r])
      (if Qltb (totalTime - (elapsedTime + dt r)) (dt r * 2)
       then totalTime - (elapsedTime + dt r) else dt r * 2).
Proof.
  intros Hlt Hs. apply Qltb_true in Hlt.
  simpl. rewrite Hlt, Hs. reflexivity.
Qed.

(** Leaving the loop. *)
Lemma stepLoop_exit (fuel : nat) (st : T) (elapsedTime : Q)
      (states : list (Result T)) (attemptedDT : Q) :
  totalTime <= elapsedTime ->
  stepLoop MIN_DT fuel steppable totalTime st elapsedTime states attemptedDT
  = Some states.
Proof.
  intro H. apply Qltb_false in H. destruct fuel; simpl; rewrite H; reflexivity.
Qed.

(** The loop returns when the budget covers the remaining time in steps of
    [MIN_DT]. *)
Lemma stepLoop_enough_fuel (fuel : nat) :
  forall (st : T) (elapsedTime : Q) (states : list (Result T))
         (attemptedDT : Q),
    totalTime - elapsedTime <= MIN_DT * inject_Z (Z.of_nat fuel) ->
    exists rs,
      stepLoop MIN_DT fuel steppable totalTime st elapsedTime states attemptedDT
      = Some rs.
Proof.
  induction fuel as [|fuel IH]; intros st el states att Hle.
  - rewrite stepLoop_exit; [eauto|].
    change (inject_Z (Z.of_nat 0)) with 0 in Hle. lra.
  - destruct (Qlt_le_dec el totalTime) as [Hlt|Hge].
    + destruct (search_returns MIN_DT T steppable MIN_DT_pos st att) as [r Hr].
      rewrite (stepLoop_step _ _ _ _ _ r Hlt Hr).
      apply IH.
      assert (Hdt : MIN_DT <= dt r).
      { destruct (search_dt MIN_DT T steppable MIN_DT_pos _ _ _ _ _ Hr)
          as [E|[Hgt _]]; [rewrite E|]; lra. }
      rewrite Nat2Z.inj_succ in Hle. unfold Z.succ in Hle.
      rewrite inject_Z_plus in Hle. change (inject_Z 1) with 1 in Hle. lra.
    + rewrite stepLoop_exit by exact Hge. eauto.
Qed.

(** What the loop records: every new entry lasts at least [MIN_DT], the
    entries reach [totalTime], there are at most [fuel] of them, and the
    last one passes [totalTime] by less than [MIN_DT]. *)
Lemma stepLoop_spec (fuel : nat) :
  forall (st : T) (elapsedTime : Q) (states : list (Result T)) (attemptedDT : Q)
         (rs : list (Result T)),
    (elapsedTime < totalTime -> attemptedDT <= totalTime - elapsedTime) ->
    stepLoop MIN_DT fuel steppable totalTime st elapsedTime states attemptedDT
    = Some rs ->
    exists new,
      rs = states ++ new /\
      Forall (fun r => MIN_DT <= dt r) new /\
      (length new <= fuel)%nat /\
      (totalTime <= elapsedTime + totalDuration new) /\
      (elapsedTime < totalTime ->
       elapsedTime + totalDuration new < totalTime + MIN_DT).
Proof.
  induction fuel as [|fuel IH]; intros st el states att rs Hatt H.
  - simpl in H. destruct (Qltb el totalTime) eqn:E; [discriminate|].
    injection H as <-. apply Qltb_false in E.
    exists []. rewrite app_nil_r. simpl. repeat split; auto; try lra. 
  - destruct (Qlt_le_dec el totalTime) as [Hlt|Hge].
    + destruct (search_returns MIN_DT T steppable MIN_DT_pos st att) as [r Hr].
      rewrite (stepLoop_step _ _ _ _ _ r Hlt Hr) in H.
      assert (Hdt : MIN_DT <= dt r /\ el + dt r < totalTime + MIN_DT).
      { specialize (Hatt Hlt).
        destruct (search_dt MIN_DT T steppable MIN_DT_pos _ _ _ _ _ Hr)
          as [E|(Hgt & Hle & _)]; [rewrite E|]; lra. }
      destruct (Qlt_le_dec (el + dt r) totalTime) as [Hl|Hg].
      * apply IH in H.
        -- destruct H as (new & -> & Hall & Hlen & Hsum & Hover).
           exists (r :: new). rewrite <- app_assoc. simpl.
           specialize (Hover Hl).
           repeat split; [constructor; tauto|lia|lra|intros _; lra].
        -- intros _. destruct (Qltb _ (dt r * 2)) eqn:E.
           ++ lra.
           ++ apply Qltb_false in E. exact E.
      * rewrite stepLoop_exit in H by exact Hg. injection H as <-.
        exists [r]. simpl.
        repeat split; [constructor; [tauto|constructor]|lia|lra|intros _; lra].
    + rewrite stepLoop_exit in H by exact Hge. injection H as <-.
      exists []. rewrite app_nil_r. simpl. repeat split; auto; try lia; lra.
Qed.

(** [iterations] is an adequate budget for the whole request. *)
Lemma iterations_enough :
  totalTime - 0 <= MIN_DT * inject_Z (Z.of_nat (iterations MIN_DT totalTime)).
Proof.
  unfold iterations.
  set (c := Qceiling (totalTime / MIN_DT)).
  assert (Hc : totalTime / MIN_DT <= inject_Z c) by apply Qle_ceiling.
  assert (Hm : inject_Z c <= inject_Z (Z.of_nat (Z.to_nat c))).
  { rewrite <- Zle_Qle. lia. }
  assert (E : totalTime - 0 == totalTime / MIN_DT * MIN_DT) by (field; lra).
  rewrite E, (Qmult_comm MIN_DT).
  apply Qmult_le_compat_r; lra.
Qed.

(** A metric that never drops below the threshold sends [search] to the
    floor. *)
Lemma search_high_error (fuel : nat) :
  (forall a b, ERROR_THRESHOLD <= distance steppable a b) ->
  forall (st : T) (dt0 : Q) (h : option T) (r : Result T),
    search MIN_DT fuel st steppable dt0 h = Some r -> dt r = MIN_DT.
Proof.
  intro Hhigh.
  induction fuel as [|fuel IH]; intros st dt0 h r H.
  - simpl in H. destruct (Qle_bool dt0 MIN_DT); [|discriminate].
    injection H as <-. reflexivity.
  - destruct (Qlt_le_dec MIN_DT dt0) as [Hgt|Hfl].
    + rewrite search_step in H by exact Hgt. cbv zeta in H.
      destruct (Qltb _ ERROR_THRESHOLD) eqn:E.
      * apply Qltb_true in E. exfalso.
        revert E. apply Qle_not_lt, Hhigh.
      * eapply IH, H.
    + rewrite search_floor in H by exact Hfl.
      injection H as <-. reflexivity.
Qed.

(** With such a metric every recorded step is [MIN_DT]. *)
Lemma stepLoop_high_error (fuel : nat) :
  (forall a b, ERROR_THRESHOLD <= distance steppable a b) ->
  forall (st : T) (elapsedTime : Q) (states : list (Result T)) (attemptedDT : Q)
         (rs : list (Result T)),
    stepLoop MIN_DT fuel steppable totalTime st elapsedTime states attemptedDT
    = Some rs ->
    exists new, rs = states ++ new /\ Forall (fun r => dt r = MIN_DT) new.
Proof.
  intro Hhigh.
  induction fuel as [|fuel IH]; intros st el states att rs H.
  - simpl in H. destruct (Qltb el totalTime); [discriminate|].
    injection H as <-. exists []. rewrite app_nil_r. auto.
  - destruct (Qlt_le_dec el totalTime) as [Hlt|Hge].
    + destruct (search_returns MIN_DT T steppable MIN_DT_pos st att) as [r Hr].
      rewrite (stepLoop_step _ _ _ _ _ r Hlt Hr) in H.
      apply IH in H. destruct H as (new & -> & Hall).
      exists (r :: new). rewrite <- app_assoc. split; [reflexivity|].
      constructor; [|exact Hall].
      eapply search_high_error; eauto.
    + rewrite stepLoop_exit in H by exact Hge. injection H as <-.
      exists []. rewrite app_nil_r. auto.
Qed.

End LoopFacts.

(** Steps that all last [m] add up to [m] times their number. *)
Lemma totalDuration_constant (T : Type) (m : Q) (rs : list (Result T)) :
  Forall (fun r => dt r = m) rs ->
  totalDuration rs == m * inject_Z (Z.of_nat (length rs)).
Proof.
  induction 1 as [|r rs Hr _ IH].
  - simpl. change (inject_Z (Z.of_nat 0)) with 0. ring.
  - cbn [totalDuration fold_right length]. fold (totalDuration rs).
    rewrite IH, Hr, Nat2Z.inj_succ. unfold Z.succ.
    rewrite inject_Z_plus. change (inject_Z 1) with 1. ring.
Qed.

(** The whole request, from the loop facts. *)
Lemma stepInTimeWithHistory_spec (MIN_DT : Q) (T : Type)
      (steppable : Steppable T) (originalState : T) (totalTime : Q) :
  0 < MIN_DT -> 0 < totalTime ->
  exists rs,
    stepInTimeWithHistory MIN_DT originalState steppable totalTime = Some rs /\
    Forall (fun r => MIN_DT <= dt r) rs /\
    (length rs <= iterations MIN_DT totalTime)%nat /\
    totalTime <= totalDuration rs /\
    totalDuration rs < totalTime + MIN_DT /\
    ((forall a b, ERROR_THRESHOLD <= distance steppable a b) ->
     Forall (fun r => dt r = MIN_DT) rs /\
     length rs = iterations MIN_DT totalTime).
Proof.
  intros Hmin Htot. unfold stepInTimeWithHistory.
  destruct (stepLoop_enough_fuel MIN_DT T steppable totalTime Hmin
              (iterations MIN_DT totalTime) originalState 0 [] totalTime
              (iterations_enough MIN_DT totalTime Hmin)) as [rs Hrs].
  exists rs. split; [exact Hrs|].
  assert (Hatt : 0 < totalTime -> totalTime <= totalTime - 0) by (intros; lra).
  destruct (stepLoop_spec MIN_DT T steppable totalTime Hmin _ _ _ _ _ _
              Hatt Hrs)
    as (new & E & Hall & Hlen & Hsum & Hover).
  simpl in E. subst new. specialize (Hover Htot).
  repeat split; try assumption; try lra.
  - destruct (stepLoop_high_error MIN_DT T steppable totalTime Hmin _ H
                _ _ _ _ _ Hrs) as (new & E & Hc).
    simpl in E. subst new. exact Hc.
  - destruct (stepLoop_high_error MIN_DT T steppable totalTime Hmin _ H
                _ _ _ _ _ Hrs) as (new & E & Hc).
    simpl in E. subst new.
    apply Nat.le_antisymm; [exact Hlen|].
    apply totalDuration_constant in Hc.
    unfold iterations.
    assert (Hq : totalTime / MIN_DT <= inject_Z (Z.of_nat (length rs))).
    { apply Qle_shift_div_r; [exact Hmin|]. 
      rewrite Qmult_comm, <- Hc. lra. }
    apply Qceiling_resp_le in Hq. rewrite Qceiling_Z in Hq. lia.
Qed.


Lemma ceiling_pow2 (MIN_DT : Q) (k : nat) :
  0 < MIN_DT ->
  Qceiling (MIN_DT * pow2 k / MIN_DT) = (2 ^ Z.of_nat k)%Z.
Proof.
  intro H.
  assert (E : MIN_DT * pow2 k / MIN_DT == inject_Z (2 ^ Z.of_nat k)).
  { rewrite <- pow2_inject. field. lra. }
  rewrite (Qceiling_comp _ _ E). apply Qceiling_Z.
Qed.

Lemma quadratic_below_pow2 (c : nat) : (c * S (2 * c) < 2 ^ (2 * c))%nat.
Proof.
  induction c as [|c IH].
  - simpl. lia.
  - replace (2 * S c)%nat with (S (S (2 * c))) by lia.
    rewrite !Nat.pow_succ_r'. nia.
Qed.

(** ** The claims on the integrator *)

(** No constant bounds the number of recorded sub-steps by a multiple of
    log2(totalTime / MIN_DT).  With [alwaysHigh] and
    [totalTime = MIN_DT * 2^(2c)] the loop records [2^(2c)] sub-steps, more
    than [c * (2c + 1)].  (A bound "in O" is a statement on unbounded
    inputs, which is why it is read on exact numbers.) *)
Lemma sub_steps_not_logarithmic :
  ~ exists c, logarithmic_sub_steps (1 # 1000) c.
Proof.
  intros [c Hc].
  assert (Hmin : 0 < 1 # 1000) by reflexivity.
  set (total := (1 # 1000) * pow2 (2 * c)).
  assert (Htot : 0 < total).
  { unfold total. pose proof (pow2_pos (2 * c)). nra. }
  destruct (stepInTimeWithHistory_spec (1 # 1000) unit alwaysHigh tt total
              Hmin Htot) as (rs & Hrs & _ & _ & _ & _ & Hhigh).
  destruct Hhigh as [_ Hlen].
  { intros a b. simpl. unfold ERROR_THRESHOLD. 
    apply Qlt_le_weak. reflexivity. }
  specialize (Hc unit alwaysHigh tt total rs Htot Hrs).
  unfold halvings, iterations in *. unfold total in *.
  rewrite ceiling_pow2 in * by exact Hmin.
  rewrite Z.log2_up_pow2, Nat2Z.id in Hc by lia.
  rewrite Hlen in Hc.
  pose proof (quadratic_below_pow2 c) as Hq.
  assert (E : Z.to_nat (2 ^ Z.of_nat (2 * c)) = (2 ^ (2 * c))%nat).
  { rewrite <- (Nat2Z.id (2 ^ (2 * c))). f_equal.
    rewrite Nat2Z.inj_pow. reflexivity. }
  rewrite E in Hc. lia.
Qed.

(** C3. The code at its failing input.  [search( 0, clock, 1, null )]
    rejects [dt = 1] and recurses on [dt = 1/2] with
    [halfStepState = update( 0, 1/2 )]; the recursive call takes that state
    for its own half step, so it accepts [dt = 1/2] with the state advanced
    by [3/4], whereas two half steps of [1/4] from the initial state give
    [1/2].  [stepInTimeWithHistory( 0, clock, 1 )] records this sub-step
    first. *)
Theorem search_reuses_parent_half_step :
  (exists r,
      search (1 # 1000) 2 0 clock 1 None = Some r /\
      dt r == 1 # 2 /\
      state r == 3 # 4 /\
      update clock (update clock 0 (dt r / 2)) (dt r / 2) == 1 # 2) /\
  (exists r rs,
      stepInTimeWithHistory (1 # 1000) 0 clock 1 = Some (r :: rs) /\
      dt r == 1 # 2 /\
      state r == 3 # 4).
Proof.
  split.
  - eexists. split; [vm_compute; reflexivity|]. repeat split.
  - eexists. eexists. split; [vm_compute; reflexivity|]. split; reflexivity.
Qed.

(** ** Further properties of the integrator *)

Section IntegratorProperties.

Variable MIN_DT : Q.
Variable T : Type.
Variable steppable : Steppable T.
Hypothesis MIN_DT_pos : 0 < MIN_DT.

Lemma halvings_succ (dt0 : Q) :
  MIN_DT < dt0 -> exists k, halvings MIN_DT dt0 = S k.
Proof.
  intro H. pose proof (halvings_enough MIN_DT MIN_DT_pos dt0) as He.
  destruct (halvings MIN_DT dt0) as [|k]; [|eauto].
  simpl in He. lra.
Qed.

Lemma iterations_succ (totalTime : Q) :
  0 < totalTime -> exists k, iterations MIN_DT totalTime = S k.
Proof.
  intro H. pose proof (iterations_enough MIN_DT totalTime MIN_DT_pos) as He.
  destruct (iterations MIN_DT totalTime) as [|k]; [|eauto].
  change (inject_Z (Z.of_nat 0)) with 0 in He. lra.
Qed.

Lemma stepLoop_atMostDoubling (totalTime : Q) (fuel : nat) :
  forall (st : T) (elapsedTime : Q) (states : list (Result T))
         (attemptedDT previous : Q) (rs : list (Result T)),
    MIN_DT <= previous -> attemptedDT <= 2 * previous ->
    stepLoop MIN_DT fuel steppable totalTime st elapsedTime states attemptedDT
    = Some rs ->
    exists new, rs = states ++ new /\ atMostDoubling previous new.
Proof.
  induction fuel as [|fuel IH]; intros st el states att prev rs Hp Ha H.
  - simpl in H. destruct (Qltb el totalTime); [discriminate|].
    injection H as <-. exists []. rewrite app_nil_r. simpl. auto.
  - destruct (Qlt_le_dec el totalTime) as [Hlt|Hge].
    + destruct (search_returns MIN_DT T steppable MIN_DT_pos st att) as [r Hr].
      rewrite (stepLoop_step _ _ _ _ _ _ _ _ _ r Hlt Hr) in H.
      assert (Hdt : MIN_DT <= dt r /\ dt r <= 2 * prev).
      { destruct (search_dt MIN_DT T steppable MIN_DT_pos _ _ _ _ _ Hr)
          as [E|(Hgt & Hle & _)]; [rewrite E|]; lra. }
      apply (IH _ _ _ _ (dt r)) in H; [|tauto|].
      * destruct H as (new & -> & Hnew). exists (r :: new).
        rewrite <- app_assoc. split; [reflexivity|]. simpl. tauto.
      * destruct (Qltb _ (dt r * 2)) eqn:E; [|lra].
        apply Qltb_true in E. lra.
    + rewrite stepLoop_exit in H by exact Hge. injection H as <-.
      exists []. rewrite app_nil_r. simpl. auto.
Qed.

End IntegratorProperties.

(** X1. With a steppable whose two candidates always agree within the error
    threshold, a request longer than [MIN_DT] is served by a single
    sub-step: its duration is the whole request and its state is the one
    reached by two half steps. *)
Theorem low_error_single_sub_step (MIN_DT : Q) (T : Type)
        (steppable : Steppable T) (originalState : T) (totalTime : Q) :
  0 < MIN_DT -> MIN_DT < totalTime ->
  (forall a b, distance steppable a b < ERROR_THRESHOLD) ->
  stepInTimeWithHistory MIN_DT originalState steppable totalTime
  = Some [mkResult totalTime
            (update steppable
               (update steppable originalState (totalTime / 2))
               (totalTime / 2))].
Proof.
  intros Hmin Hgt Hlow. unfold stepInTimeWithHistory.
  assert (Hpos : 0 < totalTime) by lra.
  destruct (iterations_succ MIN_DT Hmin totalTime Hpos) as [k ->].
  destruct (halvings_succ MIN_DT Hmin totalTime Hgt) as [j Hj].
  assert (Hs : search MIN_DT (halvings MIN_DT totalTime) originalState
                      steppable totalTime None
               = Some (mkResult totalTime
                         (update steppable
                            (update steppable originalState (totalTime / 2))
                            (totalTime / 2)))).
  { rewrite Hj, search_first_call by exact Hgt. cbv zeta.
    assert (E : Qltb (distance steppable
                        (update steppable originalState totalTime)
                        (update steppable
                           (update steppable originalState (totalTime / 2))
                           (totalTime / 2))) ERROR_THRESHOLD = true)
      by (apply Qltb_true, Hlow).
    rewrite E. reflexivity. }
  rewrite (stepLoop_step _ _ _ _ _ _ _ _ _ _ Hpos Hs).
  cbn [dt state]. rewrite stepLoop_exit by lra. reflexivity.
Qed.

Lemma low_error_single_sub_step_witness :
  0 < 1 # 1000 /\ (1 # 1000) < 1 # 60 /\
  (forall a b : unit,
      distance (mkSteppable (fun _ _ => tt) (fun _ _ => 0)) a b
      < ERROR_THRESHOLD) /\
  stepInTimeWithHistory (1 # 1000) tt
                        (mkSteppable (fun _ _ => tt) (fun _ _ => 0)) (1 # 60)
  = Some [mkResult (1 # 60) tt].
Proof.
  split; [reflexivity|]. split; [reflexivity|].
  split; [intros; reflexivity|].
  apply (low_error_single_sub_step (1 # 1000) unit
           (mkSteppable (fun _ _ => tt) (fun _ _ => 0)) tt (1 # 60));
    [reflexivity|reflexivity|intros; reflexivity].
Defined.

(** X2. A positive request of at most [MIN_DT] is served by exactly one
    sub-step of [MIN_DT], whatever the steppable: the request is overshot
    and the error is not looked at. *)
Theorem short_request_single_floor_step (MIN_DT : Q) (T : Type)
        (steppable : Steppable T) (originalState : T) (totalTime : Q) :
  0 < totalTime -> totalTime <= MIN_DT ->
  stepInTimeWithHistory MIN_DT originalState steppable totalTime
  = Some [mkResult MIN_DT (update steppable originalState MIN_DT)].
Proof.
  intros Hpos Hle. unfold stepInTimeWithHistory.
  assert (Hmin : 0 < MIN_DT) by lra.
  destruct (iterations_succ MIN_DT Hmin totalTime Hpos) as [k ->].
  rewrite (stepLoop_step _ _ _ _ _ _ _ _ _ _ Hpos
             (search_floor MIN_DT T steppable _ _ _ _ Hle)).
  cbn [dt state]. rewrite stepLoop_exit by lra. reflexivity.
Qed.

Lemma short_request_single_floor_step_witness :
  0 < 1 # 2000 /\ (1 # 2000) <= 1 # 1000 /\
  stepInTimeWithHistory (1 # 1000) 1 decay (1 # 2000)
  = Some [mkResult (1 # 1000) (update decay 1 (1 # 1000))].
Proof.
  split; [reflexivity|]. split; [discriminate|].
  apply (short_request_single_floor_step (1 # 1000) Q decay 1 (1 # 2000));
    [reflexivity|discriminate].
Defined.

(** X4. The step size recovers by doubling at most: every recorded duration
    is at most twice the duration recorded before it. *)
Theorem sub_steps_at_most_double (MIN_DT : Q) (T : Type)
        (steppable : Steppable T) (originalState : T) (totalTime : Q)
        (rs : list (Result T)) :
  0 < MIN_DT ->
  stepInTimeWithHistory MIN_DT originalState steppable totalTime = Some rs ->
  forall i a b,
    nth_error rs i = Some a -> nth_error rs (S i) = Some b ->
    dt b <= 2 * dt a.
Proof.
  intros Hmin Hrs.
  assert (Hchain : match rs with
                   | [] => True
                   | r :: rest => atMostDoubling (dt r) rest
                   end).
  { unfold stepInTimeWithHistory in Hrs.
    destruct (iterations MIN_DT totalTime) as [|fuel].
    - simpl in Hrs. destruct (Qltb 0 totalTime); [discriminate|].
      injection Hrs as <-. exact I.
    - destruct (Qlt_le_dec 0 totalTime) as [Hlt|Hge].
      + destruct (search_returns MIN_DT T steppable Hmin originalState
                    totalTime) as [r Hr].
        rewrite (stepLoop_step _ _ _ _ _ _ _ _ _ r Hlt Hr) in Hrs.
        assert (Hdt : MIN_DT <= dt r).
        { destruct (search_dt MIN_DT T steppable Hmin _ _ _ _ _ Hr)
            as [E|(Hgt & _)]; [rewrite E|]; lra. }
        apply (stepLoop_atMostDoubling MIN_DT T steppable Hmin totalTime
                 _ _ _ _ _ (dt r)) in Hrs; [|exact Hdt|].
        * destruct Hrs as (new & -> & Hnew). exact Hnew.
        * destruct (Qltb _ (dt r * 2)) eqn:E; [|lra].
          apply Qltb_true in E. lra.
      + rewrite stepLoop_exit in Hrs by exact Hge.
        injection Hrs as <-. exact I. }
  clear Hrs. destruct rs as [|r rest]; [intros [|i] a b H; discriminate|].
  revert r Hchain.
  induction rest as [|r' rest IH]; intros r Hchain i a b Ha Hb.
  - destruct i as [|[|i]]; discriminate.
  - destruct Hchain as [Hd Hchain]. destruct i as [|i].
    + injection Ha as <-. injection Hb as <-. exact Hd.
    + apply (IH r' Hchain i a b); assumption.
Qed.

Lemma sub_steps_at_most_double_witness :
  0 < 1 # 1000 /\
  exists rs,
    stepInTimeWithHistory (1 # 1000) 1 decay (1 # 60) = Some rs /\
    forall i a b,
      nth_error rs i = Some a -> nth_error rs (S i) = Some b ->
      dt b <= 2 * dt a.
Proof.
  split; [reflexivity|].
  destruct (stepInTimeWithHistory_spec (1 # 1000) Q decay 1 (1 # 60))
    as (rs & E & _); [reflexivity|reflexivity|].
  exists rs. split; [exact E|].
  apply (sub_steps_at_most_double (1 # 1000) Q decay 1 (1 # 60) rs);
    [reflexivity|exact E].
Defined.

End TimestepSubdivisions.

(** * The adaptive integrator in double precision *)
Module TimestepSubdivisionsDouble.

Local Open Scope float_scope.

(** [ERROR_THRESHOLD = 1E-5], the double nearest to 10^-5. *)
#[warnings="-inexact-float"]
Definition ERROR_THRESHOLD : float := 1e-5.

(** [dt / 2], [k] times over. *)
Fixpoint halved (k : nat) (dt0 : float) : float :=
  match k with
  | O => dt0
  | S k' => halved k' (dt0 / 2)
  end.

Section Integrator.

(** [MIN_DT = CCKCQueryParameters.minDT], a parameter as in the exact
    model. *)
Variable MIN_DT : float.

(** The state type [T] of [TimestepSubdivisions<T>], and what [||] makes of
    a state: whether it is truthy. *)
Variable T : Type.
Variable truthy : T -> bool.

(** [type Steppable<T> = { update, distance }]. *)
Record Steppable : Type := mkSteppable {
  update : T -> float -> T;
  distance : T -> T -> float
}.

(** The object literal [{ dt, state }]. *)
Record Result : Type := mkResult {
  dt : float;
  state : T
}.

(** [search( state, steppable, dt, halfStepState )].  [fuel] counts the
    recursive calls that remain allowed, [None] means that the budget was
    used up.  [halfStepState || update( state, dt / 2 )] takes the argument
    when it is neither [null] nor falsy. *)
Fixpoint search (fuel : nat) (st : T) (steppable : Steppable) (dt0 : float)
         (halfStepState : option T) : option Result :=
  if dt0 <=? MIN_DT then
    Some (mkResult MIN_DT (update steppable st MIN_DT))
  else
    match fuel with
    | O => None
    | S fuel' =>
        let a := update steppable st dt0 in
        let b1 := match halfStepState with
                  | Some h =>
                      if truthy h then h else update steppable st (dt0 / 2)
                  | None => update steppable st (dt0 / 2)
                  end in
        let b2 := update steppable b1 (dt0 / 2) in
        let d := distance steppable a b2 in
        let errorAcceptable := d <? ERROR_THRESHOLD in
        if errorAcceptable then Some (mkResult dt0 b2)
        else search fuel' st steppable (dt0 / 2) (Some b1)
    end.

(** The body of [while ( elapsedTime < totalTime )], as a loop on the four
    mutable locals.  [fuel] bounds the number of iterations and
    [searchFuel] the depth of each [search]. *)
Fixpoint stepLoop (searchFuel fuel : nat) (steppable : Steppable)
         (totalTime : float) (st : T) (elapsedTime : float)
         (states : list Result) (attemptedDT : float)
  : option (list Result) :=
  if elapsedTime <? totalTime then
    match fuel with
    | O => None
    | S fuel' =>
        match search searchFuel st steppable attemptedDT None with
        | None => None
        | Some result =>
            let elapsedTime' := elapsedTime + dt result in
            let attemptedDT' := dt result * 2 in
            let attemptedDT'' :=
              if totalTime - elapsedTime' <? attemptedDT'
              then totalTime - elapsedTime' else attemptedDT' in
            stepLoop searchFuel fuel' steppable totalTime (state result)
                     elapsedTime' (states ++ [result]) attemptedDT''
        end
    end
  else Some states.

(** [stepInTimeWithHistory( originalState, steppable, totalTime )] within a
    budget: the call returns [rs] when some budget gives [Some rs], and it
    does not return when every budget gives [None]. *)
Definition stepInTimeWithHistory (fuel : nat) (originalState : T)
           (steppable : Steppable) (totalTime : float)
  : option (list Result) :=
  stepLoop fuel fuel steppable totalTime originalState 0 [] totalTime.

(** [elapsedTime] after the sub-steps [states], added one after the other
    as the loop does. *)
Definition elapsedFrom (elapsedTime : float) (states : list Result) : float :=
  fold_left (fun e r => e + dt r) states elapsedTime.

(** [n] steps of the fixed size [MIN_DT] from [st], as the records
    [{ dt, state }] of an integration without step control. *)
Fixpoint fixedSteps (steppable : Steppable) (n : nat) (st : T)
  : list Result :=
  match n with
  | O => []
  | S k =>
      let st' := update steppable st MIN_DT in
      mkResult MIN_DT st' :: fixedSteps steppable k st'
  end.

(** [MIN_DT] added [j] times to [0.0]. *)
Fixpoint elapsedAfter (j : nat) : float :=
  match j with
  | O => 0
  | S k => elapsedAfter k + MIN_DT
  end.

(** The step that the loop attempts after [j] sub-steps of [MIN_DT]. *)
Definition attemptedAfter (totalTime : float) (j : nat) : float :=
  match j with
  | O => totalTime
  | S _ =>
      if totalTime - elapsedAfter j <? MIN_DT * 2
      then totalTime - elapsedAfter j else MIN_DT * 2
  end.

(** Halving [dt0] at most [k] times gives a step of at most [MIN_DT]. *)
Definition reachesFloor (k : nat) (dt0 : float) : bool :=
  existsb (fun i => halved i dt0 <=? MIN_DT) (seq 0 (S k)).

(** A run of [n] sub-steps of [MIN_DT]: the elapsed time is below
    [totalTime] before each of them and no longer after the last, and every
    attempted step reaches the floor within [k] halvings. *)
Definition fixedStepRun (k n : nat) (totalTime : float) : bool :=
  forallb (fun j => (elapsedAfter j <? totalTime)
                    && reachesFloor k (attemptedAfter totalTime j))
          (seq 0 n)
  && negb (elapsedAfter n <? totalTime).

End Integrator.

Arguments mkSteppable {T} _ _.
Arguments update {T} _ _ _.
Arguments distance {T} _ _ _.
Arguments mkResult {T} _ _.
Arguments dt {T} _.
Arguments state {T} _.
Arguments search MIN_DT {T} truthy fuel st steppable dt0 halfStepState.
Arguments stepLoop MIN_DT {T} truthy searchFuel fuel steppable totalTime st
  elapsedTime states attemptedDT.
Arguments stepInTimeWithHistory MIN_DT {T} truthy fuel originalState
  steppable totalTime.
Arguments elapsedFrom {T} elapsedTime states.
Arguments fixedSteps MIN_DT {T} steppable n st.

(** The truthiness of a number: neither 0 nor NaN; and that of an object. *)
Definition truthyNumber (x : float) : bool := negb (x =? 0) && (x =? x).

Definition object {T : Type} (x : T) : bool := true.

(** The exact value of a finite double, as a rational. *)
Definition exact (x : float) : Q :=
  match Prim2SF x with
  | S754_finite s m e =>
      ((if s then -1 else 1) * inject_Z (Z.pos m) * Qpower 2 e)%Q
  | _ => 0%Q
  end.

(** ** Concrete steppables *)

(** Explicit Euler for [x' = -x], with the absolute difference as metric. *)
Definition decay : Steppable float :=
  mkSteppable (fun x h => x - x * h) (fun a b => abs (a - b)).

(** A steppable whose two candidates never agree. *)
Definition alwaysHigh : Steppable unit :=
  mkSteppable (fun _ _ => tt) (fun _ _ => 1).

(** A state that only accumulates the time it was advanced by; the metric
    tells apart the two candidates exactly when they are different. *)
Definition clock : Steppable float :=
  mkSteppable (fun t h => t + h) (fun a b => if a =? b then 1 else 0).

(** The same state, with a metric that accepts a step only when its coarse
    candidate is [2^53]. *)
Definition stubborn : Steppable float :=
  mkSteppable (fun t h => t + h) (fun a b => if a =? 0x1p53 then 0 else 1).

(** ** Facts about the comparisons of doubles *)

Lemma ltb_leb (x y : float) : (x <? y) = true -> (x <=? y) = true.
Proof.
  rewrite ltb_spec, leb_spec. unfold SFltb, SFleb.
  destruct (SFcompare (Prim2SF x) (Prim2SF y)) as [[| |]|]; congruence.
Qed.

Lemma SFcompare_refl_not_Lt (f : spec_float) : SFcompare f f <> Some Lt.
Proof.
  destruct f as [s|s| |s m e]; simpl; try destruct s; try discriminate.
  - rewrite Z.compare_refl, Pos.compare_refl. discriminate.
  - rewrite Z.compare_refl, Pos.compare_refl. discriminate.
Qed.

Lemma ltb_irrefl (x : float) : (x <? x) = false.
Proof.
  rewrite ltb_spec. unfold SFltb.
  pose proof (SFcompare_refl_not_Lt (Prim2SF x)) as H.
  destruct (SFcompare (Prim2SF x) (Prim2SF x)) as [[| |]|]; congruence.
Qed.

Lemma halved_div (k : nat) : forall x, halved k x / 2 = halved k (x / 2).
Proof. induction k as [|k IH]; intro x; simpl; [reflexivity|apply IH]. Qed.

(** ** Facts about [search] *)

Section SearchFacts.

Variable MIN_DT : float.
Variable T : Type.
Variable truthy : T -> bool.
Variable steppable : Steppable T.

Lemma search_at_floor (fuel : nat) (st : T) (dt0 : float) (h : option T) :
  (dt0 <=? MIN_DT) = true ->
  search MIN_DT truthy fuel st steppable dt0 h
  = Some (mkResult MIN_DT (update steppable st MIN_DT)).
Proof. intro H. destruct fuel; simpl; rewrite H; reflexivity. Qed.

(** More budget does not change a result. *)
Lemma search_budget_mono (fuel : nat) :
  forall fuel' st dt0 h r,
    (fuel <= fuel')%nat ->
    search MIN_DT truthy fuel st steppable dt0 h = Some r ->
    search MIN_DT truthy fuel' st steppable dt0 h = Some r.
Proof.
  induction fuel as [|fuel IH]; intros fuel' st dt0 h r Hle Hs.
  - simpl in Hs. destruct (dt0 <=? MIN_DT) eqn:E; [|discriminate].
    rewrite search_at_floor by exact E. exact Hs.
  - destruct fuel' as [|fuel']; [lia|].
    simpl in Hs |- *. destruct (dt0 <=? MIN_DT); [exact Hs|].
    destruct (_ <? ERROR_THRESHOLD); [exact Hs|].
    apply IH; [lia|exact Hs].
Qed.

(** [search] returns as soon as its budget covers the halvings down to the
    floor. *)
Lemma search_returns_within (k : nat) :
  forall fuel st dt0 h,
    (halved k dt0 <=? MIN_DT) = true -> (k <= fuel)%nat ->
    exists r, search MIN_DT truthy fuel st steppable dt0 h = Some r.
Proof.
  induction k as [|k IH]; intros fuel st dt0 h Hk Hle.
  - simpl in Hk. rewrite search_at_floor by exact Hk. eauto.
  - destruct fuel as [|fuel]; [lia|].
    simpl. destruct (dt0 <=? MIN_DT); [eauto|].
    destruct (_ <? ERROR_THRESHOLD); [eauto|].
    apply IH; [exact Hk|lia].
Qed.

(** No step below the floor is returned. *)
Lemma search_dt_floor (fuel : nat) :
  forall st dt0 h r,
    search MIN_DT truthy fuel st steppable dt0 h = Some r ->
    dt r = MIN_DT \/ (dt r <=? MIN_DT) = false.
Proof.
  induction fuel as [|fuel IH]; intros st dt0 h r Hs; simpl in Hs;
    destruct (dt0 <=? MIN_DT) eqn:E.
  - injection Hs as <-. left. reflexivity.
  - discriminate.
  - injection Hs as <-. left. reflexivity.
  - destruct (_ <? ERROR_THRESHOLD).
    + injection Hs as <-. right. exact E.
    + eapply IH, Hs.
Qed.

(** The calls below a first call whose half-step state is truthy. *)
Lemma search_below_first_call (st : T) (dt0 : float) (fuel : nat) :
  truthy (update steppable st (dt0 / 2)) = true ->
  forall k r,
    search MIN_DT truthy fuel st steppable (halved (S k) dt0)
           (Some (update steppable st (dt0 / 2))) = Some r ->
    r = mkResult MIN_DT (update steppable st MIN_DT) \/
    ((dt r <=? MIN_DT) = false /\
     state r
     = update steppable (update steppable st (dt0 / 2)) (dt r / 2) /\
     exists k', dt r = halved (S k') dt0).
Proof.
  intro Htruthy.
  induction fuel as [|fuel IH]; intros k r Hs; simpl in Hs;
    destruct (halved k (dt0 / 2) <=? MIN_DT) eqn:E.
  - injection Hs as <-. left. reflexivity.
  - discriminate.
  - injection Hs as <-. left. reflexivity.
  - rewrite Htruthy in Hs.
    destruct (_ <? ERROR_THRESHOLD).
    + injection Hs as <-. right. cbn [dt state].
      split; [exact E|]. split; [reflexivity|]. exists k. reflexivity.
    + apply (IH (S k) r). cbn [halved]. rewrite <- halved_div. exact Hs.
Qed.

Hypothesis high_error :
  forall a b, (distance steppable a b <? ERROR_THRESHOLD) = false.

(** Under a metric that is never below the threshold, [search] returns the
    floor step. *)
Lemma search_high_error_floor (fuel : nat) :
  forall st dt0 h r,
    search MIN_DT truthy fuel st steppable dt0 h = Some r ->
    r = mkResult MIN_DT (update steppable st MIN_DT).
Proof.
  induction fuel as [|fuel IH]; intros st dt0 h r Hs; simpl in Hs;
    destruct (dt0 <=? MIN_DT).
  - congruence.
  - discriminate.
  - congruence.
  - rewrite high_error in Hs. eapply IH, Hs.
Qed.

Lemma search_high_error_returns (k fuel : nat) (st : T) (dt0 : float) :
  reachesFloor MIN_DT k dt0 = true -> (k <= fuel)%nat ->
  search MIN_DT truthy fuel st steppable dt0 None
  = Some (mkResult MIN_DT (update steppable st MIN_DT)).
Proof.
  intros Hk Hle. unfold reachesFloor in Hk.
  apply existsb_exists in Hk. destruct Hk as (i & Hi & Hfloor).
  apply in_seq in Hi.
  destruct (search_returns_within i fuel st dt0 None Hfloor) as [r Hr]; [lia|].
  rewrite Hr. f_equal. eapply search_high_error_floor, Hr.
Qed.

End SearchFacts.

(** ** Facts about the loop of [stepInTimeWithHistory] *)

Section LoopFacts.

Variable MIN_DT : float.
Variable T : Type.
Variable truthy : T -> bool.
Variable steppable : Steppable T.
Variable totalTime : float.

Lemma stepLoop_done (searchFuel fuel : nat) (st : T) (elapsedTime : float)
      (states : list (Result T)) (attemptedDT : float) :
  (elapsedTime <? totalTime) = false ->
  stepLoop MIN_DT truthy searchFuel fuel steppable totalTime st elapsedTime
           states attemptedDT = Some states.
Proof. intro H. destruct fuel; simpl; rewrite H; reflexivity. Qed.

(** More budget does not change a result. *)
Lemma stepLoop_fuel_mono (fuel : nat) :
  forall searchFuel searchFuel' fuel' st elapsedTime states attemptedDT rs,
    (searchFuel <= searchFuel')%nat -> (fuel <= fuel')%nat ->
    stepLoop MIN_DT truthy searchFuel fuel steppable totalTime st elapsedTime
             states attemptedDT = Some rs ->
    stepLoop MIN_DT truthy searchFuel' fuel' steppable totalTime st
             elapsedTime states attemptedDT = Some rs.
Proof.
  induction fuel as [|fuel IH];
    intros sf sf' fuel' st e states att rs Hsf Hle Hrun.
  - simpl in Hrun. destruct (e <? totalTime) eqn:E; [discriminate|].
    rewrite stepLoop_done by exact E. exact Hrun.
  - destruct fuel' as [|fuel']; [lia|].
    simpl in Hrun |- *. destruct (e <? totalTime); [|exact Hrun].
    destruct (search MIN_DT truthy sf st steppable att None) as [r|] eqn:Hs;
      [|discriminate].
    rewrite (search_budget_mono MIN_DT T truthy steppable sf sf' st att None r
               Hsf Hs).
    eapply IH; [exact Hsf|lia|exact Hrun].
Qed.

(** What the loop records: no step below the floor, and just as many steps
    as it takes for the elapsed time to be no longer below the request. *)
Lemma stepLoop_records (searchFuel fuel : nat) :
  forall st elapsedTime states attemptedDT rs,
    stepLoop MIN_DT truthy searchFuel fuel steppable totalTime st elapsedTime
             states attemptedDT = Some rs ->
    exists new,
      rs = states ++ new /\
      Forall (fun r => dt r = MIN_DT \/ (dt r <=? MIN_DT) = false) new /\
      (elapsedFrom elapsedTime new <? totalTime) = false /\
      (forall before r,
          new = before ++ [r] ->
          (elapsedFrom elapsedTime before <? totalTime) = true) /\
      ((elapsedTime <? totalTime) = true -> new <> []).
Proof.
  induction fuel as [|fuel IH]; intros st e states att rs Hrun;
    simpl in Hrun; destruct (e <? totalTime) eqn:E.
  - discriminate.
  - injection Hrun as <-. exists []. rewrite app_nil_r.
    split; [reflexivity|]. split; [constructor|]. split; [exact E|].
    split; [|congruence].
    intros [|x before] r H; discriminate.
  - destruct (search MIN_DT truthy searchFuel st steppable att None)
      as [r|] eqn:Hs; [|discriminate].
    destruct (IH _ _ _ _ _ Hrun) as (new & -> & Hall & Hend & Hlast & _).
    exists (r :: new). rewrite <- app_assoc. split; [reflexivity|].
    split; [constructor; [eapply search_dt_floor, Hs|exact Hall]|].
    split; [exact Hend|]. split; [|discriminate].
    intros before r' Hsplit. destruct before as [|x before].
    + exact E.
    + injection Hsplit as <- Hsplit. apply (Hlast before r' Hsplit).
  - injection Hrun as <-. exists []. rewrite app_nil_r.
    split; [reflexivity|]. split; [constructor|]. split; [exact E|].
    split; [|congruence].
    intros [|x before] r H; discriminate.
Qed.

Hypothesis high_error :
  forall a b, (distance steppable a b <? ERROR_THRESHOLD) = false.

(** Under a metric that is never below the threshold the loop takes steps
    of [MIN_DT] until their sum is no longer below the request. *)
Lemma stepLoop_fixedSteps (k : nat) (m : nat) :
  forall j searchFuel fuel st states,
    (k <= searchFuel)%nat -> (m <= fuel)%nat ->
    (forall i, (j <= i < j + m)%nat ->
               (elapsedAfter MIN_DT i <? totalTime) = true /\
               reachesFloor MIN_DT k (attemptedAfter MIN_DT totalTime i)
               = true) ->
    (elapsedAfter MIN_DT (j + m) <? totalTime) = false ->
    stepLoop MIN_DT truthy searchFuel fuel steppable totalTime st
             (elapsedAfter MIN_DT j) states
             (attemptedAfter MIN_DT totalTime j)
    = Some (states ++ fixedSteps MIN_DT steppable m st).
Proof.
  induction m as [|m IH]; intros j sf fuel st states Hsf Hfuel Hrun Hend.
  - rewrite Nat.add_0_r in Hend. rewrite stepLoop_done by exact Hend.
    simpl. rewrite app_nil_r. reflexivity.
  - destruct fuel as [|fuel]; [lia|].
    destruct (Hrun j ltac:(lia)) as [Hlt Hfloor].
    cbn [stepLoop]. rewrite Hlt.
    rewrite (search_high_error_returns MIN_DT T truthy steppable high_error
               k sf st _ Hfloor Hsf).
    cbv zeta. cbn [dt state fixedSteps].
    change (elapsedAfter MIN_DT j + MIN_DT) with (elapsedAfter MIN_DT (S j)).
    change (if totalTime - elapsedAfter MIN_DT (S j) <? MIN_DT * 2
            then totalTime - elapsedAfter MIN_DT (S j) else MIN_DT * 2)
      with (attemptedAfter MIN_DT totalTime (S j)).
    rewrite (IH (S j) sf fuel _ _ Hsf ltac:(lia)).
    + rewrite <- app_assoc. reflexivity.
    + intros i Hi. apply Hrun. lia.
    + replace (S j + m)%nat with (j + S m)%nat by lia. exact Hend.
Qed.

End LoopFacts.

(** ** A loop that does not end *)

(** With [MIN_DT = 1] and a request of [2^54], [stubborn] accepts a first
    step of [2^53] and rejects every step after it.  From then on each
    sub-step is the floor step of 1, and [2^53 + 1] rounds to [2^53]: the
    elapsed time stays where it is. *)
Lemma stubborn_stuck (fuel : nat) :
  forall searchFuel states,
    stepLoop 1 truthyNumber searchFuel fuel stubborn 0x1p54 0x1.8p53 0x1p53
             states 2 = None.
Proof.
  induction fuel as [|fuel IH]; intros searchFuel states.
  - reflexivity.
  - destruct searchFuel as [|[|searchFuel]].
    + reflexivity.
    + cbn. apply IH.
    + cbn. apply IH.
Qed.

Lemma stubborn_first_steps (searchFuel fuel : nat) :
  stepLoop 1 truthyNumber (54 + searchFuel) (S (S fuel)) stubborn 0x1p54
           0 0 [] 0x1p54
  = stepLoop 1 truthyNumber (54 + searchFuel) fuel stubborn 0x1p54
             0x1.8p53 0x1p53
             [mkResult 0x1p53 0x1.8p53; mkResult 1 0x1.8p53] 2.
Proof. vm_compute. reflexivity. Qed.

Lemma stubborn_never_returns (fuel : nat) :
  stepInTimeWithHistory 1 truthyNumber fuel 0 stubborn 0x1p54 = None.
Proof.
  unfold stepInTimeWithHistory.
  destruct (stepLoop 1 truthyNumber fuel fuel stubborn 0x1p54 0 0 [] 0x1p54)
    as [rs|] eqn:E; [exfalso|reflexivity].
  apply (stepLoop_fuel_mono 1 float truthyNumber stubborn 0x1p54 fuel fuel
           (54 + fuel) (S (S fuel))) in E; [|lia|lia].
  rewrite stubborn_first_steps, stubborn_stuck in E. discriminate.
Qed.

(** ** The claims on the integrator *)







(** ** Further properties of the integrator *)

(** X5. What a first call of [search] (without half-step state) can return
    when its half-step state [update( state, dt0 / 2 )] is truthy, as every
    object is: the floor step; or the attempted step with the state of two
    half steps; or [dt0] halved [k >= 1] times, a step that fails the test
    [dt <= MIN_DT], whose state is the half-step state of the first call
    advanced by half of the accepted step. *)
Theorem search_results (MIN_DT : float) (T : Type) (truthy : T -> bool)
        (steppable : Steppable T) (fuel : nat) (st : T) (dt0 : float)
        (r : Result T) :
  truthy (update steppable st (dt0 / 2)) = true ->
  search MIN_DT truthy fuel st steppable dt0 None = Some r ->
  r = mkResult MIN_DT (update steppable st MIN_DT) \/
  r = mkResult dt0
        (update steppable (update steppable st (dt0 / 2)) (dt0 / 2)) \/
  ((dt r <=? MIN_DT) = false /\
   state r = update steppable (update steppable st (dt0 / 2)) (dt r / 2) /\
   exists k, dt r = halved (S k) dt0).
Proof.
  intros Htruthy Hs.
  destruct fuel as [|fuel]; simpl in Hs; destruct (dt0 <=? MIN_DT) eqn:E.
  - injection Hs as <-. left. reflexivity.
  - discriminate.
  - injection Hs as <-. left. reflexivity.
  - destruct (_ <? ERROR_THRESHOLD).
    + injection Hs as <-. right. left. reflexivity.
    + destruct (search_below_first_call MIN_DT T truthy steppable st dt0
                  fuel Htruthy O r Hs) as [H|H];
        [left; exact H|right; right; exact H].
Qed.

Lemma search_results_witness :
  truthyNumber (update clock 0 (1 / 2)) = true /\
  exists r,
    search (1 / 1000) truthyNumber 2 0 clock 1 None = Some r /\
    dt r = 0.5 /\
    state r = update clock (update clock 0 (1 / 2)) (dt r / 2).
Proof.
  split; [reflexivity|].
  assert (E : search (1 / 1000) truthyNumber 2 0 clock 1 None
              = Some (mkResult 0.5 0.75)) by reflexivity.
  eexists. split; [exact E|]. split; [reflexivity|].
  destruct (search_results (1 / 1000) float truthyNumber clock 2 0 1 _
              eq_refl E) as [H|[H|H]];
    [vm_compute in H; discriminate H|vm_compute in H; discriminate H
    |apply H].
Defined.

End TimestepSubdivisionsDouble.

(** * The result aggregator: analysis/LTAStateSet.ts *)
Module LTAStateSet.

(** [a / b] on JavaScript numbers, as far as its result is a finite number:
    a zero divisor gives NaN or an infinity, here [None]. *)
Definition jsDiv (a b : Q) : option Q :=
  if Qeq_bool b 0 then None else Some (a / b).

Section Aggregator.

(** [LTAState] and the elements: their classes are not among the sources;
    all that [getTimeAverageCurrent] uses of them is the number
    [state.ltaSolution.getCurrent( element )]. *)
Variable LTAState : Type.
Variable MNACircuitElement : Type.
Variable getCurrent : LTAState -> MNACircuitElement -> Q.

(** [type Element = { dt: number; state: LTAState }]. *)
Record Element : Type := mkElement {
  dt : Q;
  state : LTAState
}.

(** [getTimeAverageCurrent( element )]: the [forEach] updates the two
    accumulators [weightedSum] and [totalTime] from left to right. *)
Definition getTimeAverageCurrent (resultSet : list Element)
           (element : MNACircuitElement) : option Q :=
  let '(weightedSum, totalTime) :=
    fold_left
      (fun '(weightedSum, totalTime) stateObject =>
         (weightedSum + getCurrent (state stateObject) element * dt stateObject,
          totalTime + dt stateObject))
      resultSet (0, 0) in
  jsDiv weightedSum totalTime.

(** [getFinalState()]: [_.last( this.resultSet ).state]. *)
Definition getFinalState (resultSet : list Element) : option LTAState :=
  option_map state (last (map Some resultSet) None).

(** [getInstantaneousCurrent( element )]:
    [this.getFinalState().ltaSolution!.getCurrent( element )]; without a
    last element the property access throws, here [None]. *)
Definition getInstantaneousCurrent (resultSet : list Element)
           (element : MNACircuitElement) : option Q :=
  option_map (fun s => getCurrent s element) (getFinalState resultSet).

End Aggregator.

Arguments mkElement {LTAState} _ _.
Arguments dt {LTAState} _.
Arguments state {LTAState} _.
Arguments getTimeAverageCurrent {LTAState MNACircuitElement} getCurrent
  resultSet element.
Arguments getFinalState {LTAState} resultSet.
Arguments getInstantaneousCurrent {LTAState MNACircuitElement} getCurrent
  resultSet element.

(** ** Further properties of the aggregator *)

Section AggregatorProperties.

Variable LTAState : Type.
Variable MNACircuitElement : Type.
Variable getCurrent : LTAState -> MNACircuitElement -> Q.
Variable element : MNACircuitElement.

Lemma last_app_one {A : Type} (l : list A) (x d : A) : last (l ++ [x]) d = x.
Proof.
  induction l as [|y l IH]; [reflexivity|].
  cbn [app]. destruct (l ++ [x]) eqn:E.
  - destruct l; discriminate.
  - exact IH.
Qed.

End AggregatorProperties.

(** X8. The instantaneous current is read from the last sub-step alone,
    whatever came before it; a result set without sub-steps has no final
    state and no instantaneous current, and its time average is not a
    number. *)
Theorem instantaneous_reads_last (LTAState MNACircuitElement : Type)
        (getCurrent : LTAState -> MNACircuitElement -> Q)
        (element : MNACircuitElement) :
  (forall resultSet r,
      getFinalState (resultSet ++ [r]) = Some (state r) /\
      getInstantaneousCurrent getCurrent (resultSet ++ [r]) element
      = Some (getCurrent (state r) element)) /\
  getFinalState (@nil (Element LTAState)) = None /\
  getInstantaneousCurrent getCurrent [] element = None /\
  getTimeAverageCurrent getCurrent [] element = None.
Proof.
  split; [|repeat split].
  intros resultSet r.
  unfold getInstantaneousCurrent, getFinalState.
  rewrite map_app. cbn [map]. rewrite last_app_one. split; reflexivity.
Qed.

End LTAStateSet.

(** * The result aggregator in double precision *)
Module LTAStateSetDouble.

Local Open Scope float_scope.

Section Aggregator.

(** [LTAState] and the elements, as in the exact model: all that
    [getTimeAverageCurrent] uses of them is the number
    [state.ltaSolution.getCurrent( element )]. *)
Variable LTAState : Type.
Variable MNACircuitElement : Type.
Variable getCurrent : LTAState -> MNACircuitElement -> float.

(** [type Element = { dt: number; state: LTAState }]. *)
Record Element : Type := mkElement {
  dt : float;
  state : LTAState
}.

(** [getTimeAverageCurrent( element )]: the [forEach] updates the two
    accumulators [weightedSum] and [totalTime] from left to right, starting
    at [0.0]; the quotient is NaN for [0 / 0]. *)
Definition getTimeAverageCurrent (resultSet : list Element)
           (element : MNACircuitElement) : float :=
  let '(weightedSum, totalTime) :=
    fold_left
      (fun '(weightedSum, totalTime) stateObject =>
         (weightedSum + getCurrent (state stateObject) element * dt stateObject,
          totalTime + dt stateObject))
      resultSet (0, 0) in
  weightedSum / totalTime.

(** The sum of a list of doubles, added to [start] from left to right. *)
Definition sumFrom (start : float) (l : list float) : float :=
  fold_left add l start.

(** The spec's words: the sum of [current_i * dt_i] and the sum of [dt_i],
    each added up in the order of the sub-steps. *)
Definition weightedSumSpec (resultSet : list Element)
           (element : MNACircuitElement) : float :=
  sumFrom 0 (map (fun r => getCurrent (state r) element * dt r) resultSet).

Definition totalTimeSpec (resultSet : list Element) : float :=
  sumFrom 0 (map dt resultSet).

End Aggregator.

Arguments mkElement {LTAState} _ _.
Arguments dt {LTAState} _.
Arguments state {LTAState} _.
Arguments getTimeAverageCurrent {LTAState MNACircuitElement} getCurrent
  resultSet element.
Arguments weightedSumSpec {LTAState MNACircuitElement} getCurrent resultSet
  element.
Arguments totalTimeSpec {LTAState} resultSet.

(** A result set whose states are the currents themselves. *)
Definition readCurrent (s : float) (_ : unit) : float := s.

Section AggregatorFacts.

Variable LTAState : Type.
Variable MNACircuitElement : Type.
Variable getCurrent : LTAState -> MNACircuitElement -> float.
Variable element : MNACircuitElement.

Let accumulate :=
  fun '(weightedSum, totalTime) (stateObject : Element LTAState) =>
    (weightedSum + getCurrent (state stateObject) element * dt stateObject,
     totalTime + dt stateObject).

(** The two accumulators of the loop hold the two sums of the spec. *)
Lemma accumulators (resultSet : list (Element LTAState)) :
  forall w t,
    fold_left accumulate resultSet (w, t)
    = (sumFrom w (map (fun r => getCurrent (state r) element * dt r)
                      resultSet),
       sumFrom t (map dt resultSet)).
Proof.
  induction resultSet as [|r rs IH]; intros w t; [reflexivity|].
  cbn [fold_left map]. unfold accumulate at 2. rewrite IH. reflexivity.
Qed.

End AggregatorFacts.

(** ** The claim on the aggregator *)



End LTAStateSetDouble.

(** * The static solver: ModifiedNodalAnalysisCircuit *)
Module MNA.

(** ** The heap of circuit elements *)

(** Modelled from the spec: [ModifiedNodalAnalysisCircuitElement], whose
    class is not among the sources.  The fields are those its users read and
    write ([nodeId0], [nodeId1], [value], and [currentSolution], which is
    [null] until a solve supplies it); the field [circuitElement], a back
    pointer to the model object, plays no part in the solver.  An element
    joins its two nodes ("any element, including shorts and batteries,
    creates adjacency"): [containsNodeId] tells whether a node is one of the
    two and [getOppositeNode] gives the other one.  Node ids are vertex
    indices. *)
Record MNAElement : Type := mkMNAElement {
  nodeId0 : nat;
  nodeId1 : nat;
  value : Q;
  currentSolution : option Q
}.

Definition containsNodeId (e : MNAElement) (nodeId : nat) : bool :=
  (nodeId0 e =? nodeId)%nat || (nodeId1 e =? nodeId)%nat.

Definition getOppositeNode (e : MNAElement) (nodeId : nat) : nat :=
  if (nodeId0 e =? nodeId)%nat then nodeId1 e else nodeId0 e.

(** Elements are objects: the arrays of a circuit hold references, the
    unknown currents are compared by reference ([other.element ===
    this.element]) and [solve] writes into the objects. *)
Definition ref : Type := nat.
Definition store : Type := ref -> MNAElement.

(** [element.currentSolution = v]. *)
Definition setCurrentSolution (h : store) (r : ref) (v : option Q) : store :=
  fun r' =>
    {| nodeId0 := nodeId0 (h r');
       nodeId1 := nodeId1 (h r');
       value := value (h r');
       currentSolution :=
         if (r' =? r)%nat then v else currentSolution (h r') |}.

(** The three arrays given to the constructor. *)
Record circuit : Type := mkCircuit {
  batteries : list ref;
  resistors : list ref;
  currentSources : list ref
}.

(** [this.elements]. *)
Definition elements (c : circuit) : list ref :=
  batteries c ++ resistors c ++ currentSources c.

(** [x === 0] on numbers. *)
Definition isZero (x : Q) : bool := Qeq_bool x 0.

(** ** Variables, terms and equations *)

Inductive Unknown : Type :=
| UnknownCurrent (element : ref)
| UnknownVoltage (node : nat).

(** [equals]: same class and same element, respectively same node. *)
Definition unknownEquals (this other : Unknown) : bool :=
  match this, other with
  | UnknownCurrent e, UnknownCurrent e' => (e' =? e)%nat
  | UnknownVoltage n, UnknownVoltage n' => (n' =? n)%nat
  | _, _ => false
  end.

Record Term : Type := mkTerm {
  coefficient : Q;
  variable : Unknown
}.

Record Equation : Type := mkEquation {
  eqValue : Q;
  terms : list Term
}.

(** [getIndexByEquals( array, element )], with [None] for [-1]. *)
Fixpoint getIndexByEquals (array : list Unknown) (element : Unknown)
  : option nat :=
  match array with
  | [] => None
  | u :: rest =>
      if unknownEquals u element then Some O
      else option_map S (getIndexByEquals rest element)
  end.

(** ** The node set *)

(** [this.nodeSet[ id ] = id] on an object whose keys are vertex indices:
    such keys are enumerated in ascending order, whatever the order of the
    assignments, so the object is kept as a strictly ascending list. *)
Fixpoint insertNode (n : nat) (l : list nat) : list nat :=
  match l with
  | [] => [n]
  | x :: rest =>
      if (n <? x)%nat then n :: l
      else if (n =? x)%nat then l
      else x :: insertNode n rest
  end.

(** [_.uniq]: the first occurrence of each value is kept. *)
Fixpoint uniqFrom (seen : list nat) (l : list nat) : list nat :=
  match l with
  | [] => []
  | x :: rest =>
      if existsb (Nat.eqb x) seen then uniqFrom seen rest
      else x :: uniqFrom (x :: seen) rest
  end.

Definition uniq (l : list nat) : list nat := uniqFrom [] l.

(** [arrayRemove( array, item )]: the first occurrence is spliced out. *)
Fixpoint arrayRemove (array : list nat) (item : nat) : list nat :=
  match array with
  | [] => []
  | x :: rest => if (x =? item)%nat then rest else x :: arrayRemove rest item
  end.

(** The budget of the search of [getConnectedNodeIds]:
    [1 + d + ... + d^(n-1)]. *)
Fixpoint geometric (d n : nat) : nat :=
  match n with
  | O => O
  | S k => S (d * geometric d k)
  end.

(** [side]: the property name ['nodeId0'] or ['nodeId1']. *)
Inductive Side : Type := SideNodeId0 | SideNodeId1.

Definition sideOf (side : Side) (e : MNAElement) : nat :=
  match side with
  | SideNodeId0 => nodeId0 e
  | SideNodeId1 => nodeId1 e
  end.

(** The sign that [getEquations] passes to [getCurrentTerms] with a side:
    [-1] with ['nodeId1'], [+1] with ['nodeId0']. *)
Definition signOf (side : Side) : Q :=
  match side with
  | SideNodeId0 => 1
  | SideNodeId1 => -1
  end.

Section Circuit.

Variable h : store.
Variable c : circuit.

(** [this.nodeSet], filled by the loop of the constructor. *)
Definition nodeSet : list nat :=
  fold_left
    (fun s r => insertNode (nodeId1 (h r)) (insertNode (nodeId0 (h r)) s))
    (elements c) [].

(** [this.nodeCount = _.size( this.nodeSet )]. *)
Definition nodeCount : nat := length nodeSet.

(** [this.nodes = _.values( this.nodeSet )]. *)
Definition nodes : list nat := nodeSet.

(** [getCurrentCount()]. *)
Definition getCurrentCount : nat :=
  let numberOfResistanceFreeResistors :=
    fold_left
      (fun k r => if isZero (value (h r)) then S k else k)
      (resistors c) O in
  (length (batteries c) + numberOfResistanceFreeResistors)%nat.

(** [getNumVars()]. *)
Definition getNumVars : nat := (nodeCount + getCurrentCount)%nat.

(** [getCurrentSourceTotal( nodeIndex )]. *)
Definition getCurrentSourceTotal (nodeIndex : nat) : Q :=
  fold_left
    (fun currentSourceTotal r =>
       let currentSource := h r in
       let t1 :=
         if (nodeId1 currentSource =? nodeIndex)%nat
         then currentSourceTotal - value currentSource
         else currentSourceTotal in
       if (nodeId0 currentSource =? nodeIndex)%nat
       then t1 + value currentSource
       else t1)
    (currentSources c) 0.

(** The terms one battery pushes in [getCurrentTerms]. *)
Definition batteryTerms (node : nat) (side : Side) (sign : Q) (r : ref)
  : list Term :=
  if (sideOf side (h r) =? node)%nat
  then [mkTerm sign (UnknownCurrent r)]
  else [].

(** The terms one resistor pushes in [getCurrentTerms]. *)
Definition resistorTerms (node : nat) (side : Side) (sign : Q) (r : ref)
  : list Term :=
  let resistor := h r in
  if (sideOf side resistor =? node)%nat then
    if isZero (value resistor) then
      [mkTerm sign (UnknownCurrent r)]
    else
      [mkTerm (- sign / value resistor) (UnknownVoltage (nodeId1 resistor));
       mkTerm (sign / value resistor) (UnknownVoltage (nodeId0 resistor))]
  else [].

(** [getCurrentTerms( node, side, sign, nodeTerms )]: the terms are pushed
    on [nodeTerms], batteries first. *)
Definition getCurrentTerms (node : nat) (side : Side) (sign : Q)
           (nodeTerms : list Term) : list Term :=
  nodeTerms
    ++ flat_map (batteryTerms node side sign) (batteries c)
    ++ flat_map (resistorTerms node side sign) (resistors c).

(** The nodes one pass of the inner [for] of [getConnectedNodeIds] pushes on
    [toVisit]; [visited] already holds [nodeToVisit]. *)
Definition oppositeNodes (nodeToVisit : nat) (visited : list nat)
  : list nat :=
  flat_map
    (fun r =>
       let element := h r in
       if containsNodeId element nodeToVisit then
         let oppositeNode := getOppositeNode element nodeToVisit in
         if existsb (Nat.eqb oppositeNode) visited then []
         else [oppositeNode]
       else [])
    (elements c).

(** The [while ( toVisit.length > 0 )] of [getConnectedNodeIds]; [None]
    when the budget [fuel] of iterations is used up. *)
Fixpoint connectedLoop (fuel : nat) (visited toVisit : list nat)
  : option (list nat) :=
  match toVisit with
  | [] => Some visited
  | nodeToVisit :: rest =>
      match fuel with
      | O => None
      | S fuel' =>
          let visited' := visited ++ [nodeToVisit] in
          connectedLoop fuel' visited'
                        (rest ++ oppositeNodes nodeToVisit visited')
      end
  end.

(** [getConnectedNodeIds( node )]. *)
Definition getConnectedNodeIds (node : nat) : option (list nat) :=
  option_map uniq
    (connectedLoop (geometric (length (elements c)) (length nodes))
                   [] [node]).

(** The [while ( toVisit.length > 0 )] of [getReferenceNodeIds]. *)
Fixpoint referenceLoop (fuel : nat) (toVisit referenceNodeIds : list nat)
  : option (list nat) :=
  match toVisit with
  | [] => Some referenceNodeIds
  | referenceNodeId :: _ =>
      match fuel with
      | O => None
      | S fuel' =>
          match getConnectedNodeIds referenceNodeId with
          | None => None
          | Some connectedNodeIds =>
              referenceLoop fuel'
                            (fold_left arrayRemove connectedNodeIds toVisit)
                            (referenceNodeIds ++ [referenceNodeId])
          end
      end
  end.

(** [getReferenceNodeIds()]. *)
Definition getReferenceNodeIds : option (list nat) :=
  referenceLoop (length nodes) nodes [].

(** Two nodes are adjacent when an element joins them. *)
Definition adjacent (a b : nat) : Prop :=
  exists r,
    In r (elements c) /\
    ((nodeId0 (h r) = a /\ nodeId1 (h r) = b) \/
     (nodeId0 (h r) = b /\ nodeId1 (h r) = a)).

(** Two nodes are connected when a path of elements leads from one to the
    other; the classes of this relation are the connected components. *)
Definition connected : nat -> nat -> Prop := clos_refl_trans nat adjacent.

(** The nodes that are not visited yet. *)
Definition unvisited (visited : list nat) : nat :=
  length (filter (fun n => negb (existsb (Nat.eqb n) visited)) nodes).

(** What an entry of [toVisit] can still cost: a node that is visited
    already pushes at most one neighbour per element, each of which is paid
    as a node that is not visited. *)
Definition weight (visited : list nat) (q : nat) : nat :=
  if existsb (Nat.eqb q) visited
  then geometric (length (elements c)) (S (unvisited visited))
  else geometric (length (elements c)) (unvisited visited).

Definition potential (visited toVisit : list nat) : nat :=
  list_sum (map (weight visited) toVisit).

(** The equation of a reference node, [1 * V = 0]. *)
Definition referenceEquation (referenceNodeId : nat) : Equation :=
  mkEquation 0 [mkTerm 1 (UnknownVoltage referenceNodeId)].

(** The conservation of charge at a node. *)
Definition nodeEquation (node : nat) : Equation :=
  let currentTerms := getCurrentTerms node SideNodeId1 (-1) [] in
  let currentTerms := getCurrentTerms node SideNodeId0 1 currentTerms in
  mkEquation (getCurrentSourceTotal node) currentTerms.

(** The voltage drop of a battery. *)
Definition batteryEquation (r : ref) : Equation :=
  let battery := h r in
  mkEquation (value battery)
             [mkTerm (-1) (UnknownVoltage (nodeId0 battery));
              mkTerm 1 (UnknownVoltage (nodeId1 battery))].

(** The equal voltages at the ends of a resistor without resistance. *)
Definition shortEquations (r : ref) : list Equation :=
  let resistor := h r in
  if isZero (value resistor) then
    [mkEquation 0
                [mkTerm 1 (UnknownVoltage (nodeId0 resistor));
                 mkTerm (-1) (UnknownVoltage (nodeId1 resistor))]]
  else [].

(** [getEquations()]. *)
Definition getEquations : option (list Equation) :=
  match getReferenceNodeIds with
  | None => None
  | Some referenceNodeIds =>
      Some (map referenceEquation referenceNodeIds
              ++ map nodeEquation nodes
              ++ map batteryEquation (batteries c)
              ++ flat_map shortEquations (resistors c))
  end.

(** The elements of the unknown currents: every battery, then every
    resistor without resistance. *)
Definition unknownCurrentElements : list ref :=
  batteries c
    ++ flat_map (fun r => if isZero (value (h r)) then [r] else [])
                (resistors c).

(** [getUnknownCurrents()]. *)
Definition getUnknownCurrents : list Unknown :=
  map UnknownCurrent unknownCurrentElements.

(** [this.nodes.map( node => new UnknownVoltage( node ) )]. *)
Definition getUnknownVoltages : list Unknown := map UnknownVoltage nodes.

(** [unknowns] of [solve]. *)
Definition getUnknowns : list Unknown :=
  getUnknownCurrents ++ getUnknownVoltages.

(** ** The linear system *)

(** [Matrix] of the dot library, as the list of its rows; a matrix of one
    column, as [z] and [x], is the list of its entries.
    [new Matrix( m, n )] is filled with zeroes. *)
Definition Matrix : Type := list (list Q).

Definition newMatrix (m n : nat) : Matrix := repeat (repeat 0 n) m.

Fixpoint listSet {A : Type} (l : list A) (i : nat) (v : A) : list A :=
  match l, i with
  | [], _ => []
  | _ :: rest, O => v :: rest
  | x :: rest, S k => x :: listSet rest k v
  end.

Definition matrixGet (a : Matrix) (i j : nat) : Q := nth j (nth i a []) 0.

Definition matrixSet (a : Matrix) (i j : nat) (v : Q) : Matrix :=
  listSet a i (listSet (nth i a []) j v).

(** [x.get( index, 0 )], [undefined] outside of the matrix. *)
Definition columnGet (x : list Q) (index : option nat) : option Q :=
  match index with
  | Some i => nth_error x i
  | None => None
  end.

(** [Equation.stamp( row, a, z, getColumn )]. *)
Definition stamp (equation : Equation) (row : nat) (a : Matrix) (z : list Q)
           (getColumn : Unknown -> option nat) : Matrix * list Q :=
  let z := listSet z row (eqValue equation) in
  let a :=
    fold_left
      (fun a term =>
         match getColumn (variable term) with
         | Some column =>
             matrixSet a row column (coefficient term + matrixGet a row column)
         | None => a
         end)
      (terms equation) a in
  (a, z).

(** The loop [for i: equations[ i ].stamp( i, A, z, getIndex )], from row
    [i] on. *)
Fixpoint stampFrom (i : nat) (equations : list Equation) (a : Matrix)
         (z : list Q) (getColumn : Unknown -> option nat) : Matrix * list Q :=
  match equations with
  | [] => (a, z)
  | equation :: rest =>
      let '(a, z) := stamp equation i a z getColumn in
      stampFrom (S i) rest a z getColumn
  end.

(** [A] and [z] as they are handed to the QR decomposition. *)
Definition linearSystem : option (Matrix * list Q) :=
  match getEquations with
  | None => None
  | Some equations =>
      let A := newMatrix (length equations) getNumVars in
      let z := repeat 0 (length equations) in
      Some (stampFrom O equations A z (getIndexByEquals getUnknowns))
  end.

(** [ModifiedNodalAnalysisSolution( voltageMap, elements )]: the voltage map
    in the order of its keys, and the elements of the unknown currents. *)
Record Solution : Type := mkSolution {
  nodeVoltages : list (nat * option Q);
  solutionElements : list ref
}.

(** [solve()].  [qrSolve A z] stands for
    [new QRDecomposition( A ).solve( z )] of the dot library, [None] when it
    throws; it is the only statement of the [try] block that can.  The
    result is the solution together with the heap after the assignments to
    [currentSolution]. *)
Definition solve (qrSolve : Matrix -> list Q -> option (list Q))
  : option (Solution * store) :=
  match linearSystem with
  | None => None
  | Some (A, z) =>
      let unknowns := getUnknowns in
      let x :=
        match qrSolve A z with
        | Some x => x
        | None => repeat 0 getNumVars
        end in
      let voltageMap :=
        map (fun node =>
               (node,
                columnGet x (getIndexByEquals unknowns (UnknownVoltage node))))
            nodes in
      let h' :=
        fold_left
          (fun h' r =>
             setCurrentSolution h' r
               (columnGet x (getIndexByEquals unknowns (UnknownCurrent r))))
          unknownCurrentElements h in
      Some (mkSolution voltageMap unknownCurrentElements, h')
  end.

End Circuit.

(** An equation of the shape [coefficient * V = value]: a single term, on a
    node voltage. *)
Definition isReferenceEquation (e : Equation) : bool :=
  match terms e with
  | [t] => match variable t with
           | UnknownVoltage _ => true
           | UnknownCurrent _ => false
           end
  | _ => false
  end.

Definition isVoltageTerm (t : Term) : bool :=
  match variable t with
  | UnknownVoltage _ => true
  | UnknownCurrent _ => false
  end.

Definition voltageTerms (ts : list Term) : nat :=
  length (filter isVoltageTerm ts).

(** ** Exact solutions of the equations *)

(** The left-hand side of an equation under an assignment of the unknowns. *)
Definition evalTerms (a : Unknown -> Q) (ts : list Term) : Q :=
  fold_right (fun t acc => coefficient t * a (variable t) + acc) 0 ts.

Definition satisfies (a : Unknown -> Q) (e : Equation) : Prop :=
  evalTerms a (terms e) == eqValue e.

(** The product of a matrix and a column. *)
Definition dot (row x : list Q) : Q :=
  fold_right Qplus 0 (map (fun p => fst p * snd p) (combine row x)).

Definition matrixTimes (a : Matrix) (x : list Q) : list Q :=
  map (fun row => dot row x) a.

(** The rows of the matrix have [n] entries. *)
Definition wellShaped (n : nat) (a : Matrix) : Prop :=
  forall k, (k < length a)%nat -> length (nth k a []) = n.

(** [x] solves [A x = z] exactly. *)
Definition solvesSystem (a : Matrix) (z x : list Q) : Prop :=
  Forall2 Qeq (matrixTimes a x) z.

(** The assignment of the unknowns that a column [x] stands for. *)
Definition assignment (unknowns : list Unknown) (x : list Q) (u : Unknown)
  : Q :=
  match getIndexByEquals unknowns u with
  | Some i => nth i x 0
  | None => 0
  end.

(** The heap in which the [value] of the elements [sources] is negated and
    everything else is as in [h]. *)
Definition negateValues (h : store) (sources : list ref) : store :=
  fun r =>
    {| nodeId0 := nodeId0 (h r);
       nodeId1 := nodeId1 (h r);
       value := if existsb (Nat.eqb r) sources
                then - value (h r) else value (h r);
       currentSolution := currentSolution (h r) |}.

(** The negation of an assignment of the unknowns. *)
Definition negated (a : Unknown -> Q) : Unknown -> Q := fun u => - a u.

(** The sum of [f] over a list. *)
Definition sumQ {A : Type} (f : A -> Q) (l : list A) : Q :=
  fold_right (fun x acc => f x + acc) 0 l.

(** [voltageMap[ node ]]: the value stored under the key, [undefined]
    (here [None]) when there is none. *)
Fixpoint lookupVoltage (voltageMap : list (nat * option Q)) (node : nat)
  : option Q :=
  match voltageMap with
  | [] => None
  | (key, v) :: rest =>
      if (key =? node)%nat then v else lookupVoltage rest node
  end.

(** The value, under an assignment of the unknowns, of the terms a resistor
    adds to the equation of the node on one of its sides. *)
Definition resistorFlow (h : store) (a : Unknown -> Q) (sign : Q) (r : ref)
  : Q :=
  if isZero (value (h r)) then sign * a (UnknownCurrent r)
  else - sign / value (h r) * a (UnknownVoltage (nodeId1 (h r)))
       + sign / value (h r) * a (UnknownVoltage (nodeId0 (h r))).

(** ** Circuits of the tests *)

(** A heap from a list of elements; unused references hold an element
    between nodes 0 and 0. *)
Definition heapOf (l : list MNAElement) : store :=
  fun r => nth r l (mkMNAElement 0 0 0 None).

(** A battery of 4 V from node 0 to node 1 and a resistor of 4 Ohm back. *)
Definition batteryResistorHeap : store :=
  heapOf [mkMNAElement 0 1 4 None; mkMNAElement 1 0 4 None].

Definition batteryResistor : circuit := mkCircuit [0%nat] [1%nat] [].

(** The same with an unconnected resistor of 100 Ohm between nodes 2 and 3. *)
Definition islandHeap : store :=
  heapOf [mkMNAElement 0 1 4 None; mkMNAElement 1 0 4 None;
          mkMNAElement 2 3 100 None].

Definition island : circuit := mkCircuit [0%nat] [1%nat; 2%nat] [].

(** Two batteries of -4 V in series, 0 to 1 and 1 to 2, and a resistor of
    2 Ohm from 2 to 0. *)
Definition seriesHeap : store :=
  heapOf [mkMNAElement 0 1 (-4) None; mkMNAElement 1 2 (-4) None;
          mkMNAElement 2 0 2 None].

Definition series : circuit := mkCircuit [0%nat; 1%nat] [2%nat] [].

(** A battery of 5 V, a resistor of 10 Ohm and a resistor without
    resistance. *)
Definition shortHeap : store :=
  heapOf [mkMNAElement 0 1 5 None; mkMNAElement 1 2 10 None;
          mkMNAElement 2 0 0 None].

Definition short : circuit := mkCircuit [0%nat] [1%nat; 2%nat] [].

(** A decomposition that always throws, and one that knows the solution of
    [batteryResistor]: a current of 1 A, 0 V at node 0 and 4 V at node 1. *)
Definition qrThrows (A : Matrix) (z : list Q) : option (list Q) := None.

Definition qrBatteryResistor (A : Matrix) (z : list Q) : option (list Q) :=
  Some [1; 0; 4].

(** A decomposition that knows the solution of a battery and a resistor of
    4 Ohm, whatever the voltage of the battery, which is the last entry of
    [z]: the voltage over 4 Ohm as the current, 0 V at node 0 and the voltage
    of the battery at node 1. *)
Definition qrOfBattery (A : Matrix) (z : list Q) : option (list Q) :=
  Some [nth 3 z 0 / 4; 0; nth 3 z 0].

(** Everything [solve] reads of the heap, in one tuple: none of it is the
    field [currentSolution]. *)
Definition solveInputs (c : circuit) (h : store) :=
  (linearSystem h c, getUnknowns h c, getNumVars h c, nodes h c,
   unknownCurrentElements h c).

(** The elements with only the fields [nodeId0], [nodeId1] and [value]:
    [currentSolution] is back to its initial [null]. *)
Definition inputFields (h : store) : store :=
  fun r => mkMNAElement (nodeId0 (h r)) (nodeId1 (h r)) (value (h r)) None.

(** ** Facts about the node set *)

Lemma insertNode_In (n x : nat) (l : list nat) :
  In x (insertNode n l) <-> x = n \/ In x l.
Proof.
  induction l as [|y l IH]; simpl.
  - intuition.
  - destruct (n <? y)%nat; [simpl; intuition|].
    destruct (n =? y)%nat eqn:E.
    + apply Nat.eqb_eq in E. subst. simpl. intuition.
    + simpl. rewrite IH. intuition.
Qed.

Lemma insertNode_sorted (n : nat) (l : list nat) :
  StronglySorted lt l -> StronglySorted lt (insertNode n l).
Proof.
  induction 1 as [|y l Hs IH Hall]; simpl.
  - repeat constructor.
  - destruct (n <? y)%nat eqn:E1.
    + apply Nat.ltb_lt in E1. constructor.
      * constructor; assumption.
      * constructor; [exact E1|].
        eapply Forall_impl; [|exact Hall]. intros; lia.
    + destruct (n =? y)%nat eqn:E2.
      * constructor; assumption.
      * apply Nat.ltb_ge in E1. apply Nat.eqb_neq in E2.
        constructor; [exact IH|].
        apply Forall_forall. intros x Hx.
        apply insertNode_In in Hx. destruct Hx as [->|Hx]; [lia|].
        rewrite Forall_forall in Hall. auto.
Qed.

Lemma sorted_NoDup (l : list nat) : StronglySorted lt l -> NoDup l.
Proof.
  induction 1 as [|y l Hs IH Hall]; constructor; [|exact IH].
  intro Hin. rewrite Forall_forall in Hall. apply Hall in Hin. lia.
Qed.

Section NodeFacts.

Variable h : store.
Variable c : circuit.

Let addNodes := fun (s : list nat) (r : ref) =>
  insertNode (nodeId1 (h r)) (insertNode (nodeId0 (h r)) s).

Lemma addNodes_In (l : list ref) :
  forall (s : list nat) (n : nat),
    In n (fold_left addNodes l s) <->
    In n s \/ exists r, In r l /\ (nodeId0 (h r) = n \/ nodeId1 (h r) = n).
Proof.
  induction l as [|r l IH]; intros s n; cbn [fold_left In].
  - split; [auto|]. intros [H|(r & [] & _)]. exact H.
  - rewrite IH. unfold addNodes at 1. rewrite !insertNode_In.
    split.
    + intros [[->|[->|H]]|(r' & Hr' & H)]; eauto 6.
    + intros [H|(r' & [<-|Hr'] & [H|H])]; eauto 6.
Qed.

Lemma addNodes_sorted (l : list ref) :
  forall s, StronglySorted lt s -> StronglySorted lt (fold_left addNodes l s).
Proof.
  induction l as [|r l IH]; intros s Hs; cbn [fold_left]; [exact Hs|].
  apply IH. unfold addNodes. auto using insertNode_sorted.
Qed.

(** The nodes are the node ids the elements mention. *)
Lemma nodes_In (n : nat) :
  In n (nodes h c) <->
  exists r, In r (elements c) /\ (nodeId0 (h r) = n \/ nodeId1 (h r) = n).
Proof.
  unfold nodes, nodeSet. fold addNodes. rewrite addNodes_In.
  simpl. intuition.
Qed.

(** Each of them once. *)
Lemma nodes_NoDup : NoDup (nodes h c).
Proof.
  apply sorted_NoDup. unfold nodes, nodeSet. fold addNodes.
  apply addNodes_sorted. constructor.
Qed.

(** The count of [getCurrentCount] is the number of resistors of value 0. *)
Lemma count_resistance_free (l : list ref) :
  forall k,
    fold_left (fun k r => if isZero (value (h r)) then S k else k) l k
    = (k + length (filter (fun r => isZero (value (h r))) l))%nat.
Proof.
  induction l as [|r l IH]; intro k; simpl; [lia|].
  rewrite IH. destruct (isZero (value (h r))); simpl; lia.
Qed.

Lemma unknownCurrentElements_filter :
  unknownCurrentElements h c
  = batteries c ++ filter (fun r => isZero (value (h r))) (resistors c).
Proof.
  unfold unknownCurrentElements. f_equal.
  induction (resistors c) as [|r l IH]; simpl; [reflexivity|].
  rewrite IH. destruct (isZero (value (h r))); reflexivity.
Qed.

(** There are as many unknowns as [getNumVars] says, that is as the matrix
    has columns. *)
Lemma getUnknowns_length : length (getUnknowns h c) = getNumVars h c.
Proof.
  unfold getUnknowns, getUnknownCurrents, getUnknownVoltages, getNumVars,
    getCurrentCount, nodeCount.
  rewrite length_app, !length_map, unknownCurrentElements_filter, length_app.
  rewrite count_resistance_free. unfold nodes. lia.
Qed.

End NodeFacts.

Lemma isZero_true (x : Q) : isZero x = true <-> x == 0.
Proof. apply Qeq_bool_iff. Qed.

Lemma isZero_false (x : Q) : isZero x = false <-> ~ x == 0.
Proof.
  unfold isZero. split.
  - apply Qeq_bool_neq.
  - intro H. destruct (Qeq_bool x 0) eqn:E; [|reflexivity].
    apply Qeq_bool_iff in E. contradiction.
Qed.

(** ** Connected components *)

Lemma existsb_eqb_In (x : nat) (l : list nat) :
  existsb (Nat.eqb x) l = true <-> In x l.
Proof.
  rewrite existsb_exists. split.
  - intros (y & Hy & E). apply Nat.eqb_eq in E. subst. exact Hy.
  - intro H. exists x. split; [exact H|apply Nat.eqb_refl].
Qed.

Lemma existsb_eqb_not_In (x : nat) (l : list nat) :
  existsb (Nat.eqb x) l = false <-> ~ In x l.
Proof.
  rewrite <- existsb_eqb_In.
  destruct (existsb (Nat.eqb x) l); split; intro H; congruence.
Qed.

Lemma uniqFrom_In (l : list nat) :
  forall seen x, In x (uniqFrom seen l) <-> In x l /\ ~ In x seen.
Proof.
  induction l as [|y l IH]; intros seen x; simpl; [tauto|].
  destruct (existsb (Nat.eqb y) seen) eqn:E.
  - apply existsb_eqb_In in E. rewrite IH.
    split; [tauto|]. intros [[->|H] Hn]; tauto.
  - apply existsb_eqb_not_In in E. simpl. rewrite IH. simpl.
    destruct (Nat.eq_dec y x) as [->|Hne]; tauto.
Qed.

Lemma uniqFrom_NoDup (l : list nat) : forall seen, NoDup (uniqFrom seen l).
Proof.
  induction l as [|y l IH]; intro seen; simpl; [constructor|].
  destruct (existsb (Nat.eqb y) seen); [apply IH|].
  constructor; [|apply IH].
  rewrite uniqFrom_In. simpl. tauto.
Qed.

Lemma uniq_In (l : list nat) (x : nat) : In x (uniq l) <-> In x l.
Proof. unfold uniq. rewrite uniqFrom_In. simpl. tauto. Qed.

Lemma uniq_NoDup (l : list nat) : NoDup (uniq l).
Proof. apply uniqFrom_NoDup. Qed.

Lemma arrayRemove_In (array : list nat) (item x : nat) :
  NoDup array ->
  (In x (arrayRemove array item) <-> In x array /\ x <> item).
Proof.
  induction 1 as [|y l Hy Hl IH]; simpl; [tauto|].
  destruct (y =? item)%nat eqn:E.
  - apply Nat.eqb_eq in E. subst y.
    split; [|intuition congruence].
    intro H. split; [tauto|]. intros ->. contradiction.
  - apply Nat.eqb_neq in E. simpl. rewrite IH.
    split; [|intuition congruence]. intros [->|H]; tauto.
Qed.

Lemma arrayRemove_NoDup (array : list nat) (item : nat) :
  NoDup array -> NoDup (arrayRemove array item).
Proof.
  induction 1 as [|y l Hy Hl IH]; simpl; [constructor|].
  destruct (y =? item)%nat; [exact Hl|].
  constructor; [|exact IH].
  rewrite arrayRemove_In by exact Hl. tauto.
Qed.

Lemma arrayRemove_all (items : list nat) :
  forall array,
    NoDup array ->
    NoDup (fold_left arrayRemove items array) /\
    forall x,
      In x (fold_left arrayRemove items array) <-> In x array /\ ~ In x items.
Proof.
  induction items as [|i items IH]; intros array Hnd; simpl.
  - split; [exact Hnd|]. tauto.
  - destruct (IH (arrayRemove array i) (arrayRemove_NoDup _ _ Hnd)) as [H1 H2].
    split; [exact H1|]. intro x. rewrite H2, arrayRemove_In by exact Hnd.
    simpl. intuition congruence.
Qed.

Lemma geometric_succ (d n : nat) :
  (geometric d n <= geometric d (S n))%nat.
Proof.
  induction n as [|n IH]; [simpl; lia|].
  change (geometric d (S (S n))) with (S (d * geometric d (S n))).
  change (geometric d (S n)) with (S (d * geometric d n)) at 1.
  apply le_n_S, Nat.mul_le_mono_l, IH.
Qed.

Lemma geometric_mono (d a b : nat) :
  (a <= b)%nat -> (geometric d a <= geometric d b)%nat.
Proof.
  induction 1 as [|b Hle IH]; [lia|].
  pose proof (geometric_succ d b). lia.
Qed.

Lemma filter_length_le (p q : nat -> bool) (l : list nat) :
  (forall x, q x = true -> p x = true) ->
  (length (filter q l) <= length (filter p l))%nat.
Proof.
  intro H. induction l as [|y l IH]; simpl; [lia|].
  destruct (q y) eqn:E.
  - rewrite (H _ E). simpl. lia.
  - destruct (p y); simpl; lia.
Qed.

Lemma filter_length_lt (p q : nat -> bool) (l : list nat) (n : nat) :
  (forall x, q x = true -> p x = true) ->
  In n l -> p n = true -> q n = false ->
  (length (filter q l) < length (filter p l))%nat.
Proof.
  intros H Hin Hp Hq. induction l as [|y l IH]; simpl; [contradiction|].
  destruct Hin as [->|Hin].
  - rewrite Hp, Hq. simpl.
    pose proof (filter_length_le p q l H). lia.
  - specialize (IH Hin). destruct (q y) eqn:E.
    + rewrite (H _ E). simpl. lia.
    + destruct (p y); simpl; lia.
Qed.

Section Components.

Variable h : store.
Variable c : circuit.

Lemma adjacent_sym (a b : nat) : adjacent h c a b -> adjacent h c b a.
Proof. intros (r & Hr & H). exists r. tauto. Qed.

Lemma connected_sym (a b : nat) : connected h c a b -> connected h c b a.
Proof.
  induction 1 as [a b H| |a b d _ IH1 _ IH2].
  - apply rt_step, adjacent_sym, H.
  - apply rt_refl.
  - eapply rt_trans; eassumption.
Qed.

Lemma adjacent_nodes (a b : nat) : adjacent h c a b -> In b (nodes h c).
Proof.
  intros (r & Hr & H). apply nodes_In. exists r. tauto.
Qed.

Lemma connected_nodes (a b : nat) :
  connected h c a b -> In a (nodes h c) -> In b (nodes h c).
Proof.
  induction 1 as [a b H| |a b d _ IH1 _ IH2]; auto.
  intros _. eapply adjacent_nodes, H.
Qed.

(** What one pass over the elements pushes: the neighbours of the node that
    are not visited yet. *)
Lemma oppositeNodes_In (n w : nat) (visited : list nat) :
  In w (oppositeNodes h c n visited) <-> adjacent h c n w /\ ~ In w visited.
Proof.
  unfold oppositeNodes, adjacent. rewrite in_flat_map. split.
  - intros (r & Hr & Hw). unfold containsNodeId, getOppositeNode in Hw.
    destruct (nodeId0 (h r) =? n)%nat eqn:E0; simpl in Hw.
    + apply Nat.eqb_eq in E0.
      destruct (existsb (Nat.eqb (nodeId1 (h r))) visited) eqn:Ev;
        [contradiction|].
      destruct Hw as [<-|[]]. apply existsb_eqb_not_In in Ev.
      split; [|exact Ev]. exists r. tauto.
    + destruct (nodeId1 (h r) =? n)%nat eqn:E1; [|contradiction].
      apply Nat.eqb_eq in E1.
      destruct (existsb (Nat.eqb (nodeId0 (h r))) visited) eqn:Ev;
        [contradiction|].
      destruct Hw as [<-|[]]. apply existsb_eqb_not_In in Ev.
      split; [|exact Ev]. exists r. tauto.
  - intros [(r & Hr & H) Hv]. exists r. split; [exact Hr|].
    apply existsb_eqb_not_In in Hv.
    unfold containsNodeId, getOppositeNode.
    destruct H as [[H0 H1]|[H0 H1]].
    + rewrite H0, Nat.eqb_refl. simpl. rewrite H1, Hv. left. reflexivity.
    + destruct (nodeId0 (h r) =? n)%nat eqn:E; simpl.
      * apply Nat.eqb_eq in E.
        assert (Hw : nodeId1 (h r) = w) by congruence.
        rewrite Hw, Hv. left. reflexivity.
      * rewrite H1, Nat.eqb_refl, H0, Hv. left. reflexivity.
Qed.

Lemma oppositeNodes_length (n : nat) (visited : list nat) :
  (length (oppositeNodes h c n visited) <= length (elements c))%nat.
Proof.
  unfold oppositeNodes. induction (elements c) as [|r l IH]; simpl; [lia|].
  rewrite length_app.
  destruct (containsNodeId (h r) n); simpl; [|lia].
  destruct (existsb _ visited); simpl; lia.
Qed.

(** The search returns the component of its start node: its invariant is
    that everything seen is connected h c to the start, and that the neighbours
    of a visited node are visited or waiting. *)
Lemma connectedLoop_spec (start : nat) (fuel : nat) :
  forall (visited toVisit result : list nat),
    connectedLoop h c fuel visited toVisit = Some result ->
    (forall x, In x visited \/ In x toVisit -> connected h c start x) ->
    (forall v w, In v visited -> adjacent h c v w ->
                 In w visited \/ In w toVisit) ->
    In start visited \/ In start toVisit ->
    forall x, In x result <-> connected h c start x.
Proof.
  induction fuel as [|fuel IH]; intros visited toVisit result Hrun H1 H3 H2.
  - destruct toVisit as [|n rest]; [|discriminate].
    injection Hrun as <-. intro x. split; [auto|].
    intro Hc. unfold connected in Hc. apply clos_rt_rtn1 in Hc.
    induction Hc as [|y z Hyz _ IHc].
    + destruct H2 as [H2|[]]. exact H2.
    + destruct (H3 y z IHc Hyz) as [H|[]]. exact H.
  - destruct toVisit as [|n rest].
    + injection Hrun as <-. intro x. split; [auto|].
      intro Hc. unfold connected in Hc. apply clos_rt_rtn1 in Hc.
      induction Hc as [|y z Hyz _ IHc].
      * destruct H2 as [H2|[]]. exact H2.
      * destruct (H3 y z IHc Hyz) as [H|[]]. exact H.
    + simpl in Hrun. apply (IH _ _ _ Hrun).
      * intros x [Hx|Hx].
        -- apply in_app_or in Hx. destruct Hx as [Hx|[<-|[]]].
           ++ auto.
           ++ apply H1. right. left. reflexivity.
        -- apply in_app_or in Hx. destruct Hx as [Hx|Hx].
           ++ apply H1. right. right. exact Hx.
           ++ apply oppositeNodes_In in Hx. destruct Hx as [Hx _].
              apply rt_trans with n.
              ** apply H1. right. left. reflexivity.
              ** apply rt_step, Hx.
      * intros v w Hv Hvw. rewrite !in_app_iff. simpl.
        apply in_app_or in Hv. destruct Hv as [Hv|[<-|[]]].
        -- destruct (H3 v w Hv Hvw) as [H|[H|H]]; auto.
        -- destruct (in_dec Nat.eq_dec w (visited ++ [n])) as [Hin|Hout].
           ++ apply in_app_or in Hin. simpl in Hin. tauto.
           ++ right. right. apply oppositeNodes_In. tauto.
      * rewrite !in_app_iff. simpl. destruct H2 as [H2|[H2|H2]]; auto.
Qed.

Lemma unvisited_le (visited : list nat) (n : nat) :
  (unvisited h c (visited ++ [n]) <= unvisited h c visited)%nat.
Proof.
  apply filter_length_le. intros x Hx.
  apply negb_true_iff in Hx. apply negb_true_iff.
  apply existsb_eqb_not_In in Hx. apply existsb_eqb_not_In.
  rewrite in_app_iff in Hx. tauto.
Qed.

Lemma unvisited_lt (visited : list nat) (n : nat) :
  In n (nodes h c) -> ~ In n visited ->
  (unvisited h c (visited ++ [n]) < unvisited h c visited)%nat.
Proof.
  intros Hn Hv. apply filter_length_lt with n.
  - intros x Hx.
    apply negb_true_iff in Hx. apply negb_true_iff.
    apply existsb_eqb_not_In in Hx. apply existsb_eqb_not_In.
    rewrite in_app_iff in Hx. tauto.
  - exact Hn.
  - apply negb_true_iff, existsb_eqb_not_In, Hv.
  - apply negb_false_iff, existsb_eqb_In, in_or_app. simpl. tauto.
Qed.

Lemma weight_le (visited : list nat) (n q : nat) :
  In n (nodes h c) ->
  (weight h c (visited ++ [n]) q <= weight h c visited q)%nat.
Proof.
  intro Hn. unfold weight.
  pose proof (unvisited_le visited n) as Hle.
  destruct (existsb (Nat.eqb q) visited) eqn:E.
  - apply existsb_eqb_In in E.
    assert (E' : existsb (Nat.eqb q) (visited ++ [n]) = true).
    { apply existsb_eqb_In, in_or_app. tauto. }
    rewrite E'. apply geometric_mono. lia.
  - apply existsb_eqb_not_In in E.
    destruct (existsb (Nat.eqb q) (visited ++ [n])) eqn:E'.
    + apply existsb_eqb_In, in_app_or in E'.
      destruct E' as [E'|[<-|[]]]; [contradiction|].
      apply geometric_mono. apply unvisited_lt; assumption.
    + apply geometric_mono. exact Hle.
Qed.

Lemma weight_pos (visited : list nat) (q : nat) :
  In q (nodes h c) -> (1 <= weight h c visited q)%nat.
Proof.
  intro Hq. unfold weight.
  destruct (existsb (Nat.eqb q) visited) eqn:E.
  - simpl. lia.
  - apply existsb_eqb_not_In in E.
    pose proof (unvisited_lt visited q Hq E).
    destruct (unvisited h c visited); [lia|]. simpl. lia.
Qed.

Lemma potential_le (visited toVisit : list nat) (n : nat) :
  In n (nodes h c) ->
  (potential h c (visited ++ [n]) toVisit <= potential h c visited toVisit)%nat.
Proof.
  intro Hn. unfold potential.
  induction toVisit as [|q l IH]; simpl; [lia|].
  pose proof (weight_le visited n q Hn). lia.
Qed.

Lemma potential_new (visited new : list nat) :
  (forall w, In w new -> ~ In w visited) ->
  potential h c visited new
  = (length new * geometric (length (elements c)) (unvisited h c visited))%nat.
Proof.
  unfold potential. induction new as [|w l IH]; intro H; simpl; [reflexivity|].
  rewrite IH by (intros; apply H; right; assumption).
  unfold weight at 1.
  assert (E : existsb (Nat.eqb w) visited = false).
  { apply existsb_eqb_not_In, H. left. reflexivity. }
  rewrite E. reflexivity.
Qed.

(** One iteration lowers the potential. *)
Lemma potential_step (visited rest : list nat) (n : nat) :
  In n (nodes h c) ->
  (potential h c (visited ++ [n])
             (rest ++ oppositeNodes h c n (visited ++ [n]))
   < potential h c visited (n :: rest))%nat.
Proof.
  intro Hn. unfold potential at 1. rewrite map_app, list_sum_app.
  fold (potential h c (visited ++ [n]) rest).
  fold (potential h c (visited ++ [n]) (oppositeNodes h c n (visited ++ [n]))).
  rewrite (potential_new (visited ++ [n])
                         (oppositeNodes h c n (visited ++ [n])))
    by (intros w Hw; apply oppositeNodes_In in Hw; tauto).
  pose proof (potential_le visited rest n Hn) as Hrest.
  pose proof (oppositeNodes_length n (visited ++ [n])) as Hlen.
  set (d := length (elements c)) in *.
  set (u' := unvisited h c (visited ++ [n])).
  assert (Hw : (S (d * geometric d u') <= weight h c visited n)%nat).
  { unfold weight. fold d.
    pose proof (unvisited_le visited n) as Hle. fold u' in Hle.
    destruct (existsb (Nat.eqb n) visited) eqn:E.
    - change (S (d * geometric d u')) with (geometric d (S u')).
      apply geometric_mono. lia.
    - apply existsb_eqb_not_In in E.
      pose proof (unvisited_lt visited n Hn E) as Hlt. fold u' in Hlt.
      change (S (d * geometric d u')) with (geometric d (S u')).
      apply geometric_mono. lia. }
  change (potential h c visited (n :: rest))
    with (weight h c visited n + potential h c visited rest)%nat.
  assert (Hm : (length (oppositeNodes h c n (visited ++ [n]))
                * geometric d u' <= d * geometric d u')%nat)
    by (apply Nat.mul_le_mono_r; exact Hlen).
  lia.
Qed.

(** The search returns when its budget covers the potential. *)
Lemma connectedLoop_enough_fuel (fuel : nat) :
  forall visited toVisit,
    (forall q, In q toVisit -> In q (nodes h c)) ->
    (potential h c visited toVisit <= fuel)%nat ->
    exists result, connectedLoop h c fuel visited toVisit = Some result.
Proof.
  induction fuel as [|fuel IH]; intros visited toVisit Hq Hp.
  - destruct toVisit as [|n rest]; [simpl; eauto|].
    exfalso. unfold potential in Hp. simpl in Hp.
    pose proof (weight_pos visited n (Hq n (or_introl eq_refl))). lia.
  - destruct toVisit as [|n rest]; [simpl; eauto|].
    simpl. apply IH.
    + intros q Hin. apply in_app_or in Hin. destruct Hin as [Hin|Hin].
      * apply Hq. right. exact Hin.
      * apply oppositeNodes_In in Hin. destruct Hin as [Hin _].
        eapply adjacent_nodes, Hin.
    + pose proof (potential_step visited rest n (Hq n (or_introl eq_refl))).
      lia.
Qed.

(** [getConnectedNodeIds] returns the component of a node of the circuit,
    each of its nodes once. *)
Lemma getConnectedNodeIds_spec (node : nat) :
  In node (nodes h c) ->
  exists connectedNodeIds,
    getConnectedNodeIds h c node = Some connectedNodeIds /\
    NoDup connectedNodeIds /\
    forall x, In x connectedNodeIds <-> connected h c node x.
Proof.
  intro Hn. unfold getConnectedNodeIds.
  destruct (connectedLoop_enough_fuel
              (geometric (length (elements c)) (length (nodes h c)))
              [] [node]) as [visited Hv].
  - intros q [<-|[]]. exact Hn.
  - unfold potential, weight, unvisited. simpl.
    rewrite Nat.add_0_r.
    apply geometric_mono.
    clear. induction (nodes h c); simpl; lia.
  - rewrite Hv. simpl. exists (uniq visited).
    split; [reflexivity|]. split; [apply uniq_NoDup|].
    intro x. rewrite uniq_In.
    apply (connectedLoop_spec node _ _ _ _ Hv).
    + intros y [[]|[<-|[]]]. apply rt_refl.
    + intros v w [].
    + right. left. reflexivity.
Qed.

End Components.

(** ** The reference nodes *)

Lemma voltageTerms_app (l1 l2 : list Term) :
  voltageTerms (l1 ++ l2) = (voltageTerms l1 + voltageTerms l2)%nat.
Proof. unfold voltageTerms. rewrite filter_app, length_app. reflexivity. Qed.

Lemma isReferenceEquation_one (e : Equation) :
  isReferenceEquation e = true -> voltageTerms (terms e) = 1%nat.
Proof.
  unfold isReferenceEquation, voltageTerms.
  destruct (terms e) as [|t [|t' l]]; try discriminate.
  simpl. unfold isVoltageTerm. destruct (variable t); [discriminate|].
  reflexivity.
Qed.

Section ReferenceNodes.

Variable h : store.
Variable c : circuit.

Lemma connected_trans (a b d : nat) :
  connected h c a b -> connected h c b d -> connected h c a d.
Proof. apply rt_trans. Qed.

Lemma connected_refl (a : nat) : connected h c a a.
Proof. apply rt_refl. Qed.

(** The loop of [getReferenceNodeIds] returns, and chooses one node in each
    component: what is left to visit is not connected to a chosen node, and
    every other node is. *)
Lemma referenceLoop_spec (fuel : nat) :
  forall toVisit refs,
    (length toVisit <= fuel)%nat ->
    NoDup toVisit ->
    (forall t, In t toVisit -> In t (nodes h c)) ->
    (forall n, In n (nodes h c) ->
               In n toVisit \/ exists r, In r refs /\ connected h c r n) ->
    (forall t r, In t toVisit -> In r refs -> ~ connected h c r t) ->
    NoDup refs ->
    (forall r, In r refs -> In r (nodes h c)) ->
    (forall r1 r2, In r1 refs -> In r2 refs -> connected h c r1 r2 ->
                   r1 = r2) ->
    exists result,
      referenceLoop h c fuel toVisit refs = Some result /\
      NoDup result /\
      (forall r, In r result -> In r (nodes h c)) /\
      (forall n, In n (nodes h c) ->
                 exists r, In r result /\ connected h c r n) /\
      (forall r1 r2, In r1 result -> In r2 result ->
                     connected h c r1 r2 -> r1 = r2).
Proof.
  induction fuel as [|fuel IH];
    intros toVisit refs Hlen Hnd Hsub Hcover Hsep Hnd' Hsub' Huniq.
  - destruct toVisit as [|t rest]; [|simpl in Hlen; lia].
    simpl. exists refs. repeat split; auto.
    intros n Hn. destruct (Hcover n Hn) as [[]|H]. exact H.
  - destruct toVisit as [|t rest].
    + simpl. exists refs. repeat split; auto.
      intros n Hn. destruct (Hcover n Hn) as [[]|H]. exact H.
    + assert (Ht : In t (nodes h c)) by (apply Hsub; left; reflexivity).
      destruct (getConnectedNodeIds_spec h c t Ht) as (conn & Hc & _ & Hconn).
      cbn [referenceLoop]. rewrite Hc.
      destruct (arrayRemove_all conn (t :: rest) Hnd) as [Hnd2 Hin2].
      assert (Htc : In t conn) by (apply Hconn, connected_refl).
      apply IH; clear IH.
      * assert (Hincl : incl (fold_left arrayRemove conn (t :: rest)) rest).
        { intros x Hx. apply Hin2 in Hx. destruct Hx as [[<-|Hx] Hn]; tauto. }
        pose proof (NoDup_incl_length Hnd2 Hincl). simpl in Hlen. lia.
      * exact Hnd2.
      * intros x Hx. apply Hin2 in Hx. apply Hsub. tauto.
      * intros n Hn.
        destruct (in_dec Nat.eq_dec n conn) as [Hnc|Hnc].
        -- right. exists t. split; [apply in_or_app; simpl; tauto|].
           apply Hconn, Hnc.
        -- destruct (Hcover n Hn) as [H|(r & Hr & H)].
           ++ left. apply Hin2. tauto.
           ++ right. exists r. split; [apply in_or_app; tauto|exact H].
      * intros x r Hx Hr Hrx. apply Hin2 in Hx. destruct Hx as [Hx Hxc].
        apply in_app_or in Hr. destruct Hr as [Hr|[<-|[]]].
        -- exact (Hsep x r Hx Hr Hrx).
        -- apply Hxc, Hconn, Hrx.
      * apply NoDup_app; [exact Hnd'|repeat constructor; intros []|].
        intros r Hr [E|[]]. subst r.
        apply (Hsep t t); [left; reflexivity|exact Hr|apply connected_refl].
      * intros r Hr. apply in_app_or in Hr. destruct Hr as [Hr|[<-|[]]]; auto.
      * intros r1 r2 H1 H2 H12.
        apply in_app_or in H1. apply in_app_or in H2.
        destruct H1 as [H1|[<-|[]]], H2 as [H2|[<-|[]]].
        -- auto.
        -- exfalso. apply (Hsep t r1); [left; reflexivity|exact H1|exact H12].
        -- exfalso. apply (Hsep t r2); [left; reflexivity|exact H2|].
           apply connected_sym, H12.
        -- reflexivity.
Qed.

(** [getReferenceNodeIds] returns one node of every component. *)
Lemma getReferenceNodeIds_spec :
  exists referenceNodeIds,
    getReferenceNodeIds h c = Some referenceNodeIds /\
    NoDup referenceNodeIds /\
    (forall r, In r referenceNodeIds -> In r (nodes h c)) /\
    (forall n, In n (nodes h c) ->
               exists r, In r referenceNodeIds /\ connected h c r n) /\
    (forall r1 r2, In r1 referenceNodeIds -> In r2 referenceNodeIds ->
                   connected h c r1 r2 -> r1 = r2).
Proof.
  unfold getReferenceNodeIds. apply referenceLoop_spec.
  - lia.
  - apply nodes_NoDup.
  - auto.
  - auto.
  - intros t r _ [].
  - constructor.
  - intros r [].
  - intros r1 r2 [].
Qed.

(** The equations of the nodes have an even number of voltage terms. *)
Lemma getCurrentTerms_voltageTerms (node : nat) (side : Side) (sign : Q)
      (nodeTerms : list Term) :
  Nat.even (voltageTerms (getCurrentTerms h c node side sign nodeTerms))
  = Nat.even (voltageTerms nodeTerms).
Proof.
  unfold getCurrentTerms. rewrite !voltageTerms_app.
  assert (Hb : voltageTerms
                 (flat_map (batteryTerms h node side sign) (batteries c))
               = 0%nat).
  { induction (batteries c) as [|r l IH]; [reflexivity|].
    cbn [flat_map]. rewrite voltageTerms_app, IH.
    unfold batteryTerms. destruct (_ =? node)%nat; reflexivity. }
  assert (Hr : Nat.even
                 (voltageTerms
                    (flat_map (resistorTerms h node side sign) (resistors c)))
               = true).
  { induction (resistors c) as [|r l IH]; [reflexivity|].
    cbn [flat_map]. rewrite voltageTerms_app, Nat.even_add, IH.
    unfold resistorTerms. destruct (_ =? node)%nat; [|reflexivity].
    destruct (isZero _); reflexivity. }
  rewrite Hb, Nat.add_0_l, Nat.even_add, Hr.
  destruct (Nat.even (voltageTerms nodeTerms)); reflexivity.
Qed.

Lemma nodeEquation_not_reference (node : nat) :
  isReferenceEquation (nodeEquation h c node) = false.
Proof.
  destruct (isReferenceEquation (nodeEquation h c node)) eqn:E; [|reflexivity].
  apply isReferenceEquation_one in E.
  assert (Hev : Nat.even (voltageTerms (terms (nodeEquation h c node))) = true).
  { unfold nodeEquation. cbn [terms].
    rewrite !getCurrentTerms_voltageTerms. reflexivity. }
  rewrite E in Hev. discriminate.
Qed.

Lemma filter_none {A : Type} (p : A -> bool) (l : list A) :
  (forall x, In x l -> p x = false) -> filter p l = [].
Proof.
  induction l as [|y l IH]; intro H; simpl; [reflexivity|].
  rewrite (H y) by (left; reflexivity). apply IH.
  intros; apply H; right; assumption.
Qed.

(** The only equations on a single node voltage are those of the reference
    nodes. *)
Lemma reference_equations_only (referenceNodeIds : list nat) :
  filter isReferenceEquation
         (map (referenceEquation) referenceNodeIds
            ++ map (nodeEquation h c) (nodes h c)
            ++ map (batteryEquation h) (batteries c)
            ++ flat_map (shortEquations h) (resistors c))
  = map referenceEquation referenceNodeIds.
Proof.
  rewrite !filter_app.
  rewrite (filter_none _ (map (nodeEquation h c) _)).
  2:{ intros e He. apply in_map_iff in He. destruct He as (n & <- & _).
      apply nodeEquation_not_reference. }
  rewrite (filter_none _ (map (batteryEquation h) _)).
  2:{ intros e He. apply in_map_iff in He. destruct He as (n & <- & _).
      reflexivity. }
  rewrite (filter_none _ (flat_map (shortEquations h) _)).
  2:{ intros e He. apply in_flat_map in He. destruct He as (r & _ & He).
      unfold shortEquations in He. destruct (isZero _); [|contradiction].
      destruct He as [<-|[]]. reflexivity. }
  rewrite !app_nil_r.
  induction referenceNodeIds as [|r l IH]; simpl; [reflexivity|].
  rewrite IH. reflexivity.
Qed.

End ReferenceNodes.

(** ** The claim on the reference equations *)



(** ** The claim on the unknowns *)

Lemma batteryTerms_In (h : store) (node : nat) (side : Side) (sign : Q)
      (r : ref) (t : Term) :
  In t (batteryTerms h node side sign r) <->
  sideOf side (h r) = node /\ t = mkTerm sign (UnknownCurrent r).
Proof.
  unfold batteryTerms. destruct (sideOf side (h r) =? node)%nat eqn:E.
  - apply Nat.eqb_eq in E. simpl. intuition.
  - apply Nat.eqb_neq in E. simpl. tauto.
Qed.

Lemma resistorTerms_In (h : store) (node : nat) (side : Side) (sign : Q)
      (r : ref) (t : Term) :
  In t (resistorTerms h node side sign r) <->
  sideOf side (h r) = node /\
  (value (h r) == 0 /\ t = mkTerm sign (UnknownCurrent r) \/
   ~ value (h r) == 0 /\
   (t = mkTerm (- sign / value (h r)) (UnknownVoltage (nodeId1 (h r))) \/
    t = mkTerm (sign / value (h r)) (UnknownVoltage (nodeId0 (h r))))).
Proof.
  unfold resistorTerms. cbv zeta.
  destruct (sideOf side (h r) =? node)%nat eqn:E.
  - apply Nat.eqb_eq in E. destruct (isZero (value (h r))) eqn:Hz.
    + apply isZero_true in Hz. simpl. intuition.
    + apply isZero_false in Hz. simpl. intuition.
  - apply Nat.eqb_neq in E. simpl. tauto.
Qed.

(** The terms of the equation of a node. *)
Lemma nodeEquation_terms (h : store) (c : circuit) (node : nat) :
  terms (nodeEquation h c node)
  = flat_map (batteryTerms h node SideNodeId1 (-1)) (batteries c)
      ++ flat_map (resistorTerms h node SideNodeId1 (-1)) (resistors c)
      ++ flat_map (batteryTerms h node SideNodeId0 1) (batteries c)
      ++ flat_map (resistorTerms h node SideNodeId0 1) (resistors c).
Proof.
  unfold nodeEquation, getCurrentTerms. cbn [terms app].
  rewrite <- !app_assoc. reflexivity.
Qed.

Lemma nodeEquation_terms_In (h : store) (c : circuit) (node : nat)
      (t : Term) :
  In t (terms (nodeEquation h c node)) <->
  (exists r side,
      In r (batteries c) /\ sideOf side (h r) = node /\
      t = mkTerm (signOf side) (UnknownCurrent r)) \/
  (exists r side,
      In r (resistors c) /\ sideOf side (h r) = node /\
      (value (h r) == 0 /\ t = mkTerm (signOf side) (UnknownCurrent r) \/
       ~ value (h r) == 0 /\
       (t = mkTerm (- signOf side / value (h r))
                   (UnknownVoltage (nodeId1 (h r))) \/
        t = mkTerm (signOf side / value (h r))
                   (UnknownVoltage (nodeId0 (h r)))))).
Proof.
  rewrite nodeEquation_terms, !in_app_iff, !in_flat_map. split.
  - intros [(r & Hr & H)|[(r & Hr & H)|[(r & Hr & H)|(r & Hr & H)]]].
    + apply batteryTerms_In in H. left. exists r, SideNodeId1. tauto.
    + apply resistorTerms_In in H. right. exists r, SideNodeId1. tauto.
    + apply batteryTerms_In in H. left. exists r, SideNodeId0. tauto.
    + apply resistorTerms_In in H. right. exists r, SideNodeId0. tauto.
  - intros [(r & side & Hr & Hn & H)|(r & side & Hr & Hn & H)].
    + destruct side.
      * right. right. left. exists r. split; [exact Hr|].
        apply batteryTerms_In. tauto.
      * left. exists r. split; [exact Hr|].
        apply batteryTerms_In. tauto.
    + destruct side.
      * right. right. right. exists r. split; [exact Hr|].
        apply resistorTerms_In. tauto.
      * right. left. exists r. split; [exact Hr|].
        apply resistorTerms_In. tauto.
Qed.

(** C5. The unknowns are one current per battery, one current per resistor
    whose value is exactly 0 and one voltage per node, the nodes being the
    distinct node ids of the elements; [getCurrentCount] counts the first
    two groups.  [getEquations] holds one equation per node, and the terms
    of the equation of a node are, for each battery with a side at the
    node, its unknown current with the sign of the side, and for each
    resistor with a side at the node, its unknown current with that sign
    when its value is 0, and otherwise the two conductance terms [-sign/R]
    and [sign/R] on the voltages of its nodes.  So the unknown current of
    a resistor (that is not also given as a battery) occurs in a node
    equation if and only if its value is 0. *)
Theorem unknowns_and_resistor_terms (h : store) (c : circuit) :
  getUnknowns h c
  = map UnknownCurrent (batteries c)
      ++ map UnknownCurrent
           (filter (fun r => isZero (value (h r))) (resistors c))
      ++ map UnknownVoltage (nodes h c) /\
  NoDup (nodes h c) /\
  (forall n,
      In n (nodes h c) <->
      exists r,
        In r (elements c) /\ (nodeId0 (h r) = n \/ nodeId1 (h r) = n)) /\
  getCurrentCount h c
  = (length (batteries c)
     + length (filter (fun r => isZero (value (h r))) (resistors c)))%nat /\
  (exists referenceNodeIds,
      getEquations h c
      = Some (map referenceEquation referenceNodeIds
                ++ map (nodeEquation h c) (nodes h c)
                ++ map (batteryEquation h) (batteries c)
                ++ flat_map (shortEquations h) (resistors c))) /\
  (forall node t,
      In t (terms (nodeEquation h c node)) <->
      (exists r side,
          In r (batteries c) /\ sideOf side (h r) = node /\
          t = mkTerm (signOf side) (UnknownCurrent r)) \/
      (exists r side,
          In r (resistors c) /\ sideOf side (h r) = node /\
          (value (h r) == 0 /\
           t = mkTerm (signOf side) (UnknownCurrent r) \/
           ~ value (h r) == 0 /\
           (t = mkTerm (- signOf side / value (h r))
                       (UnknownVoltage (nodeId1 (h r))) \/
            t = mkTerm (signOf side / value (h r))
                       (UnknownVoltage (nodeId0 (h r))))))) /\
  (forall r,
      In r (resistors c) -> ~ In r (batteries c) ->
      ((exists node sign,
           In node (nodes h c) /\
           In (mkTerm sign (UnknownCurrent r))
              (terms (nodeEquation h c node))) <->
       value (h r) == 0)).
Proof.
  split; [|split; [|split; [|split; [|split; [|split]]]]].
  - unfold getUnknowns, getUnknownCurrents, getUnknownVoltages.
    rewrite unknownCurrentElements_filter, map_app, <- app_assoc.
    reflexivity.
  - apply nodes_NoDup.
  - apply nodes_In.
  - unfold getCurrentCount. rewrite count_resistance_free. reflexivity.
  - destruct (getReferenceNodeIds_spec h c) as (refs & Hrefs & _).
    exists refs. unfold getEquations. rewrite Hrefs. reflexivity.
  - apply nodeEquation_terms_In.
  - intros r Hr Hnb. split.
    + intros (node & sign & _ & Hin). apply nodeEquation_terms_In in Hin.
      destruct Hin as [(r' & side & Hr' & _ & E)
                      |(r' & side & Hr' & _ & [[Hz E]|[_ [E|E]]])].
      * injection E as _ <-. contradiction.
      * injection E as _ <-. exact Hz.
      * discriminate.
      * discriminate.
    + intro Hz. exists (nodeId0 (h r)), 1. split.
      * apply nodes_In. exists r. split; [|tauto].
        unfold elements. rewrite !in_app_iff. tauto.
      * apply nodeEquation_terms_In. right. exists r, SideNodeId0.
        split; [exact Hr|]. split; [reflexivity|]. left.
        split; [exact Hz|reflexivity].
Qed.

Lemma unknowns_and_resistor_terms_witness :
  getUnknowns shortHeap short
  = [UnknownCurrent 0%nat; UnknownCurrent 2%nat;
     UnknownVoltage 0; UnknownVoltage 1; UnknownVoltage 2] /\
  In (mkTerm 1 (UnknownCurrent 2%nat))
     (terms (nodeEquation shortHeap short 2)) /\
  In (mkTerm (1 / 10) (UnknownVoltage 1))
     (terms (nodeEquation shortHeap short 1)) /\
  ((exists node sign,
       In node (nodes shortHeap short) /\
       In (mkTerm sign (UnknownCurrent 1%nat))
          (terms (nodeEquation shortHeap short node))) <->
   value (shortHeap 1%nat) == 0).
Proof.
  destruct (unknowns_and_resistor_terms shortHeap short)
    as (Hu & _ & _ & _ & _ & Ht & Hiff).
  split; [rewrite Hu; reflexivity|].
  split; [|split].
  - apply Ht. right. exists 2%nat, SideNodeId0.
    split; [simpl; tauto|]. split; [reflexivity|]. left.
    split; reflexivity.
  - apply Ht. right. exists 1%nat, SideNodeId0.
    split; [simpl; tauto|]. split; [reflexivity|]. right.
    split; [discriminate|]. right. reflexivity.
  - apply Hiff; [simpl; tauto|]. simpl. intros [H|[]]. discriminate.
Defined.

(** ** Facts about [solve] *)

Lemma unknownEquals_refl (u : Unknown) : unknownEquals u u = true.
Proof. destruct u; simpl; apply Nat.eqb_refl. Qed.

(** An unknown of the list has an index, inside of the list. *)
Lemma getIndexByEquals_In (array : list Unknown) (u : Unknown) :
  In u array ->
  exists i, getIndexByEquals array u = Some i /\ (i < length array)%nat.
Proof.
  induction array as [|v l IH]; intros Hin; [contradiction|].
  simpl. destruct (unknownEquals v u) eqn:E.
  - exists O. split; [reflexivity|lia].
  - destruct Hin as [->|Hin].
    + rewrite unknownEquals_refl in E. discriminate.
    + destruct (IH Hin) as (i & Hi & Hlt). rewrite Hi.
      exists (S i). split; [reflexivity|lia].
Qed.

(** The heap after the loop of assignments to [currentSolution], when the
    value written to an element depends on the element only. *)
Lemma currentSolution_written (f : ref -> option Q) (l : list ref) :
  forall (h : store) (r : ref),
    nodeId0 (fold_left (fun h' r => setCurrentSolution h' r (f r)) l h r)
    = nodeId0 (h r) /\
    nodeId1 (fold_left (fun h' r => setCurrentSolution h' r (f r)) l h r)
    = nodeId1 (h r) /\
    value (fold_left (fun h' r => setCurrentSolution h' r (f r)) l h r)
    = value (h r) /\
    currentSolution
      (fold_left (fun h' r => setCurrentSolution h' r (f r)) l h r)
    = if existsb (Nat.eqb r) l then f r else currentSolution (h r).
Proof.
  induction l as [|x l IH]; intros h r; cbn [fold_left existsb].
  - auto.
  - destruct (IH (setCurrentSolution h x (f x)) r) as (H0 & H1 & Hv & Hc).
    rewrite H0, H1, Hv, Hc. cbn [setCurrentSolution nodeId0 nodeId1 value
                                   currentSolution].
    repeat split.
    destruct (existsb (Nat.eqb r) l);
      [rewrite orb_true_r; reflexivity|].
    rewrite orb_false_r. destruct (r =? x)%nat eqn:E; [|reflexivity].
    apply Nat.eqb_eq in E. subst. reflexivity.
Qed.

(** A function of the heap that does not read [currentSolution] is not
    affected by the assignments. *)
Lemma unaffected_by_assignments {B : Type} (F : store -> B)
      (f : ref -> option Q) (l : list ref) :
  (forall h r v, F (setCurrentSolution h r v) = F h) ->
  forall h, F (fold_left (fun h' r => setCurrentSolution h' r (f r)) l h) = F h.
Proof.
  intro HF. induction l as [|x l IH]; intro h; cbn [fold_left];
    [reflexivity|].
  rewrite IH. apply HF.
Qed.

Lemma MNAElement_ext (e e' : MNAElement) :
  nodeId0 e = nodeId0 e' -> nodeId1 e = nodeId1 e' -> value e = value e' ->
  currentSolution e = currentSolution e' -> e = e'.
Proof. destruct e, e'; simpl; intros; subst; reflexivity. Qed.

Section SolveFacts.

Variable h : store.
Variable c : circuit.
Variable qrSolve : Matrix -> list Q -> option (list Q).

(** [solve] returns, whatever the decomposition does. *)
Lemma linearSystem_returns : exists A z, linearSystem h c = Some (A, z).
Proof.
  unfold linearSystem, getEquations.
  destruct (getReferenceNodeIds_spec h c) as (refs & Hrefs & _).
  rewrite Hrefs.
  destruct (stampFrom _ _ _ _ _) as [A z]. eauto.
Qed.

Lemma solve_returns :
  exists solution h', solve h c qrSolve = Some (solution, h').
Proof.
  unfold solve. destruct linearSystem_returns as (A & z & Hsys).
  rewrite Hsys. eauto.
Qed.

(** The column read for a node voltage or for an unknown current is inside
    of a column of [getNumVars] entries. *)
Lemma voltage_index (node : nat) :
  In node (nodes h c) ->
  exists i,
    getIndexByEquals (getUnknowns h c) (UnknownVoltage node) = Some i /\
    (i < getNumVars h c)%nat.
Proof.
  intro H. rewrite <- getUnknowns_length. apply getIndexByEquals_In.
  unfold getUnknowns, getUnknownVoltages. apply in_or_app. right.
  apply in_map, H.
Qed.

Lemma current_index (r : ref) :
  In r (unknownCurrentElements h c) ->
  exists i,
    getIndexByEquals (getUnknowns h c) (UnknownCurrent r) = Some i /\
    (i < getNumVars h c)%nat.
Proof.
  intro H. rewrite <- getUnknowns_length. apply getIndexByEquals_In.
  unfold getUnknowns, getUnknownCurrents. apply in_or_app. left.
  apply in_map, H.
Qed.

End SolveFacts.

Lemma solveInputs_unaffected (c : circuit) (h : store) (r : ref)
      (v : option Q) :
  solveInputs c (setCurrentSolution h r v) = solveInputs c h.
Proof. reflexivity. Qed.

(** What [solve] reads is a function of the three fields [nodeId0],
    [nodeId1] and [value] of the elements. *)
Lemma solveInputs_inputFields (c : circuit) (h : store) :
  solveInputs c (inputFields h) = solveInputs c h.
Proof. reflexivity. Qed.

Lemma solveInputs_agree (c : circuit) (g h : store) :
  (forall r,
      nodeId0 (g r) = nodeId0 (h r) /\
      nodeId1 (g r) = nodeId1 (h r) /\
      value (g r) = value (h r)) ->
  solveInputs c g = solveInputs c h.
Proof.
  intro Hagree.
  rewrite <- (solveInputs_inputFields c g), <- (solveInputs_inputFields c h).
  f_equal. apply functional_extensionality. intro r.
  unfold inputFields. destruct (Hagree r) as (H0 & H1 & Hv).
  rewrite H0, H1, Hv. reflexivity.
Qed.

(** ** The claims on [solve] *)

(** C1. Whenever the QR decomposition of the stamped system fails, [solve]
    still returns: its solution is that of the column of [getNumVars] zeroes,
    as many as there are unknowns, so every node has the voltage 0 and the
    current of every battery and of every resistor without resistance is
    0. *)
Theorem solve_singular_fallback (h : store) (c : circuit)
        (qrSolve : Matrix -> list Q -> option (list Q)) :
  (forall A z, linearSystem h c = Some (A, z) -> qrSolve A z = None) ->
  exists solution h',
    solve h c qrSolve = Some (solution, h') /\
    getNumVars h c = length (getUnknowns h c) /\
    nodeVoltages solution = map (fun node => (node, Some 0)) (nodes h c) /\
    solutionElements solution = unknownCurrentElements h c /\
    (forall r, In r (solutionElements solution) ->
               currentSolution (h' r) = Some 0).
Proof.
  intro Hfail. unfold solve.
  destruct (linearSystem_returns h c) as (A & z & Hsys).
  rewrite Hsys, (Hfail A z Hsys).
  eexists. eexists. split; [reflexivity|].
  split; [symmetry; apply getUnknowns_length|].
  cbn [nodeVoltages solutionElements].
  split; [|split; [reflexivity|]].
  - apply map_ext_in. intros node Hn.
    destruct (voltage_index h c node Hn) as (i & Hi & Hlt).
    rewrite Hi. cbn [columnGet]. rewrite nth_error_repeat by exact Hlt.
    reflexivity.
  - intros r Hr.
    destruct (currentSolution_written
                (fun r => columnGet (repeat 0 (getNumVars h c))
                            (getIndexByEquals (getUnknowns h c)
                                              (UnknownCurrent r)))
                (unknownCurrentElements h c) h r) as (_ & _ & _ & Hc).
    rewrite Hc.
    assert (E : existsb (Nat.eqb r) (unknownCurrentElements h c) = true)
      by (apply existsb_eqb_In, Hr).
    rewrite E.
    destruct (current_index h c r Hr) as (i & Hi & Hlt).
    rewrite Hi. cbn [columnGet]. apply nth_error_repeat, Hlt.
Qed.

Lemma solve_singular_fallback_witness :
  (forall A z, linearSystem shortHeap short = Some (A, z) ->
               qrThrows A z = None) /\
  exists solution h',
    solve shortHeap short qrThrows = Some (solution, h') /\
    nodeVoltages solution
    = [(0%nat, Some 0); (1%nat, Some 0); (2%nat, Some 0)] /\
    currentSolution (h' 0%nat) = Some 0 /\
    currentSolution (h' 2%nat) = Some 0.
Proof.
  split; [reflexivity|].
  destruct (solve_singular_fallback shortHeap short qrThrows)
    as (solution & h' & Hs & _ & Hv & He & Hc); [reflexivity|].
  exists solution, h'. split; [exact Hs|]. split; [exact Hv|].
  rewrite He in Hc. split; apply Hc; simpl; tauto.
Defined.

(** C9 (as amended). [solve] depends on its elements through the fields
    [nodeId0], [nodeId1] and [value] only: on any elements that agree with
    the given ones on these three fields it returns the same solution and
    writes the same currents.  It leaves the three fields as they are, and
    it leaves every field of the resistors with resistance and of the
    current sources as it is; it does overwrite the field [currentSolution]
    of every battery and of every resistor without resistance, with the
    entry, at the index of the unknown current of the element, of the column
    [x] that the decomposition returned for the stamped system, or of the
    column of zeroes when the decomposition threw; the voltages of the
    solution are the entries of the same column.  A second call on the same
    elements, as the first one left them, returns the same solution and
    leaves the elements as they are. *)
Theorem solve_frame (h : store) (c : circuit)
        (qrSolve : Matrix -> list Q -> option (list Q))
        (solution : Solution) (h' : store) :
  solve h c qrSolve = Some (solution, h') ->
  (forall r,
      nodeId0 (h' r) = nodeId0 (h r) /\
      nodeId1 (h' r) = nodeId1 (h r) /\
      value (h' r) = value (h r)) /\
  (forall r, ~ In r (unknownCurrentElements h c) -> h' r = h r) /\
  (exists A z x,
      linearSystem h c = Some (A, z) /\
      x = match qrSolve A z with
          | Some x => x
          | None => repeat 0 (getNumVars h c)
          end /\
      nodeVoltages solution
      = map (fun node =>
               (node,
                columnGet x (getIndexByEquals (getUnknowns h c)
                                              (UnknownVoltage node))))
            (nodes h c) /\
      solutionElements solution = unknownCurrentElements h c /\
      forall r,
        In r (unknownCurrentElements h c) ->
        currentSolution (h' r)
        = columnGet x (getIndexByEquals (getUnknowns h c)
                                        (UnknownCurrent r))) /\
  (forall g,
      (forall r,
          nodeId0 (g r) = nodeId0 (h r) /\
          nodeId1 (g r) = nodeId1 (h r) /\
          value (g r) = value (h r)) ->
      exists g',
        solve g c qrSolve = Some (solution, g') /\
        (forall r,
            In r (unknownCurrentElements h c) ->
            currentSolution (g' r) = currentSolution (h' r)) /\
        (forall r, ~ In r (unknownCurrentElements h c) -> g' r = g r)) /\
  (exists h'',
      solve h' c qrSolve = Some (solution, h'') /\
      forall r, h'' r = h' r).
Proof.
  unfold solve. intro Hs.
  destruct (linearSystem h c) as [[A z]|] eqn:Hsys; [|discriminate].
  cbv zeta in Hs.
  set (x := match qrSolve A z with
            | Some x => x
            | None => repeat 0 (getNumVars h c)
            end) in *.
  pose (f := fun r => columnGet x (getIndexByEquals (getUnknowns h c)
                                                    (UnknownCurrent r))).
  injection Hs as Hsol Hh'.
  assert (Hw : forall r,
             nodeId0 (h' r) = nodeId0 (h r) /\
             nodeId1 (h' r) = nodeId1 (h r) /\
             value (h' r) = value (h r) /\
             currentSolution (h' r)
             = if existsb (Nat.eqb r) (unknownCurrentElements h c)
               then f r else currentSolution (h r)).
  { rewrite <- Hh'. apply (currentSolution_written f). }
  assert (Hin : solveInputs c h' = solveInputs c h).
  { rewrite <- Hh'. apply (unaffected_by_assignments (solveInputs c) f).
    apply solveInputs_unaffected. }
  unfold solveInputs in Hin. injection Hin as H1 H2 H3 H4 H5.
  split; [|split; [|split; [|split]]].
  - intro r. destruct (Hw r) as (H0 & H1' & Hv & _). auto.
  - intros r Hr. destruct (Hw r) as (H0 & H1' & Hv & Hc).
    apply MNAElement_ext; try assumption.
    rewrite Hc.
    apply existsb_eqb_not_In in Hr. rewrite Hr. reflexivity.
  - exists A, z, x. split; [reflexivity|]. split; [reflexivity|].
    rewrite <- Hsol. cbn [nodeVoltages solutionElements].
    split; [reflexivity|]. split; [reflexivity|].
    intros r Hr. destruct (Hw r) as (_ & _ & _ & Hc).
    rewrite Hc. apply existsb_eqb_In in Hr. rewrite Hr. reflexivity.
  - intros g Hagree.
    pose proof (solveInputs_agree c g h Hagree) as Hg.
    unfold solveInputs in Hg. injection Hg as G1 G2 G3 G4 G5.
    rewrite G1, G2, G3, G4, G5, Hsys. cbv zeta. fold x.
    eexists. split; [rewrite <- Hsol; reflexivity|]. split.
    + intros r Hr.
      destruct (currentSolution_written f (unknownCurrentElements h c) g r)
        as (_ & _ & _ & Hc).
      destruct (Hw r) as (_ & _ & _ & Hc').
      etransitivity; [exact Hc|]. rewrite Hc'.
      apply existsb_eqb_In in Hr. rewrite Hr. reflexivity.
    + intros r Hr.
      destruct (currentSolution_written f (unknownCurrentElements h c) g r)
        as (H0 & H1' & Hv & Hc).
      apply MNAElement_ext; [exact H0|exact H1'|exact Hv|].
      etransitivity; [exact Hc|].
      apply existsb_eqb_not_In in Hr. rewrite Hr. reflexivity.
  - rewrite H1, H2, H3, H4, H5, Hsys. cbv zeta. fold x.
    eexists. split.
    + rewrite <- Hsol. reflexivity.
    + intro r.
      destruct (currentSolution_written f (unknownCurrentElements h c) h' r)
        as (H0 & H1' & Hv & Hc).
      apply MNAElement_ext; [exact H0|exact H1'|exact Hv|].
      etransitivity; [exact Hc|].
      destruct (Hw r) as (_ & _ & _ & Hc').
      rewrite Hc'. destruct (existsb _ _); reflexivity.
Qed.

(** The battery of [batteryResistorHeap] with a current of 7 A left in its
    field [currentSolution] by an earlier call. *)
Lemma solve_frame_witness :
  exists solution h',
    solve batteryResistorHeap batteryResistor qrBatteryResistor
    = Some (solution, h') /\
    value (h' 0%nat) = 4 /\
    h' 1%nat = batteryResistorHeap 1%nat /\
    nodeVoltages solution = [(0%nat, Some 0); (1%nat, Some 4)] /\
    currentSolution (h' 0%nat) = Some 1 /\
    (exists g',
        solve (setCurrentSolution batteryResistorHeap 0%nat (Some 7))
              batteryResistor qrBatteryResistor
        = Some (solution, g') /\
        currentSolution (g' 0%nat) = currentSolution (h' 0%nat)) /\
    exists h'',
      solve h' batteryResistor qrBatteryResistor = Some (solution, h'').
Proof.
  destruct (solve batteryResistorHeap batteryResistor qrBatteryResistor)
    as [[solution h']|] eqn:Hs; [|discriminate].
  exists solution, h'. split; [reflexivity|].
  destruct (solve_frame _ _ _ _ _ Hs)
    as (Hg & Hr & (A & z & x & Hsys & Hx & Hv & _ & Hc) & Hany
        & h'' & Hs' & _).
  assert (Hx' : x = [1; 0; 4]).
  { rewrite Hx. reflexivity. }
  subst x.
  split; [apply Hg|]. split.
  { apply Hr. simpl. intros [H|[]]. discriminate. }
  split; [rewrite Hv; reflexivity|].
  split; [rewrite Hc; [reflexivity|simpl; tauto]|].
  split.
  - destruct (Hany (setCurrentSolution batteryResistorHeap 0%nat (Some 7)))
      as (g' & Hsg & Hcg & _).
    + intro r. repeat split.
    + exists g'. split; [exact Hsg|]. apply Hcg. simpl. tauto.
  - exists h''. exact Hs'.
Defined.

(** C9 (as stated) fails: [solve] writes into its input.  On the circuit of
    the first test the column [1; 0; 4] solves the stamped system, and the
    call replaces the [null] in the field [currentSolution] of the battery
    by the current 1. *)
Lemma solve_writes_currentSolution :
  match linearSystem batteryResistorHeap batteryResistor,
        solve batteryResistorHeap batteryResistor qrBatteryResistor with
  | Some (A, z), Some (_, h') =>
      map Qred (matrixTimes A [1; 0; 4]) = map Qred z /\
      In 0%nat (batteries batteryResistor) /\
      currentSolution (batteryResistorHeap 0%nat) = None /\
      currentSolution (h' 0%nat) = Some 1
  | _, _ => False
  end.
Proof.
  vm_compute. repeat split. left. reflexivity.
Qed.

(** ** The stamped system *)

Lemma listSet_length {A : Type} (l : list A) :
  forall i v, length (listSet l i v) = length l.
Proof.
  induction l as [|y l IH]; intros [|i] v; simpl; auto.
Qed.

Lemma listSet_nth_same {A : Type} (l : list A) (d : A) :
  forall i v, (i < length l)%nat -> nth i (listSet l i v) d = v.
Proof.
  induction l as [|y l IH]; intros [|i] v H; simpl in *; try lia; auto.
  apply IH. lia.
Qed.

Lemma listSet_nth_other {A : Type} (l : list A) (d : A) :
  forall i j v, i <> j -> nth j (listSet l i v) d = nth j l d.
Proof.
  induction l as [|y l IH]; intros [|i] [|j] v H; simpl; auto;
    try contradiction.
Qed.

Lemma dot_listSet (row : list Q) :
  forall (x : list Q) (j : nat) (v : Q),
    (j < length row)%nat ->
    dot (listSet row j v) x == dot row x + (v - nth j row 0) * nth j x 0.
Proof.
  unfold dot.
  induction row as [|a row IH]; intros x j v H; simpl in H; [lia|].
  destruct j as [|j], x as [|b x]; simpl.
  - ring.
  - ring.
  - ring.
  - rewrite IH by lia. ring.
Qed.

Lemma dot_zero (n : nat) (x : list Q) : dot (repeat 0 n) x == 0.
Proof.
  unfold dot. revert x.
  induction n as [|n IH]; intros [|b x]; simpl; try reflexivity.
  rewrite IH. ring.
Qed.

Lemma getIndexByEquals_lt (array : list Unknown) (u : Unknown) :
  forall i, getIndexByEquals array u = Some i -> (i < length array)%nat.
Proof.
  induction array as [|v l IH]; intros i H; simpl in *; [discriminate|].
  destruct (unknownEquals v u).
  - injection H as <-. lia.
  - destruct (getIndexByEquals l u) as [k|]; [|discriminate].
    injection H as <-. specialize (IH k eq_refl). lia.
Qed.

Section Stamping.

Variable unknowns : list Unknown.
Variable n : nat.
Hypothesis columns : length unknowns = n.

Let getColumn := getIndexByEquals unknowns.

(** The terms of an equation, added into row [i]. *)
Lemma stamp_terms (i : nat) (ts : list Term) :
  forall a,
    (i < length a)%nat -> wellShaped n a ->
    let a' :=
      fold_left
        (fun a term =>
           match getColumn (variable term) with
           | Some column =>
               matrixSet a i column (coefficient term + matrixGet a i column)
           | None => a
           end) ts a in
    length a' = length a /\ wellShaped n a' /\
    (forall k, k <> i -> nth k a' [] = nth k a []) /\
    forall x,
      dot (nth i a' []) x
      == dot (nth i a []) x + evalTerms (assignment unknowns x) ts.
Proof.
  induction ts as [|t ts IH]; intros a Hi Hshape; cbn [fold_left].
  - repeat split; auto. intro x. simpl. ring.
  - destruct (getColumn (variable t)) as [column|] eqn:E.
    + assert (Hcol : (column < n)%nat).
      { rewrite <- columns. eapply getIndexByEquals_lt, E. }
      set (a1 := matrixSet a i column
                           (coefficient t + matrixGet a i column)).
      assert (Hlen1 : length a1 = length a) by apply listSet_length.
      assert (Hrow1 : nth i a1 []
                      = listSet (nth i a []) column
                                (coefficient t + matrixGet a i column))
        by (apply listSet_nth_same, Hi).
      assert (Hother1 : forall k, k <> i -> nth k a1 [] = nth k a [])
        by (intros k Hk; apply listSet_nth_other; auto).
      assert (Hshape1 : wellShaped n a1).
      { intros k Hk. destruct (Nat.eq_dec k i) as [->|Hne].
        - rewrite Hrow1, listSet_length. apply Hshape, Hi.
        - rewrite Hother1 by exact Hne. apply Hshape. lia. }
      destruct (IH a1 ltac:(lia) Hshape1) as (H1 & H2 & H3 & H4).
      repeat split.
      * lia.
      * exact H2.
      * intros k Hk. rewrite H3 by exact Hk. apply Hother1, Hk.
      * intro x. rewrite H4, Hrow1, dot_listSet
          by (rewrite (Hshape i Hi); exact Hcol).
        cbn [evalTerms fold_right]. fold (evalTerms (assignment unknowns x) ts).
        unfold assignment at 2. fold getColumn. rewrite E.
        unfold matrixGet. ring.
    + destruct (IH a Hi Hshape) as (H1 & H2 & H3 & H4).
      repeat split; auto.
      intro x. rewrite H4.
      cbn [evalTerms fold_right]. fold (evalTerms (assignment unknowns x) ts).
      unfold assignment at 2. fold getColumn. rewrite E. ring.
Qed.

(** The loop over the equations: row [i + j] receives equation [j], the
    other rows are as before. *)
Lemma stampFrom_spec (equations : list Equation) :
  forall i a z a' z',
    (i + length equations <= length a)%nat ->
    length z = length a -> wellShaped n a ->
    stampFrom i equations a z getColumn = (a', z') ->
    length a' = length a /\ length z' = length z /\ wellShaped n a' /\
    (forall k, (k < i)%nat ->
               nth k a' [] = nth k a [] /\ nth k z' 0 = nth k z 0) /\
    forall j e,
      nth_error equations j = Some e ->
      nth (i + j) z' 0 = eqValue e /\
      forall x,
        dot (nth (i + j) a' []) x
        == dot (nth (i + j) a []) x
           + evalTerms (assignment unknowns x) (terms e).
Proof.
  induction equations as [|e0 equations IH];
    intros i a z a' z' Hlen Hz Hshape Hrun; cbn [stampFrom] in Hrun.
  - injection Hrun as <- <-. split; [reflexivity|]. split; [reflexivity|].
    split; [exact Hshape|]. split; [auto|].
    intros [|j] e H; discriminate.
  - unfold stamp in Hrun. cbn [length] in Hlen.
    destruct (stamp_terms i (terms e0) a ltac:(lia) Hshape)
      as (H1 & H2 & H3 & H4).
    match type of H1 with length ?t = _ => set (a1 := t) in * end.
    set (z1 := listSet z i (eqValue e0)) in *.
    assert (Hz1 : length z1 = length a1)
      by (unfold z1; rewrite listSet_length; lia).
    destruct (IH (S i) a1 z1 a' z' ltac:(lia) Hz1 H2 Hrun)
      as (G1 & G2 & G3 & G4 & G5).
    split; [lia|]. split.
    { unfold z1 in G2. rewrite listSet_length in G2. exact G2. }
    split; [exact G3|]. split.
    { intros k Hk. destruct (G4 k ltac:(lia)) as [E1 E2].
      rewrite E1, E2. split; [apply H3; lia|].
      apply listSet_nth_other. lia. }
    intros [|j] e Hj.
    + injection Hj as <-. rewrite Nat.add_0_r.
      destruct (G4 i ltac:(lia)) as [E1 E2]. rewrite E1, E2. split.
      * apply listSet_nth_same. lia.
      * apply H4.
    + cbn [nth_error] in Hj. destruct (G5 j e Hj) as [E1 E2].
      replace (i + S j)%nat with (S i + j)%nat by lia.
      split; [exact E1|].
      intro x. rewrite E2, H3 by lia. reflexivity.
Qed.

End Stamping.

(** The matrix and the right-hand side handed to the decomposition are the
    matrix form of the equations: row [k] times a column [x] is the
    left-hand side of equation [k] under the assignment that [x] stands for,
    and entry [k] of [z] is its right-hand side. *)
Lemma linearSystem_spec (h : store) (c : circuit) (A : Matrix) (z : list Q) :
  linearSystem h c = Some (A, z) ->
  exists equations,
    getEquations h c = Some equations /\
    length A = length equations /\ length z = length equations /\
    forall k e,
      nth_error equations k = Some e ->
      nth k z 0 = eqValue e /\
      forall x,
        dot (nth k A []) x
        == evalTerms (assignment (getUnknowns h c) x) (terms e).
Proof.
  unfold linearSystem.
  destruct (getEquations h c) as [equations|]; [|discriminate].
  intro H. injection H as H. exists equations. split; [reflexivity|].
  assert (Hshape : wellShaped (getNumVars h c)
                              (newMatrix (length equations) (getNumVars h c))).
  { intros k Hk. unfold newMatrix in *. rewrite repeat_length in Hk.
    rewrite nth_repeat_lt by exact Hk. apply repeat_length. }
  destruct (stampFrom_spec (getUnknowns h c) (getNumVars h c)
              (getUnknowns_length h c) equations O
              (newMatrix (length equations) (getNumVars h c))
              (repeat 0 (length equations)) A z)
    as (H1 & H2 & _ & _ & H5).
  - unfold newMatrix. rewrite repeat_length. lia.
  - unfold newMatrix. rewrite !repeat_length. reflexivity.
  - exact Hshape.
  - exact H.
  - unfold newMatrix in *. rewrite repeat_length in *.
    split; [exact H1|]. split; [exact H2|].
    intros k e Hk. destruct (H5 k e Hk) as [E1 E2]. cbn [Nat.add] in E1, E2.
    split; [exact E1|].
    intro x. rewrite E2.
    assert (Hlt : (k < length equations)%nat)
      by (apply nth_error_Some; rewrite Hk; discriminate).
    rewrite nth_repeat_lt by exact Hlt. rewrite dot_zero. ring.
Qed.

Lemma Forall2_Qeq_nth (l1 : list Q) :
  forall l2,
    Forall2 Qeq l1 l2 <->
    length l1 = length l2 /\
    forall k, (k < length l1)%nat -> nth k l1 0 == nth k l2 0.
Proof.
  induction l1 as [|a l1 IH]; intros [|b l2]; simpl.
  - split; [intros _; split; [reflexivity|intros; lia]|constructor].
  - split; [intro H; inversion H|intros [H _]; discriminate].
  - split; [intro H; inversion H|intros [H _]; discriminate].
  - split.
    + intro H. inversion H as [|? ? ? ? Hab Hl]; subst.
      apply IH in Hl. destruct Hl as [Hlen Hnth].
      split; [lia|]. intros [|k] Hk; [exact Hab|]. apply Hnth. lia.
    + intros [Hlen Hnth]. constructor.
      * apply (Hnth O). lia.
      * apply IH. split; [lia|]. intros k Hk. apply (Hnth (S k)). lia.
Qed.

Lemma Forall_nth_error {A : Type} (P : A -> Prop) (l : list A) :
  Forall P l <-> forall k x, nth_error l k = Some x -> P x.
Proof.
  rewrite Forall_forall. split.
  - intros H k x Hk. apply H. eapply nth_error_In, Hk.
  - intros H x Hx. apply In_nth_error in Hx. destruct Hx as [k Hk].
    eapply H, Hk.
Qed.

(** A column solves the stamped system exactly when the assignment it
    stands for satisfies every equation. *)
Lemma solvesSystem_iff (h : store) (c : circuit) (A : Matrix) (z : list Q) :
  linearSystem h c = Some (A, z) ->
  exists equations,
    getEquations h c = Some equations /\
    forall x,
      solvesSystem A z x <->
      Forall (satisfies (assignment (getUnknowns h c) x)) equations.
Proof.
  intro Hsys.
  destruct (linearSystem_spec h c A z Hsys)
    as (equations & Heqs & HA & Hz & Hrows).
  exists equations. split; [exact Heqs|].
  intro x. unfold solvesSystem, matrixTimes.
  rewrite Forall2_Qeq_nth, Forall_nth_error, length_map.
  split.
  - intros [_ H] k e Hk.
    assert (Hlt : (k < length A)%nat)
      by (rewrite HA; apply nth_error_Some; rewrite Hk; discriminate).
    specialize (H k Hlt). destruct (Hrows k e Hk) as [E1 E2].
    unfold satisfies. rewrite <- E2, <- E1, <- H.
    rewrite <- (map_nth (fun row => dot row x) A [] k). reflexivity.
  - intro H. split; [lia|]. intros k Hk.
    destruct (nth_error equations k) as [e|] eqn:E.
    + destruct (Hrows k e E) as [E1 E2]. specialize (H k e E).
      unfold satisfies in H. rewrite E1, <- H, <- E2.
      rewrite <- (map_nth (fun row => dot row x) A [] k). reflexivity.
    + apply nth_error_None in E. lia.
Qed.

(** ** Reversing sources *)

Lemma evalTerms_negated (a : Unknown -> Q) (ts : list Term) :
  evalTerms (negated a) ts == - evalTerms a ts.
Proof.
  induction ts as [|t ts IH]; simpl; [reflexivity|].
  rewrite IH. unfold negated. ring.
Qed.

Lemma satisfies_negated (a : Unknown -> Q) (e e' : Equation) :
  terms e' = terms e -> eqValue e' == - eqValue e ->
  satisfies a e -> satisfies (negated a) e'.
Proof.
  unfold satisfies. intros Ht Hv H.
  rewrite Ht, Hv, evalTerms_negated, H. reflexivity.
Qed.

Lemma flat_map_ext_on {A B : Type} (f g : A -> list B) (l : list A) :
  (forall x, In x l -> f x = g x) -> flat_map f l = flat_map g l.
Proof.
  induction l as [|y l IH]; intro H; simpl; [reflexivity|].
  rewrite (H y) by (left; reflexivity).
  rewrite IH by (intros; apply H; right; assumption). reflexivity.
Qed.

Section Reversal.

Variable h : store.
Variable c : circuit.
Variable sources : list ref.

(** No resistor is among the negated elements, and every battery or current
    source that is not has the value 0. *)
Hypothesis resistors_kept : forall r, In r (resistors c) -> ~ In r sources.
Hypothesis others_zero :
  forall r, In r (batteries c) \/ In r (currentSources c) ->
            In r sources \/ value (h r) == 0.

Lemma resistor_value (r : ref) :
  In r (resistors c) -> value (negateValues h sources r) = value (h r).
Proof.
  intro H. apply resistors_kept, existsb_eqb_not_In in H.
  cbn [negateValues value]. rewrite H. reflexivity.
Qed.

Lemma source_value (r : ref) :
  In r (batteries c) \/ In r (currentSources c) ->
  value (negateValues h sources r) == - value (h r).
Proof.
  intro H. cbn [negateValues value].
  destruct (existsb (Nat.eqb r) sources) eqn:E; [reflexivity|].
  apply existsb_eqb_not_In in E.
  destruct (others_zero r H) as [Hs|Hz]; [contradiction|].
  rewrite Hz. reflexivity.
Qed.

Lemma getCurrentTerms_negateValues (node : nat) (side : Side) (sign : Q)
      (nodeTerms : list Term) :
  getCurrentTerms (negateValues h sources) c node side sign nodeTerms
  = getCurrentTerms h c node side sign nodeTerms.
Proof.
  unfold getCurrentTerms. f_equal. f_equal.
  apply flat_map_ext_on. intros r Hr.
  unfold resistorTerms. cbv zeta.
  rewrite (resistor_value r Hr). reflexivity.
Qed.

Lemma getCurrentSourceTotal_negateValues (node : nat) :
  getCurrentSourceTotal (negateValues h sources) c node
  == - getCurrentSourceTotal h c node.
Proof.
  unfold getCurrentSourceTotal.
  assert (Hgen : forall l t t',
             (forall r, In r l -> In r (currentSources c)) ->
             t' == - t ->
             fold_left
               (fun currentSourceTotal r =>
                  let currentSource := negateValues h sources r in
                  let t1 :=
                    if (nodeId1 currentSource =? node)%nat
                    then currentSourceTotal - value currentSource
                    else currentSourceTotal in
                  if (nodeId0 currentSource =? node)%nat
                  then t1 + value currentSource
                  else t1) l t'
             == - fold_left
                    (fun currentSourceTotal r =>
                       let currentSource := h r in
                       let t1 :=
                         if (nodeId1 currentSource =? node)%nat
                         then currentSourceTotal - value currentSource
                         else currentSourceTotal in
                       if (nodeId0 currentSource =? node)%nat
                       then t1 + value currentSource
                       else t1) l t).
  { induction l as [|r l IH]; intros t t' Hl Ht; cbn [fold_left];
      [exact Ht|].
    apply IH; [intros; apply Hl; right; assumption|].
    cbv zeta.
    assert (Hv := source_value r (or_intror (Hl r (or_introl eq_refl)))).
    change (nodeId0 (negateValues h sources r)) with (nodeId0 (h r)).
    change (nodeId1 (negateValues h sources r)) with (nodeId1 (h r)).
    destruct (nodeId1 (h r) =? node)%nat, (nodeId0 (h r) =? node)%nat;
      rewrite ?Hv, Ht; ring. }
  apply Hgen; [auto|reflexivity].
Qed.

(** The negation of a solution solves the equations of the circuit with the
    sources reversed. *)
Lemma getEquations_negateValues (a : Unknown -> Q) (eqs : list Equation) :
  getEquations h c = Some eqs ->
  Forall (satisfies a) eqs ->
  exists eqs',
    getEquations (negateValues h sources) c = Some eqs' /\
    Forall (satisfies (negated a)) eqs'.
Proof.
  unfold getEquations.
  change (getReferenceNodeIds (negateValues h sources) c)
    with (getReferenceNodeIds h c).
  change (nodes (negateValues h sources) c) with (nodes h c).
  destruct (getReferenceNodeIds h c) as [refs|]; [|discriminate].
  intros E Hsat. injection E as <-.
  eexists. split; [reflexivity|].
  apply Forall_app in Hsat. destruct Hsat as [Hrefs Hsat].
  apply Forall_app in Hsat. destruct Hsat as [Hnodes Hsat].
  apply Forall_app in Hsat. destruct Hsat as [Hbat Hshort].
  rewrite Forall_forall in Hrefs, Hnodes, Hbat, Hshort.
  repeat (apply Forall_app; split); apply Forall_forall; intros e He.
  - apply (satisfies_negated a e e); [reflexivity| |auto].
    apply in_map_iff in He. destruct He as (n & <- & _). reflexivity.
  - apply in_map_iff in He. destruct He as (n & <- & Hn).
    apply (satisfies_negated a (nodeEquation h c n)).
    + unfold nodeEquation. cbn [terms].
      rewrite !getCurrentTerms_negateValues. reflexivity.
    + apply getCurrentSourceTotal_negateValues.
    + apply Hnodes, in_map, Hn.
  - apply in_map_iff in He. destruct He as (r & <- & Hr).
    apply (satisfies_negated a (batteryEquation h r)).
    + reflexivity.
    + apply source_value. left. exact Hr.
    + apply Hbat, in_map, Hr.
  - apply in_flat_map in He. destruct He as (r & Hr & He).
    assert (Hin : In e (flat_map (shortEquations h) (resistors c))).
    { apply in_flat_map. exists r. split; [exact Hr|].
      unfold shortEquations in *. cbv zeta in *.
      rewrite (resistor_value r Hr) in He. exact He. }
    apply (satisfies_negated a e e); [reflexivity| |auto].
    apply in_flat_map in Hin. destruct Hin as (r' & _ & Hin).
    unfold shortEquations in Hin. destruct (isZero _); [|contradiction].
    destruct Hin as [<-|[]]. reflexivity.
Qed.

Lemma getUnknowns_negateValues :
  getUnknowns (negateValues h sources) c = getUnknowns h c.
Proof.
  unfold getUnknowns, getUnknownCurrents, unknownCurrentElements.
  change (getUnknownVoltages (negateValues h sources) c)
    with (getUnknownVoltages h c).
  f_equal. f_equal. f_equal.
  apply flat_map_ext_on. intros r Hr.
  rewrite (resistor_value r Hr). reflexivity.
Qed.

End Reversal.

Lemma evalTerms_ext (a b : Unknown -> Q) (ts : list Term) :
  (forall u, a u == b u) -> evalTerms a ts == evalTerms b ts.
Proof.
  intro H. induction ts as [|t ts IH]; simpl; [reflexivity|].
  rewrite IH, (H (variable t)). reflexivity.
Qed.

Lemma assignment_opp (unknowns : list Unknown) (x : list Q) (u : Unknown) :
  assignment unknowns (map Qopp x) u == negated (assignment unknowns x) u.
Proof.
  unfold negated, assignment.
  destruct (getIndexByEquals unknowns u) as [i|]; [|reflexivity].
  change 0 with (- 0) at 1. rewrite map_nth. reflexivity.
Qed.

(** ** Reversed sources *)

(** When the values of some batteries and current sources are negated, no
    resistor is touched and every other battery and current source has the
    value 0, the unknowns stay the same and the negation of every exact
    solution of the stamped system [A x = z] is an exact solution of the new
    stamped system. *)
Lemma negated_solution_solves (h : store) (c : circuit)
      (sources : list ref) (A : Matrix) (z x : list Q) :
  (forall r, In r (resistors c) -> ~ In r sources) ->
  (forall r, In r (batteries c) \/ In r (currentSources c) ->
             In r sources \/ value (h r) == 0) ->
  linearSystem h c = Some (A, z) ->
  solvesSystem A z x ->
  exists A' z',
    linearSystem (negateValues h sources) c = Some (A', z') /\
    getUnknowns (negateValues h sources) c = getUnknowns h c /\
    solvesSystem A' z' (map Qopp x).
Proof.
  intros Hkept Hzero Hsys Hx.
  destruct (solvesSystem_iff h c A z Hsys) as (eqs & Heqs & Hiff).
  apply Hiff in Hx.
  destruct (getEquations_negateValues h c sources Hkept Hzero _ eqs Heqs Hx)
    as (eqs' & Heqs' & Hx').
  destruct (linearSystem_returns (negateValues h sources) c)
    as (A' & z' & Hsys').
  exists A', z'. split; [exact Hsys'|].
  split; [apply getUnknowns_negateValues, Hkept|].
  destruct (solvesSystem_iff _ c A' z' Hsys') as (eqs'' & Heqs'' & Hiff').
  rewrite Heqs' in Heqs''. injection Heqs'' as <-.
  apply Hiff'. rewrite (getUnknowns_negateValues h c sources Hkept).
  eapply Forall_impl; [|exact Hx'].
  intros e He. unfold satisfies in *. rewrite <- He.
  apply evalTerms_ext, assignment_opp.
Qed.

(** Negating twice gives the elements back. *)
Lemma negateValues_involutive (h : store) (sources : list ref) :
  negateValues (negateValues h sources) sources = h.
Proof.
  apply functional_extensionality. intro r.
  apply MNAElement_ext; try reflexivity.
  cbn [negateValues value].
  destruct (existsb (Nat.eqb r) sources); [|reflexivity].
  destruct (value (h r)) as [n d]. unfold Qopp. cbn [Qnum Qden].
  rewrite Z.opp_involutive. reflexivity.
Qed.

(** Two columns that agree entry by entry stand for the same assignment. *)
Lemma assignment_Qeq (unknowns : list Unknown) (x y : list Q) (u : Unknown) :
  Forall2 Qeq x y -> assignment unknowns x u == assignment unknowns y u.
Proof.
  intro H. apply Forall2_Qeq_nth in H. destruct H as [Hlen Hnth].
  unfold assignment. destruct (getIndexByEquals unknowns u) as [i|];
    [|reflexivity].
  destruct (Nat.lt_ge_cases i (length x)) as [Hlt|Hge].
  - apply Hnth, Hlt.
  - rewrite !nth_overflow by lia. reflexivity.
Qed.


(** ** Further properties of the equations *)

Lemma sumQ_ext {A : Type} (f g : A -> Q) (l : list A) :
  (forall x, In x l -> f x == g x) -> sumQ f l == sumQ g l.
Proof.
  unfold sumQ. induction l as [|y l IH]; intro H; cbn [fold_right];
    [reflexivity|].
  rewrite IH by (intros; apply H; right; assumption).
  rewrite (H y) by (left; reflexivity). reflexivity.
Qed.

Lemma sumQ_plus {A : Type} (f g : A -> Q) (l : list A) :
  sumQ (fun x => f x + g x) l == sumQ f l + sumQ g l.
Proof.
  unfold sumQ. induction l as [|y l IH]; cbn [fold_right]; [ring|].
  rewrite IH. ring.
Qed.

Lemma sumQ_zero {A : Type} (l : list A) : sumQ (fun _ => 0) l == 0.
Proof.
  unfold sumQ. induction l as [|y l IH]; cbn [fold_right]; [reflexivity|].
  rewrite IH. ring.
Qed.

Lemma sumQ_swap {A B : Type} (f : A -> B -> Q) (la : list A) (lb : list B) :
  sumQ (fun x => sumQ (f x) lb) la == sumQ (fun y => sumQ (fun x => f x y) la) lb.
Proof.
  induction la as [|x la IH].
  - unfold sumQ at 1 3. cbn [fold_right]. symmetry. apply sumQ_zero.
  - change (sumQ (fun x0 => sumQ (f x0) lb) (x :: la))
      with (sumQ (f x) lb + sumQ (fun x0 => sumQ (f x0) lb) la).
    rewrite IH, <- sumQ_plus. apply sumQ_ext. intros y _. reflexivity.
Qed.

(** Over a list without repetition, the sum of a value placed at one of
    its members is that value. *)
Lemma sumQ_at (k : nat) (v : Q) (l : list nat) :
  NoDup l -> In k l ->
  sumQ (fun n => if (k =? n)%nat then v else 0) l == v.
Proof.
  unfold sumQ. induction 1 as [|y l Hy Hl IH]; intro Hin; [contradiction|].
  cbn [fold_right]. destruct Hin as [->|Hin].
  - rewrite Nat.eqb_refl.
    assert (E : fold_right (fun x acc => (if (k =? x)%nat then v else 0) + acc)
                           0 l == 0).
    { clear IH Hl. induction l as [|x l IH]; cbn [fold_right];
        [reflexivity|].
      destruct (k =? x)%nat eqn:E.
      - apply Nat.eqb_eq in E. subst. exfalso. apply Hy. left. reflexivity.
      - rewrite IH; [ring|]. intro H. apply Hy. right. exact H. }
    rewrite E. ring.
  - destruct (k =? y)%nat eqn:E.
    + apply Nat.eqb_eq in E. subst. contradiction.
    + rewrite IH by exact Hin. ring.
Qed.

Lemma evalTerms_app (a : Unknown -> Q) (l1 l2 : list Term) :
  evalTerms a (l1 ++ l2) == evalTerms a l1 + evalTerms a l2.
Proof.
  unfold evalTerms. induction l1 as [|t l1 IH]; cbn [app fold_right];
    [ring|].
  rewrite IH. ring.
Qed.

Lemma evalTerms_flat_map {A : Type} (a : Unknown -> Q) (f : A -> list Term)
      (l : list A) :
  evalTerms a (flat_map f l) == sumQ (fun x => evalTerms a (f x)) l.
Proof.
  unfold sumQ. induction l as [|y l IH]; cbn [flat_map fold_right];
    [reflexivity|].
  rewrite evalTerms_app, IH. reflexivity.
Qed.

Section Conservation.

Variable h : store.
Variable c : circuit.

Lemma nodes_sorted : StronglySorted lt (nodes h c).
Proof.
  unfold nodes, nodeSet.
  apply (addNodes_sorted h). constructor.
Qed.

Lemma element_nodes (r : ref) :
  In r (elements c) ->
  In (nodeId0 (h r)) (nodes h c) /\ In (nodeId1 (h r)) (nodes h c).
Proof.
  intro H. split; apply nodes_In; exists r; tauto.
Qed.

(** The left-hand side that a battery or a resistor adds to the equation of
    a node. *)
Lemma batteryTerms_eval (a : Unknown -> Q) (node : nat) (side : Side)
      (sign : Q) (r : ref) :
  evalTerms a (batteryTerms h node side sign r)
  == if (sideOf side (h r) =? node)%nat
     then sign * a (UnknownCurrent r) else 0.
Proof.
  unfold batteryTerms. destruct (_ =? node)%nat; simpl; ring.
Qed.

Lemma resistorTerms_eval (a : Unknown -> Q) (node : nat) (side : Side)
      (sign : Q) (r : ref) :
  evalTerms a (resistorTerms h node side sign r)
  == if (sideOf side (h r) =? node)%nat then resistorFlow h a sign r else 0.
Proof.
  unfold resistorTerms, resistorFlow. cbv zeta.
  destruct (_ =? node)%nat; [|reflexivity].
  destruct (isZero _); simpl; ring.
Qed.

Lemma getCurrentTerms_eval (a : Unknown -> Q) (node : nat) (side : Side)
      (sign : Q) (nodeTerms : list Term) :
  evalTerms a (getCurrentTerms h c node side sign nodeTerms)
  == evalTerms a nodeTerms
     + sumQ (fun r => if (sideOf side (h r) =? node)%nat
                      then sign * a (UnknownCurrent r) else 0)
            (batteries c)
     + sumQ (fun r => if (sideOf side (h r) =? node)%nat
                      then resistorFlow h a sign r else 0)
            (resistors c).
Proof.
  unfold getCurrentTerms.
  rewrite !evalTerms_app, !evalTerms_flat_map.
  rewrite (sumQ_ext _ _ (batteries c)
             (fun r _ => batteryTerms_eval a node side sign r)).
  rewrite (sumQ_ext _ _ (resistors c)
             (fun r _ => resistorTerms_eval a node side sign r)).
  ring.
Qed.

Lemma side_sum (side : Side) (v : Q) (r : ref) :
  In r (elements c) ->
  sumQ (fun node => if (sideOf side (h r) =? node)%nat then v else 0)
       (nodes h c) == v.
Proof.
  intro Hr. apply sumQ_at; [apply nodes_NoDup|].
  destruct (element_nodes r Hr). destruct side; assumption.
Qed.

End Conservation.

(** X11. The node equations are dependent: under every assignment of the
    unknowns their left-hand sides add up to 0 over all nodes, each battery
    and resistor entering one node equation with the opposite of what it
    contributes to another.  (This is why every component needs its
    reference equation.) *)
Theorem node_equations_add_up_to_zero (h : store) (c : circuit)
        (a : Unknown -> Q) :
  sumQ (fun node => evalTerms a (terms (nodeEquation h c node))) (nodes h c)
  == 0.
Proof.
  assert (Hb : forall r, In r (batteries c) -> In r (elements c))
    by (intros r Hr; unfold elements; rewrite !in_app_iff; tauto).
  assert (Hr : forall r, In r (resistors c) -> In r (elements c))
    by (intros r Hr; unfold elements; rewrite !in_app_iff; tauto).
  assert (E : forall node,
             evalTerms a (terms (nodeEquation h c node))
             == sumQ (fun r =>
                        (if (nodeId1 (h r) =? node)%nat
                         then -1 * a (UnknownCurrent r) else 0)
                        + (if (nodeId0 (h r) =? node)%nat
                           then 1 * a (UnknownCurrent r) else 0))
                     (batteries c)
                + sumQ (fun r =>
                          (if (nodeId1 (h r) =? node)%nat
                           then resistorFlow h a (-1) r else 0)
                          + (if (nodeId0 (h r) =? node)%nat
                             then resistorFlow h a 1 r else 0))
                       (resistors c)).
  { intro node. unfold nodeEquation. cbn [terms].
    rewrite !getCurrentTerms_eval, !sumQ_plus. cbn [sideOf].
    unfold evalTerms at 1. cbn [fold_right]. ring. }
  rewrite (sumQ_ext _ _ _ (fun node _ => E node)), sumQ_plus.
  rewrite (sumQ_swap
             (fun node r =>
                (if (nodeId1 (h r) =? node)%nat
                 then -1 * a (UnknownCurrent r) else 0)
                + (if (nodeId0 (h r) =? node)%nat
                   then 1 * a (UnknownCurrent r) else 0))).
  rewrite (sumQ_swap
             (fun node r =>
                (if (nodeId1 (h r) =? node)%nat
                 then resistorFlow h a (-1) r else 0)
                + (if (nodeId0 (h r) =? node)%nat
                   then resistorFlow h a 1 r else 0))).
  assert (E1 : sumQ (fun r =>
                       sumQ (fun node =>
                               (if (nodeId1 (h r) =? node)%nat
                                then -1 * a (UnknownCurrent r) else 0)
                               + (if (nodeId0 (h r) =? node)%nat
                                  then 1 * a (UnknownCurrent r) else 0))
                            (nodes h c)) (batteries c) == 0).
  { rewrite <- (sumQ_zero (batteries c)). apply sumQ_ext. intros r Hin.
    rewrite sumQ_plus.
    rewrite (side_sum h c SideNodeId1 _ r (Hb r Hin)).
    rewrite (side_sum h c SideNodeId0 _ r (Hb r Hin)). ring. }
  assert (E2 : sumQ (fun r =>
                       sumQ (fun node =>
                               (if (nodeId1 (h r) =? node)%nat
                                then resistorFlow h a (-1) r else 0)
                               + (if (nodeId0 (h r) =? node)%nat
                                  then resistorFlow h a 1 r else 0))
                            (nodes h c)) (resistors c) == 0).
  { rewrite <- (sumQ_zero (resistors c)). apply sumQ_ext. intros r Hin.
    rewrite sumQ_plus.
    rewrite (side_sum h c SideNodeId1 _ r (Hr r Hin)).
    rewrite (side_sum h c SideNodeId0 _ r (Hr r Hin)).
    unfold resistorFlow. destruct (isZero _); unfold Qdiv; ring. }
  rewrite E1, E2. ring.
Qed.

(** ** Further properties of the components *)

Lemma arrayRemove_incl (array : list nat) (item x : nat) :
  In x (arrayRemove array item) -> In x array.
Proof.
  induction array as [|y l IH]; simpl; [tauto|].
  destruct (y =? item)%nat; simpl; tauto.
Qed.

Lemma arrayRemove_sorted (array : list nat) (item : nat) :
  StronglySorted lt array -> StronglySorted lt (arrayRemove array item).
Proof.
  induction 1 as [|y l Hs IH Hall]; simpl; [constructor|].
  destruct (y =? item)%nat; [exact Hs|].
  constructor; [exact IH|].
  rewrite Forall_forall in *. intros x Hx. apply Hall.
  eapply arrayRemove_incl, Hx.
Qed.

Lemma arrayRemove_all_sorted (items : list nat) :
  forall array,
    StronglySorted lt array ->
    StronglySorted lt (fold_left arrayRemove items array).
Proof.
  induction items as [|i items IH]; intros array Hs; simpl; [exact Hs|].
  apply IH, arrayRemove_sorted, Hs.
Qed.

Section ComponentProperties.

Variable h : store.
Variable c : circuit.

(** The loop of [getReferenceNodeIds] takes the nodes in ascending order, so
    that the node it chooses is the least one of its component. *)
Lemma referenceLoop_least (fuel : nat) :
  forall toVisit refs result,
    StronglySorted lt toVisit ->
    (forall t, In t toVisit -> In t (nodes h c)) ->
    (forall n, In n (nodes h c) ->
               In n toVisit \/ exists r, In r refs /\ connected h c r n) ->
    (forall t r, In t toVisit -> In r refs -> ~ connected h c r t) ->
    (forall r n, In r refs -> connected h c r n -> (r <= n)%nat) ->
    referenceLoop h c fuel toVisit refs = Some result ->
    forall r n, In r result -> connected h c r n -> (r <= n)%nat.
Proof.
  induction fuel as [|fuel IH];
    intros toVisit refs result Hs Hsub Hcover Hsep Hleast Hrun.
  - destruct toVisit as [|t rest]; [|discriminate].
    injection Hrun as <-. exact Hleast.
  - destruct toVisit as [|t rest].
    + injection Hrun as <-. exact Hleast.
    + assert (Ht : In t (nodes h c)) by (apply Hsub; left; reflexivity).
      destruct (getConnectedNodeIds_spec h c t Ht) as (conn & Hc & _ & Hconn).
      cbn [referenceLoop] in Hrun. rewrite Hc in Hrun.
      destruct (arrayRemove_all conn (t :: rest) (sorted_NoDup _ Hs))
        as [_ Hin2].
      refine (IH _ _ _ (arrayRemove_all_sorted conn _ Hs) _ _ _ _ Hrun).
      * intros x Hx. apply Hin2 in Hx. apply Hsub. tauto.
      * intros n Hn.
        destruct (in_dec Nat.eq_dec n conn) as [Hnc|Hnc].
        -- right. exists t. split; [apply in_or_app; simpl; tauto|].
           apply Hconn, Hnc.
        -- destruct (Hcover n Hn) as [H|(r & Hr & H)].
           ++ left. apply Hin2. tauto.
           ++ right. exists r. split; [apply in_or_app; tauto|exact H].
      * intros x r Hx Hr Hrx. apply Hin2 in Hx. destruct Hx as [Hx Hxc].
        apply in_app_or in Hr. destruct Hr as [Hr|[<-|[]]].
        -- exact (Hsep x r Hx Hr Hrx).
        -- apply Hxc, Hconn, Hrx.
      * intros r n Hr Hrn. apply in_app_or in Hr.
        destruct Hr as [Hr|[<-|[]]]; [exact (Hleast r n Hr Hrn)|].
        assert (Hn : In n (nodes h c))
          by (eapply connected_nodes; eassumption).
        destruct (Hcover n Hn) as [[<-|Hin]|(r & Hr & Hrn')].
        -- lia.
        -- apply StronglySorted_inv in Hs. destruct Hs as [_ Hall].
           rewrite Forall_forall in Hall. apply Hall in Hin. lia.
        -- exfalso. apply (Hsep t r); [left; reflexivity|exact Hr|].
           eapply connected_trans; [exact Hrn'|].
           apply connected_sym, Hrn.
Qed.

End ComponentProperties.

(** X12. The reference node of a component is the node of the least id in
    it: [getReferenceNodeIds] returns, and each node it returns is at most
    every node it is connected to.  (The node set is an object keyed by
    vertex indices, which are enumerated in ascending order.) *)
Theorem reference_node_is_least (h : store) (c : circuit) :
  exists referenceNodeIds,
    getReferenceNodeIds h c = Some referenceNodeIds /\
    forall r n,
      In r referenceNodeIds -> connected h c r n -> (r <= n)%nat.
Proof.
  destruct (getReferenceNodeIds_spec h c) as (refs & Hrefs & _).
  exists refs. split; [exact Hrefs|].
  unfold getReferenceNodeIds in Hrefs.
  refine (referenceLoop_least h c _ _ _ _ (nodes_sorted h c) _ _ _ _ Hrefs).
  - auto.
  - auto.
  - intros t r _ [].
  - intros r n [].
Qed.

(** X13. [getConnectedNodeIds] splits the nodes into classes: on nodes of
    the circuit it returns a list without repetition that holds the node it
    was given; the lists of two nodes hold the same nodes when one of the
    nodes is in the list of the other, and have no node in common when it is
    not. *)
Theorem connected_node_ids_partition (h : store) (c : circuit) (a b : nat) :
  In a (nodes h c) -> In b (nodes h c) ->
  exists ca cb,
    getConnectedNodeIds h c a = Some ca /\
    getConnectedNodeIds h c b = Some cb /\
    NoDup ca /\ In a ca /\
    (In b ca <-> In a cb) /\
    (In b ca -> forall x, In x ca <-> In x cb) /\
    (~ In b ca -> forall x, In x ca -> ~ In x cb).
Proof.
  intros Ha Hb.
  destruct (getConnectedNodeIds_spec h c a Ha) as (ca & Hca & Hnd & Hina).
  destruct (getConnectedNodeIds_spec h c b Hb) as (cb & Hcb & _ & Hinb).
  exists ca, cb.
  split; [exact Hca|]. split; [exact Hcb|]. split; [exact Hnd|].
  split; [apply Hina, connected_refl|]. split; [|split].
  - rewrite Hina, Hinb. split; apply connected_sym.
  - intros Hab x. rewrite Hina, Hinb. apply Hina in Hab. split; intro H.
    + eapply connected_trans; [apply connected_sym, Hab|exact H].
    + eapply connected_trans; [exact Hab|exact H].
  - intros Hab x Hx Hx'. apply Hab. apply Hina.
    apply Hina in Hx. apply Hinb in Hx'.
    eapply connected_trans; [exact Hx|]. apply connected_sym, Hx'.
Qed.

Lemma connected_node_ids_partition_witness :
  exists ca cb,
    getConnectedNodeIds islandHeap island 0%nat = Some ca /\
    getConnectedNodeIds islandHeap island 2%nat = Some cb /\
    ca = [0%nat; 1%nat] /\ cb = [2%nat; 3%nat].
Proof.
  assert (H0 : In 0%nat (nodes islandHeap island))
    by (vm_compute; tauto).
  assert (H2 : In 2%nat (nodes islandHeap island))
    by (vm_compute; tauto).
  destruct (connected_node_ids_partition islandHeap island 0%nat 2%nat H0 H2)
    as (ca & cb & Ha & Hb & _).
  exists ca, cb. split; [exact Ha|]. split; [exact Hb|].
  vm_compute in Ha, Hb. injection Ha as <-. injection Hb as <-.
  split; reflexivity.
Defined.

(** ** Further properties of the stamped system and of [solve] *)

Lemma unknownEquals_eq (u v : Unknown) : unknownEquals u v = true -> u = v.
Proof.
  destruct u, v; simpl; intro H; try discriminate;
    apply Nat.eqb_eq in H; congruence.
Qed.

(** The index found is that of the unknown itself. *)
Lemma getIndexByEquals_nth (array : list Unknown) (u : Unknown) :
  forall i, getIndexByEquals array u = Some i -> nth_error array i = Some u.
Proof.
  induction array as [|v l IH]; intros i H; simpl in H; [discriminate|].
  destruct (unknownEquals v u) eqn:E.
  - injection H as <-. apply unknownEquals_eq in E. subst. reflexivity.
  - destruct (getIndexByEquals l u) as [k|]; [|discriminate].
    injection H as <-. simpl. apply IH. reflexivity.
Qed.

Lemma lookupVoltage_map (f : nat -> option Q) (l : list nat) (node : nat) :
  In node l -> lookupVoltage (map (fun n => (n, f n)) l) node = f node.
Proof.
  induction l as [|y l IH]; intro H; [contradiction|].
  simpl. destruct (y =? node)%nat eqn:E.
  - apply Nat.eqb_eq in E. subst. reflexivity.
  - apply IH. destruct H as [->|H]; [|exact H].
    rewrite Nat.eqb_refl in E. discriminate.
Qed.

Lemma shortEquations_length (h : store) (l : list ref) :
  length (flat_map (shortEquations h) l)
  = length (filter (fun r => isZero (value (h r))) l).
Proof.
  induction l as [|r l IH]; simpl; [reflexivity|].
  rewrite length_app, IH. unfold shortEquations.
  destruct (isZero (value (h r))); reflexivity.
Qed.

Section SystemProperties.

Variable h : store.
Variable c : circuit.

(** The variables of the terms are unknowns of [solve]. *)
Lemma batteryTerms_known (node : nat) (side : Side) (sign : Q) (r : ref)
      (t : Term) :
  In r (batteries c) -> In t (batteryTerms h node side sign r) ->
  In (variable t) (getUnknowns h c).
Proof.
  intros Hr Ht. unfold batteryTerms in Ht.
  destruct (_ =? node)%nat; [|contradiction].
  destruct Ht as [<-|[]]. simpl.
  unfold getUnknowns, getUnknownCurrents, unknownCurrentElements.
  apply in_or_app. left. apply in_map, in_or_app. left. exact Hr.
Qed.

Lemma voltage_known (node : nat) :
  In node (nodes h c) -> In (UnknownVoltage node) (getUnknowns h c).
Proof.
  intro H. unfold getUnknowns, getUnknownVoltages.
  apply in_or_app. right. apply in_map, H.
Qed.

Lemma short_current_known (r : ref) :
  In r (resistors c) -> isZero (value (h r)) = true ->
  In (UnknownCurrent r) (getUnknowns h c).
Proof.
  intros Hr Hz. unfold getUnknowns, getUnknownCurrents.
  apply in_or_app. left. apply in_map.
  rewrite unknownCurrentElements_filter. apply in_or_app. right.
  apply filter_In. tauto.
Qed.

Lemma resistorTerms_known (node : nat) (side : Side) (sign : Q) (r : ref)
      (t : Term) :
  In r (resistors c) -> In t (resistorTerms h node side sign r) ->
  In (variable t) (getUnknowns h c).
Proof.
  intros Hr Ht. unfold resistorTerms in Ht. cbv zeta in Ht.
  assert (He : In r (elements c))
    by (unfold elements; rewrite !in_app_iff; tauto).
  destruct (element_nodes h c r He) as [H0 H1].
  destruct (_ =? node)%nat; [|contradiction].
  destruct (isZero (value (h r))) eqn:Hz.
  - destruct Ht as [<-|[]]. simpl. apply short_current_known; assumption.
  - destruct Ht as [<-|[<-|[]]]; simpl; apply voltage_known; assumption.
Qed.

Lemma getCurrentTerms_known (node : nat) (side : Side) (sign : Q)
      (nodeTerms : list Term) (t : Term) :
  (forall t', In t' nodeTerms -> In (variable t') (getUnknowns h c)) ->
  In t (getCurrentTerms h c node side sign nodeTerms) ->
  In (variable t) (getUnknowns h c).
Proof.
  intros Hts Ht. unfold getCurrentTerms in Ht.
  apply in_app_or in Ht. destruct Ht as [Ht|Ht]; [auto|].
  apply in_app_or in Ht. destruct Ht as [Ht|Ht];
    apply in_flat_map in Ht; destruct Ht as (r & Hr & Ht).
  - eapply batteryTerms_known; eassumption.
  - eapply resistorTerms_known; eassumption.
Qed.

Lemma equation_terms_known (referenceNodeIds : list nat) (e : Equation)
      (t : Term) :
  (forall r, In r referenceNodeIds -> In r (nodes h c)) ->
  In e (map referenceEquation referenceNodeIds
          ++ map (nodeEquation h c) (nodes h c)
          ++ map (batteryEquation h) (batteries c)
          ++ flat_map (shortEquations h) (resistors c)) ->
  In t (terms e) ->
  In (variable t) (getUnknowns h c).
Proof.
  intros Hrefs He Ht. rewrite !in_app_iff in He.
  destruct He as [He|[He|[He|He]]].
  - apply in_map_iff in He. destruct He as (r & <- & Hr).
    destruct Ht as [<-|[]]. simpl. apply voltage_known, Hrefs, Hr.
  - apply in_map_iff in He. destruct He as (n & <- & Hn).
    unfold nodeEquation in Ht. cbn [terms] in Ht.
    apply getCurrentTerms_known in Ht; [exact Ht|].
    intros t' Ht'. apply getCurrentTerms_known in Ht'; [exact Ht'|].
    intros t'' [].
  - apply in_map_iff in He. destruct He as (b & <- & Hb).
    assert (Hel : In b (elements c))
      by (unfold elements; rewrite !in_app_iff; tauto).
    destruct (element_nodes h c b Hel) as [H0 H1].
    destruct Ht as [<-|[<-|[]]]; simpl; apply voltage_known; assumption.
  - apply in_flat_map in He. destruct He as (r & Hr & He).
    unfold shortEquations in He. cbv zeta in He.
    destruct (isZero (value (h r))); [|contradiction].
    destruct He as [<-|[]].
    assert (Hel : In r (elements c))
      by (unfold elements; rewrite !in_app_iff; tauto).
    destruct (element_nodes h c r Hel) as [H0 H1].
    destruct Ht as [<-|[<-|[]]]; simpl; apply voltage_known; assumption.
Qed.

(** The column [x] read as a solution: the entry of an unknown. *)
Lemma columnGet_assignment (x : list Q) (u : Unknown) :
  length x = getNumVars h c -> In u (getUnknowns h c) ->
  columnGet x (getIndexByEquals (getUnknowns h c) u)
  = Some (assignment (getUnknowns h c) x u).
Proof.
  intros Hlen Hu.
  destruct (getIndexByEquals_In _ _ Hu) as (i & Hi & Hlt).
  unfold assignment. rewrite Hi. cbn [columnGet].
  apply nth_error_nth'. rewrite Hlen, <- (getUnknowns_length h c). exact Hlt.
Qed.

End SystemProperties.

(** X14. The stamped system has one row per equation and one column per
    unknown, and one more equation than unknowns for every connected
    component: [A] has [getNumVars] columns and [getNumVars] plus the
    number of reference nodes rows, and [z] has as many entries as [A] has
    rows. *)
Theorem stamped_system_shape (h : store) (c : circuit) :
  exists referenceNodeIds A z,
    getReferenceNodeIds h c = Some referenceNodeIds /\
    linearSystem h c = Some (A, z) /\
    length A = (getNumVars h c + length referenceNodeIds)%nat /\
    length z = length A /\
    forall row, In row A -> length row = getNumVars h c.
Proof.
  destruct (getReferenceNodeIds_spec h c) as (refs & Hrefs & _).
  exists refs. unfold linearSystem, getEquations. rewrite Hrefs.
  set (equations := map referenceEquation refs
                      ++ map (nodeEquation h c) (nodes h c)
                      ++ map (batteryEquation h) (batteries c)
                      ++ flat_map (shortEquations h) (resistors c)).
  destruct (stampFrom O equations
                      (newMatrix (length equations) (getNumVars h c))
                      (repeat 0 (length equations))
                      (getIndexByEquals (getUnknowns h c)))
    as [A z] eqn:Hrun.
  exists A, z. split; [reflexivity|]. split; [reflexivity|].
  assert (Hshape : wellShaped (getNumVars h c)
                              (newMatrix (length equations) (getNumVars h c))).
  { intros k Hk. unfold newMatrix in *. rewrite repeat_length in Hk.
    rewrite nth_repeat_lt by exact Hk. apply repeat_length. }
  destruct (stampFrom_spec (getUnknowns h c) (getNumVars h c)
              (getUnknowns_length h c) equations O
              (newMatrix (length equations) (getNumVars h c))
              (repeat 0 (length equations)) A z)
    as (H1 & H2 & H3 & _).
  - unfold newMatrix. rewrite repeat_length. lia.
  - unfold newMatrix. rewrite !repeat_length. reflexivity.
  - exact Hshape.
  - exact Hrun.
  - unfold newMatrix in H1, H2. rewrite repeat_length in H1, H2.
    assert (Hcount : length equations
                     = (getNumVars h c + length refs)%nat).
    { unfold equations, getNumVars, getCurrentCount, nodeCount.
      rewrite !length_app, !length_map, shortEquations_length.
      rewrite count_resistance_free. unfold nodes. lia. }
    split; [lia|]. split; [lia|].
    intros row Hrow. destruct (In_nth _ _ [] Hrow) as (k & Hk & <-).
    apply H3, Hk.
Qed.

(** X15. Every variable of every term of the equations has a column of the
    matrix: [getIndexByEquals] finds it among the unknowns at an index below
    [getNumVars], so that [stamp] never gets the index -1.  Unknowns found
    at the same index are the same unknown. *)
Theorem every_variable_has_its_column (h : store) (c : circuit) :
  exists equations,
    getEquations h c = Some equations /\
    (forall e t,
        In e equations -> In t (terms e) ->
        exists i,
          getIndexByEquals (getUnknowns h c) (variable t) = Some i /\
          (i < getNumVars h c)%nat) /\
    (forall u v i,
        getIndexByEquals (getUnknowns h c) u = Some i ->
        getIndexByEquals (getUnknowns h c) v = Some i -> u = v).
Proof.
  destruct (getReferenceNodeIds_spec h c) as (refs & Hrefs & _ & Hsub & _).
  unfold getEquations. rewrite Hrefs. eexists. split; [reflexivity|]. split.
  - intros e t He Ht. rewrite <- getUnknowns_length.
    apply getIndexByEquals_In.
    eapply equation_terms_known; eassumption.
  - intros u v i Hu Hv.
    apply getIndexByEquals_nth in Hu. apply getIndexByEquals_nth in Hv.
    congruence.
Qed.



(** ** The claim on reversed batteries *)

(** What [solve] returns and writes when the decomposition returns a column
    of [getNumVars] entries: the entries of the unknowns. *)
Lemma solve_reads_column (h : store) (c : circuit)
      (qrSolve : Matrix -> list Q -> option (list Q))
      (A : Matrix) (z x : list Q) :
  linearSystem h c = Some (A, z) ->
  qrSolve A z = Some x ->
  length x = getNumVars h c ->
  exists solution h',
    solve h c qrSolve = Some (solution, h') /\
    solutionElements solution = unknownCurrentElements h c /\
    (forall node,
        In node (nodes h c) ->
        lookupVoltage (nodeVoltages solution) node
        = Some (assignment (getUnknowns h c) x (UnknownVoltage node))) /\
    (forall r,
        In r (unknownCurrentElements h c) ->
        currentSolution (h' r)
        = Some (assignment (getUnknowns h c) x (UnknownCurrent r))).
Proof.
  intros Hsys Hqr Hlen.
  unfold solve. rewrite Hsys. cbv zeta. rewrite Hqr.
  eexists. eexists. split; [reflexivity|].
  cbn [nodeVoltages solutionElements]. split; [reflexivity|]. split.
  - intros node Hnode.
    rewrite (lookupVoltage_map
               (fun node =>
                  columnGet x (getIndexByEquals (getUnknowns h c)
                                                (UnknownVoltage node))))
      by exact Hnode.
    apply columnGet_assignment; [exact Hlen|].
    apply voltage_known, Hnode.
  - intros r Hr.
    pose (f := fun r => columnGet x (getIndexByEquals (getUnknowns h c)
                                                      (UnknownCurrent r))).
    destruct (currentSolution_written f (unknownCurrentElements h c) h r)
      as (_ & _ & _ & Hc).
    etransitivity; [exact Hc|].
    apply existsb_eqb_In in Hr. rewrite Hr. unfold f.
    apply columnGet_assignment; [exact Hlen|].
    unfold getUnknowns, getUnknownCurrents. apply in_or_app. left.
    apply in_map. apply existsb_eqb_In, Hr.
Qed.

Lemma unknownCurrentElements_negateValues (h : store) (c : circuit)
      (sources : list ref) :
  (forall r, In r (resistors c) -> ~ In r sources) ->
  unknownCurrentElements (negateValues h sources) c
  = unknownCurrentElements h c.
Proof.
  intro Hkept. unfold unknownCurrentElements. f_equal.
  apply flat_map_ext_on. intros r Hr.
  rewrite (resistor_value h c sources Hkept r Hr). reflexivity.
Qed.


(** ** Instances on the circuits of the tests *)

Lemma reference_node_is_least_witness :
  exists referenceNodeIds,
    getReferenceNodeIds islandHeap island = Some referenceNodeIds /\
    In 2%nat referenceNodeIds /\
    forall n, connected islandHeap island 2%nat n -> (2 <= n)%nat.
Proof.
  destruct (reference_node_is_least islandHeap island) as (refs & H & Hleast).
  exists refs. split; [exact H|].
  vm_compute in H. injection H as <-.
  split; [simpl; tauto|].
  intro n. apply Hleast. simpl. tauto.
Defined.

Lemma stamped_system_shape_witness :
  exists A z,
    linearSystem batteryResistorHeap batteryResistor = Some (A, z) /\
    length A = 4%nat /\ length z = 4%nat /\
    forall row, In row A -> length row = 3%nat.
Proof.
  destruct (stamped_system_shape batteryResistorHeap batteryResistor)
    as (refs & A & z & Hrefs & Hsys & HA & Hz & Hrows).
  exists A, z. split; [exact Hsys|].
  vm_compute in Hrefs. injection Hrefs as <-.
  change (getNumVars batteryResistorHeap batteryResistor) with 3%nat in *.
  simpl in HA. split; [exact HA|]. split; [congruence|exact Hrows].
Defined.

Lemma every_variable_has_its_column_witness :
  exists equations,
    getEquations batteryResistorHeap batteryResistor = Some equations /\
    forall e t,
      In e equations -> In t (terms e) ->
      exists i,
        getIndexByEquals (getUnknowns batteryResistorHeap batteryResistor)
                         (variable t) = Some i /\
        (i < 3)%nat.
Proof.
  destruct (every_variable_has_its_column batteryResistorHeap batteryResistor)
    as (equations & Heqs & Hcols & _).
  exists equations. split; [exact Heqs|exact Hcols].
Defined.

End MNA.

(** * The solve-level policy: ModifiedNodalAnalysisAdapter.js *)
Module Adapter.

(** [ResistiveBatteryAdapter]: a [DynamicCircuit.ResistiveBattery] together
    with its [Battery], of which the policy reads
    [internalResistanceProperty.value]. *)
Record ResistiveBatteryAdapter : Type := mkBatteryAdapter {
  batteryNodeId0 : nat;
  batteryNodeId1 : nat;
  voltage : Q;
  resistance : Q;
  internalResistance : Q
}.

(** A [Battery] as the constructor of its adapter reads it:
    [circuit.vertexGroup.indexOf] of its start and end vertex,
    [voltageProperty.value] and [internalResistanceProperty.value]. *)
Record Battery : Type := mkBattery {
  startVertexIndex : nat;
  endVertexIndex : nat;
  voltageProperty : Q;
  internalResistanceProperty : Q
}.

(** [new ResistiveBatteryAdapter( circuit, battery )]: the fourth argument
    of [super], the resistance of the [DynamicCircuit.ResistiveBattery], is
    [battery.internalResistanceProperty.value]. *)
Definition newResistiveBatteryAdapter (battery : Battery)
  : ResistiveBatteryAdapter :=
  {| batteryNodeId0 := startVertexIndex battery;
     batteryNodeId1 := endVertexIndex battery;
     voltage := voltageProperty battery;
     resistance := internalResistanceProperty battery;
     internalResistance := internalResistanceProperty battery |}.

(** [ResistorAdapter]: the adapter of a resistor, fuse, wire, light bulb,
    series ammeter or closed switch.  [realLightBulb] is
    [circuitElement instanceof LightBulb && circuitElement.real];
    [bulbResistance] is the property [resistance] that the policy adds to the
    adapter of such a bulb, and [resistanceProperty] is
    [circuitElement.resistanceProperty.value]. *)
Record ResistorAdapter : Type := mkResistorAdapter {
  resistorNodeId0 : nat;
  resistorNodeId1 : nat;
  value : Q;
  realLightBulb : bool;
  bulbResistance : option Q;
  resistanceProperty : Q
}.

(** [array.forEach( ( x, i ) => ... )] as a map that knows the index. *)
Fixpoint mapFrom {A B : Type} (i : nat) (f : nat -> A -> B) (l : list A)
  : list B :=
  match l with
  | [] => []
  | x :: rest => f i x :: mapFrom (S i) f rest
  end.

Section Policy.

(** The adapters of capacitors and inductors, which the policy hands on as
    they are. *)
Variable DynamicAdapter : Type.

(** [DynamicCircuit], whose class is not among the sources: the four arrays
    it is built from.  It holds the adapters themselves, so that an
    assignment to an adapter is seen by the next solve. *)
Record DynamicCircuit : Type := mkDynamicCircuit {
  resistorAdapters : list ResistorAdapter;
  resistiveBatteryAdapters : list ResistiveBatteryAdapter;
  capacitorAdapters : list DynamicAdapter;
  inductorAdapters : list DynamicAdapter
}.

(** [CircuitResult] and what the policy asks of it:
    [dynamicCircuit.solveWithSubdivisions( TIMESTEP_SUBDIVISIONS, dt )],
    [circuitResult.getTimeAverageCurrent( batteryAdapter )] for the battery
    adapter at an index, and the final state's [getNodeVoltage]. *)
Variable CircuitResult : Type.
Variable solveWithSubdivisions : DynamicCircuit -> Q -> CircuitResult.
Variable getTimeAverageCurrent : CircuitResult -> nat -> Q.
Variable getNodeVoltage : CircuitResult -> nat -> Q.

(** [CCKCQueryParameters.batteryCurrentThreshold]. *)
Variable batteryCurrentThreshold : Q.

(** [V => 10 + coefficient * V / logWithBase( V + base, base )], whose
    logarithm is not a rational function. *)
Variable realBulbResistance : Q -> Q.

(** What the function does between its first solve and the application of
    the result: the circuits handed to [solveWithSubdivisions], in the order
    of the calls, the result that is applied, and the adapters at the end. *)
Record Outcome : Type := mkOutcome {
  solves : list DynamicCircuit;
  circuitResult : CircuitResult;
  adapters : DynamicCircuit
}.

(** The condition of the second [forEach]. *)
Definition exceedsThreshold (result : CircuitResult) (i : nat) : bool :=
  Qltb batteryCurrentThreshold (Qabs (getTimeAverageCurrent result i)).

(** Lines 211 to 258 of [solveModifiedNodalAnalysis], from the first solve
    to the re-solve. *)
Definition solveAndCorrect (dynamicCircuit : DynamicCircuit) (dt : Q)
  : Outcome :=
  let circuitResult := solveWithSubdivisions dynamicCircuit dt in
  let needsHelp := false in
  (* resistorAdapters.forEach: real bulbs *)
  let resistors1 :=
    map (fun resistorAdapter =>
           if realLightBulb resistorAdapter then
             {| resistorNodeId0 := resistorNodeId0 resistorAdapter;
                resistorNodeId1 := resistorNodeId1 resistorAdapter;
                value := value resistorAdapter;
                realLightBulb := realLightBulb resistorAdapter;
                bulbResistance := Some 1;
                resistanceProperty := resistanceProperty resistorAdapter |}
           else resistorAdapter)
        (resistorAdapters dynamicCircuit) in
  let needsHelp :=
    needsHelp || existsb realLightBulb (resistorAdapters dynamicCircuit) in
  (* resistiveBatteryAdapters.forEach: batteries over the threshold *)
  let batteries1 :=
    mapFrom O
      (fun i batteryAdapter =>
         if exceedsThreshold circuitResult i then
           {| batteryNodeId0 := batteryNodeId0 batteryAdapter;
              batteryNodeId1 := batteryNodeId1 batteryAdapter;
              voltage := voltage batteryAdapter;
              resistance := internalResistance batteryAdapter;
              internalResistance := internalResistance batteryAdapter |}
         else batteryAdapter)
      (resistiveBatteryAdapters dynamicCircuit) in
  let needsHelp :=
    needsHelp
    || existsb (exceedsThreshold circuitResult)
               (seq O (length (resistiveBatteryAdapters dynamicCircuit))) in
  (* resistorAdapters.forEach: the resistance of the real bulbs *)
  let resistors2 :=
    map (fun resistorAdapter =>
           if realLightBulb resistorAdapter then
             let v0 := getNodeVoltage circuitResult
                                      (resistorNodeId0 resistorAdapter) in
             let v1 := getNodeVoltage circuitResult
                                      (resistorNodeId1 resistorAdapter) in
             let V := Qabs (v1 - v0) in
             {| resistorNodeId0 := resistorNodeId0 resistorAdapter;
                resistorNodeId1 := resistorNodeId1 resistorAdapter;
                value := realBulbResistance V;
                realLightBulb := realLightBulb resistorAdapter;
                bulbResistance := bulbResistance resistorAdapter;
                resistanceProperty := realBulbResistance V |}
           else resistorAdapter)
        resistors1 in
  let dynamicCircuit' :=
    {| resistorAdapters := resistors2;
       resistiveBatteryAdapters := batteries1;
       capacitorAdapters := capacitorAdapters dynamicCircuit;
       inductorAdapters := inductorAdapters dynamicCircuit |} in
  if needsHelp then
    {| solves := [dynamicCircuit; dynamicCircuit'];
       circuitResult := solveWithSubdivisions dynamicCircuit' dt;
       adapters := dynamicCircuit' |}
  else
    {| solves := [dynamicCircuit];
       circuitResult := circuitResult;
       adapters := dynamicCircuit' |}.

End Policy.

Arguments mkDynamicCircuit {DynamicAdapter} _ _ _ _.
Arguments resistorAdapters {DynamicAdapter} _.
Arguments resistiveBatteryAdapters {DynamicAdapter} _.
Arguments solves {DynamicAdapter CircuitResult} _.
Arguments circuitResult {DynamicAdapter CircuitResult} _.
Arguments adapters {DynamicAdapter CircuitResult} _.
Arguments solveAndCorrect {DynamicAdapter CircuitResult} _ _ _ _ _ _ _.
Arguments exceedsThreshold {CircuitResult} _ _ _ _.

(** ** The voltages of the open branches *)

(** The circuit elements as [visit] tells them apart with [instanceof]:
    a [Resistor], [Wire], [LightBulb], closed [Switch], [Fuse] or
    [SeriesAmmeter]; a [VoltageSource] with its [voltageProperty.value]; a
    [Capacitor] or [Inductor] with its [mnaVoltageDrop]; an open
    [Switch]. *)
Inductive ElementKind : Type :=
| Resistive
| Source (sourceVoltage : Q)
| Reactive (mnaVoltageDrop : Q)
| OpenSwitch.

(** A circuit element with [startVertexProperty.value] and
    [endVertexProperty.value]; vertices are objects, compared by
    reference. *)
Record CircuitElement : Type := mkCircuitElement {
  kind : ElementKind;
  startVertex : nat;
  endVertex : nat
}.

(** A path element of the search: [{ startVertex, circuitElement,
    endVertex }]. *)
Record PathElement : Type := mkPathElement {
  pathStartVertex : nat;
  circuitElement : CircuitElement;
  pathEndVertex : nat
}.

(** What [visit] reads and writes: [voltageProperty.value] of the vertices
    and the array [visitedVertices]. *)
Record VisitState : Type := mkVisitState {
  vertexVoltage : nat -> Q;
  visitedVertices : list nat
}.

(** [vertex.voltageProperty.value = v]. *)
Definition setVoltage (voltages : nat -> Q) (vertex : nat) (v : Q)
  : nat -> Q :=
  fun w => if (w =? vertex)%nat then v else voltages w.

(** The closure [visit] of [solveModifiedNodalAnalysis]. *)
Definition visit (st : VisitState) (pathElement : PathElement) : VisitState :=
  let startVertex' := pathStartVertex pathElement in
  let circuitElement' := circuitElement pathElement in
  let endVertex' := pathEndVertex pathElement in
  if negb (existsb (Nat.eqb endVertex') (visitedVertices st)) then
    let sign :=
      if (startVertex' =? startVertex circuitElement')%nat then 1 else -1 in
    match kind circuitElement' with
    | Resistive =>
        {| vertexVoltage :=
             setVoltage (vertexVoltage st) endVertex'
                        (vertexVoltage st startVertex');
           visitedVertices := visitedVertices st ++ [endVertex'] |}
    | Source v =>
        {| vertexVoltage :=
             setVoltage (vertexVoltage st) endVertex'
                        (vertexVoltage st startVertex' + sign * v);
           visitedVertices := visitedVertices st ++ [endVertex'] |}
    | Reactive v =>
        {| vertexVoltage :=
             setVoltage (vertexVoltage st) endVertex'
                        (vertexVoltage st startVertex' + sign * v);
           visitedVertices := visitedVertices st ++ [endVertex'] |}
    | OpenSwitch => st
    end
  else st.

Lemma mapFrom_nth_error {A B : Type} (f : nat -> A -> B) (l : list A) :
  forall (i k : nat) (x : A),
    nth_error l k = Some x ->
    nth_error (mapFrom i f l) k = Some (f (i + k)%nat x).
Proof.
  induction l as [|y l IH]; intros i k x H.
  - destruct k; discriminate.
  - destruct k as [|k]; simpl in *.
    + injection H as ->. rewrite Nat.add_0_r. reflexivity.
    + rewrite (IH (S i) k x H). f_equal. f_equal. lia.
Qed.

Section PolicyFacts.

Variable DynamicAdapter : Type.
Variable CircuitResult : Type.
Variable solveWithSubdivisions :
  DynamicCircuit DynamicAdapter -> Q -> CircuitResult.
Variable getTimeAverageCurrent : CircuitResult -> nat -> Q.
Variable getNodeVoltage : CircuitResult -> nat -> Q.
Variable batteryCurrentThreshold : Q.
Variable realBulbResistance : Q -> Q.

Let run := solveAndCorrect solveWithSubdivisions getTimeAverageCurrent
                           getNodeVoltage batteryCurrentThreshold
                           realBulbResistance.

(** There is the first solve, and at most one more. *)
Lemma solves_once_or_twice (dynamicCircuit : DynamicCircuit DynamicAdapter)
      (dt : Q) :
  solves (run dynamicCircuit dt) = [dynamicCircuit] /\
  circuitResult (run dynamicCircuit dt)
  = solveWithSubdivisions dynamicCircuit dt
  \/
  solves (run dynamicCircuit dt)
  = [dynamicCircuit; adapters (run dynamicCircuit dt)] /\
  circuitResult (run dynamicCircuit dt)
  = solveWithSubdivisions (adapters (run dynamicCircuit dt)) dt.
Proof.
  unfold run, solveAndCorrect. cbv zeta.
  destruct (false || _ || _); cbn [solves circuitResult adapters]; auto.
Qed.

(** A battery over the threshold forces the second solve, which sees the
    battery with its internal resistance. *)
Lemma battery_over_threshold (dynamicCircuit : DynamicCircuit DynamicAdapter)
      (dt : Q) (i : nat) (batteryAdapter : ResistiveBatteryAdapter) :
  nth_error (resistiveBatteryAdapters dynamicCircuit) i = Some batteryAdapter ->
  batteryCurrentThreshold
  < Qabs (getTimeAverageCurrent
            (solveWithSubdivisions dynamicCircuit dt) i) ->
  exists dynamicCircuit' batteryAdapter',
    solves (run dynamicCircuit dt) = [dynamicCircuit; dynamicCircuit'] /\
    circuitResult (run dynamicCircuit dt)
    = solveWithSubdivisions dynamicCircuit' dt /\
    nth_error (resistiveBatteryAdapters dynamicCircuit') i
    = Some batteryAdapter' /\
    resistance batteryAdapter' = internalResistance batteryAdapter /\
    voltage batteryAdapter' = voltage batteryAdapter /\
    batteryNodeId0 batteryAdapter' = batteryNodeId0 batteryAdapter /\
    batteryNodeId1 batteryAdapter' = batteryNodeId1 batteryAdapter.
Proof.
  intros Hnth Hover. apply Qltb_true in Hover.
  unfold run, solveAndCorrect. cbv zeta.
  assert (Hex : existsb
                  (exceedsThreshold getTimeAverageCurrent
                     batteryCurrentThreshold
                     (solveWithSubdivisions dynamicCircuit dt))
                  (seq 0 (length (resistiveBatteryAdapters dynamicCircuit)))
                = true).
  { apply existsb_exists. exists i. split; [|exact Hover].
    apply in_seq. split; [lia|]. simpl.
    apply nth_error_Some. rewrite Hnth. discriminate. }
  rewrite Hex, orb_true_r. cbn [solves circuitResult adapters].
  eexists. eexists. split; [reflexivity|]. split; [reflexivity|].
  cbn [resistiveBatteryAdapters].
  split.
  - rewrite (mapFrom_nth_error _ _ O i batteryAdapter Hnth). reflexivity.
  - cbn [Nat.add]. unfold exceedsThreshold in Hover |- *. rewrite Hover.
    repeat split.
Qed.

End PolicyFacts.

(** ** A circuit of one battery *)

(** A solver for circuits whose batteries are shorted through their own
    resistance: the result is the list of the currents [voltage /
    resistance]. *)
Definition shortedSolve (dc : DynamicCircuit unit) (dt : Q) : list Q :=
  map (fun b => voltage b / resistance b) (resistiveBatteryAdapters dc).

Definition shortedCurrent (result : list Q) (i : nat) : Q := nth i result 0.

(** A battery of 9 V with an internal resistance of 0.0001 Ohm, and the
    circuit of its adapter alone. *)
Definition shortedBattery : Battery := mkBattery 0 1 9 (1 # 10000).

Definition shortedCircuit : DynamicCircuit unit :=
  mkDynamicCircuit [] [newResistiveBatteryAdapter shortedBattery] [] [].

(** ** The claim on the corrective re-solve *)

(** The assignment of the second [forEach] changes no adapter that is as its
    constructor built it. *)
Lemma constructed_adapters_kept (p : nat -> bool) (batteries : list Battery) :
  forall i,
    mapFrom i
      (fun i batteryAdapter =>
         if p i then
           {| batteryNodeId0 := batteryNodeId0 batteryAdapter;
              batteryNodeId1 := batteryNodeId1 batteryAdapter;
              voltage := voltage batteryAdapter;
              resistance := internalResistance batteryAdapter;
              internalResistance := internalResistance batteryAdapter |}
         else batteryAdapter)
      (map newResistiveBatteryAdapter batteries)
    = map newResistiveBatteryAdapter batteries.
Proof.
  induction batteries as [|battery l IH]; intro i; cbn [map mapFrom];
    [reflexivity|].
  rewrite IH. destruct (p i); reflexivity.
Qed.



(** ** Further properties of the corrective re-solve *)

Lemma map_unchanged {A : Type} (f : A -> A) (l : list A) :
  (forall x, In x l -> f x = x) -> map f l = l.
Proof.
  induction l as [|y l IH]; intro H; simpl; [reflexivity|].
  rewrite (H y) by (left; reflexivity).
  rewrite IH by (intros; apply H; right; assumption). reflexivity.
Qed.

Lemma mapFrom_unchanged {A : Type} (f : nat -> A -> A) (l : list A) :
  forall i,
    (forall k x, (k < length l)%nat -> f (i + k)%nat x = x) ->
    mapFrom i f l = l.
Proof.
  induction l as [|y l IH]; intros i H; simpl; [reflexivity|].
  rewrite <- (Nat.add_0_r i) at 1. rewrite (H O y) by (simpl; lia).
  rewrite IH; [reflexivity|].
  intros k x Hk. replace (S i + k)%nat with (i + S k)%nat by lia.
  apply H. simpl. lia.
Qed.

Lemma mapFrom_length {A B : Type} (f : nat -> A -> B) (l : list A) :
  forall i, length (mapFrom i f l) = length l.
Proof.
  induction l as [|y l IH]; intro i; simpl; [reflexivity|].
  rewrite IH. reflexivity.
Qed.

Lemma existsb_none {A : Type} (p : A -> bool) (l : list A) :
  (forall x, In x l -> p x = false) -> existsb p l = false.
Proof.
  induction l as [|y l IH]; intro H; simpl; [reflexivity|].
  rewrite (H y) by (left; reflexivity). apply IH.
  intros; apply H; right; assumption.
Qed.

(** X17. When no resistor adapter is a real light bulb and the
    time-averaged current of no battery adapter exceeds
    [batteryCurrentThreshold] in magnitude, the circuit is solved once, the
    result of this solve is the one applied, and no adapter is changed. *)
Theorem no_correction_single_solve (DynamicAdapter CircuitResult : Type)
        (solveWithSubdivisions :
           DynamicCircuit DynamicAdapter -> Q -> CircuitResult)
        (getTimeAverageCurrent : CircuitResult -> nat -> Q)
        (getNodeVoltage : CircuitResult -> nat -> Q)
        (batteryCurrentThreshold : Q) (realBulbResistance : Q -> Q)
        (dynamicCircuit : DynamicCircuit DynamicAdapter) (dt : Q) :
  (forall resistorAdapter,
      In resistorAdapter (resistorAdapters dynamicCircuit) ->
      realLightBulb resistorAdapter = false) ->
  (forall i,
      (i < length (resistiveBatteryAdapters dynamicCircuit))%nat ->
      Qabs (getTimeAverageCurrent (solveWithSubdivisions dynamicCircuit dt) i)
      <= batteryCurrentThreshold) ->
  let outcome :=
    solveAndCorrect solveWithSubdivisions getTimeAverageCurrent
                    getNodeVoltage batteryCurrentThreshold realBulbResistance
                    dynamicCircuit dt in
  solves outcome = [dynamicCircuit] /\
  circuitResult outcome = solveWithSubdivisions dynamicCircuit dt /\
  adapters outcome = dynamicCircuit.
Proof.
  intros Hbulbs Hcurrents outcome. unfold outcome, solveAndCorrect.
  cbv zeta.
  rewrite (existsb_none realLightBulb _ Hbulbs).
  rewrite (existsb_none
             (exceedsThreshold getTimeAverageCurrent batteryCurrentThreshold
                               (solveWithSubdivisions dynamicCircuit dt))).
  2:{ intros i Hi. apply in_seq in Hi. apply Qltb_false, Hcurrents. lia. }
  cbn [orb solves circuitResult adapters].
  split; [reflexivity|]. split; [reflexivity|].
  rewrite (map_unchanged _ (resistorAdapters dynamicCircuit)).
  2:{ intros x Hx. rewrite (Hbulbs x Hx). reflexivity. }
  rewrite (map_unchanged _ (resistorAdapters dynamicCircuit)).
  2:{ intros x Hx. rewrite (Hbulbs x Hx). reflexivity. }
  rewrite mapFrom_unchanged.
  2:{ intros k x Hk. cbn [Nat.add].
      assert (E : exceedsThreshold getTimeAverageCurrent
                    batteryCurrentThreshold
                    (solveWithSubdivisions dynamicCircuit dt) k = false)
        by (apply Qltb_false, Hcurrents, Hk).
      rewrite E. reflexivity. }
  destruct dynamicCircuit; reflexivity.
Qed.

Lemma no_correction_single_solve_witness :
  let dynamicCircuit : DynamicCircuit unit :=
    mkDynamicCircuit [mkResistorAdapter 1 0 10 false None 10]
                     [mkBatteryAdapter 0 1 9 1 2] [] [] in
  solves (solveAndCorrect shortedSolve shortedCurrent (fun _ _ => 0) 1000
                          (fun V => 10 + 3 * V) dynamicCircuit (1 # 60))
  = [dynamicCircuit].
Proof.
  intro dynamicCircuit.
  apply (no_correction_single_solve unit (list Q) shortedSolve shortedCurrent
           (fun _ _ => 0) 1000 (fun V => 10 + 3 * V) dynamicCircuit (1 # 60)).
  - intros resistorAdapter [<-|[]]. reflexivity.
  - intros i Hi. simpl in Hi. assert (i = O) by lia. subst i.
    vm_compute. discriminate.
Defined.

(** X18. A resistor adapter of a real light bulb forces the second solve,
    which sees the adapter with the resistance that [realBulbResistance]
    gives for the magnitude of the voltage between its nodes in the final
    state of the first solve; the same resistance is written to the
    [resistanceProperty] of the bulb, and the nodes of the adapter are as
    before. *)
Theorem real_bulb_resolved (DynamicAdapter CircuitResult : Type)
        (solveWithSubdivisions :
           DynamicCircuit DynamicAdapter -> Q -> CircuitResult)
        (getTimeAverageCurrent : CircuitResult -> nat -> Q)
        (getNodeVoltage : CircuitResult -> nat -> Q)
        (batteryCurrentThreshold : Q) (realBulbResistance : Q -> Q)
        (dynamicCircuit : DynamicCircuit DynamicAdapter) (dt : Q)
        (k : nat) (resistorAdapter : ResistorAdapter) :
  nth_error (resistorAdapters dynamicCircuit) k = Some resistorAdapter ->
  realLightBulb resistorAdapter = true ->
  let outcome :=
    solveAndCorrect solveWithSubdivisions getTimeAverageCurrent
                    getNodeVoltage batteryCurrentThreshold realBulbResistance
                    dynamicCircuit dt in
  let first := solveWithSubdivisions dynamicCircuit dt in
  let V :=
    Qabs (getNodeVoltage first (resistorNodeId1 resistorAdapter)
          - getNodeVoltage first (resistorNodeId0 resistorAdapter)) in
  exists dynamicCircuit' resistorAdapter',
    solves outcome = [dynamicCircuit; dynamicCircuit'] /\
    circuitResult outcome = solveWithSubdivisions dynamicCircuit' dt /\
    nth_error (resistorAdapters dynamicCircuit') k = Some resistorAdapter' /\
    value resistorAdapter' = realBulbResistance V /\
    resistanceProperty resistorAdapter' = realBulbResistance V /\
    bulbResistance resistorAdapter' = Some 1 /\
    resistorNodeId0 resistorAdapter' = resistorNodeId0 resistorAdapter /\
    resistorNodeId1 resistorAdapter' = resistorNodeId1 resistorAdapter.
Proof.
  intros Hnth Hbulb outcome first V. unfold outcome, solveAndCorrect.
  cbv zeta.
  assert (Hex : existsb realLightBulb (resistorAdapters dynamicCircuit)
                = true).
  { apply existsb_exists. exists resistorAdapter.
    split; [eapply nth_error_In, Hnth|exact Hbulb]. }
  rewrite Hex. cbn [orb solves circuitResult adapters].
  eexists. eexists. split; [reflexivity|]. split; [reflexivity|].
  cbn [resistorAdapters]. split.
  - rewrite !nth_error_map, Hnth. cbn [option_map]. reflexivity.
  - rewrite Hbulb. repeat split.
Qed.

Lemma real_bulb_resolved_witness :
  let dynamicCircuit : DynamicCircuit unit :=
    mkDynamicCircuit [mkResistorAdapter 1 0 10 true None 10]
                     [mkBatteryAdapter 0 1 9 1 2] [] [] in
  exists dynamicCircuit' resistorAdapter',
    solves (solveAndCorrect shortedSolve shortedCurrent
                            (fun _ node => 4 * inject_Z (Z.of_nat node)) 1000
                            (fun V => 10 + 3 * V) dynamicCircuit (1 # 60))
    = [dynamicCircuit; dynamicCircuit'] /\
    nth_error (resistorAdapters dynamicCircuit') 0 = Some resistorAdapter' /\
    value resistorAdapter'
    = 10 + 3 * Qabs (4 * inject_Z 0 - 4 * inject_Z 1).
Proof.
  intro dynamicCircuit.
  destruct (real_bulb_resolved unit (list Q) shortedSolve shortedCurrent
              (fun _ node => 4 * inject_Z (Z.of_nat node)) 1000
              (fun V => 10 + 3 * V) dynamicCircuit (1 # 60) O
              (mkResistorAdapter 1 0 10 true None 10) eq_refl eq_refl)
    as (dc' & ra' & H1 & _ & H3 & H4 & _).
  exists dc', ra'. split; [exact H1|]. split; [exact H3|exact H4].
Defined.

(** X19. What the correction never touches: the arrays keep their lengths,
    the adapters of the capacitors and of the inductors and every resistor
    adapter that is not a real light bulb are as before, and a battery
    adapter keeps its voltage, its nodes and the internal resistance of its
    battery; its resistance is as before when its current does not exceed
    the threshold, and the internal resistance otherwise. *)
Theorem correction_frame (DynamicAdapter CircuitResult : Type)
        (solveWithSubdivisions :
           DynamicCircuit DynamicAdapter -> Q -> CircuitResult)
        (getTimeAverageCurrent : CircuitResult -> nat -> Q)
        (getNodeVoltage : CircuitResult -> nat -> Q)
        (batteryCurrentThreshold : Q) (realBulbResistance : Q -> Q)
        (dynamicCircuit : DynamicCircuit DynamicAdapter) (dt : Q) :
  let outcome :=
    solveAndCorrect solveWithSubdivisions getTimeAverageCurrent
                    getNodeVoltage batteryCurrentThreshold realBulbResistance
                    dynamicCircuit dt in
  let first := solveWithSubdivisions dynamicCircuit dt in
  length (resistorAdapters (adapters outcome))
  = length (resistorAdapters dynamicCircuit) /\
  length (resistiveBatteryAdapters (adapters outcome))
  = length (resistiveBatteryAdapters dynamicCircuit) /\
  capacitorAdapters _ (adapters outcome)
  = capacitorAdapters _ dynamicCircuit /\
  inductorAdapters _ (adapters outcome)
  = inductorAdapters _ dynamicCircuit /\
  (forall k resistorAdapter,
      nth_error (resistorAdapters dynamicCircuit) k = Some resistorAdapter ->
      realLightBulb resistorAdapter = false ->
      nth_error (resistorAdapters (adapters outcome)) k
      = Some resistorAdapter) /\
  (forall i batteryAdapter,
      nth_error (resistiveBatteryAdapters dynamicCircuit) i
      = Some batteryAdapter ->
      exists batteryAdapter',
        nth_error (resistiveBatteryAdapters (adapters outcome)) i
        = Some batteryAdapter' /\
        voltage batteryAdapter' = voltage batteryAdapter /\
        batteryNodeId0 batteryAdapter' = batteryNodeId0 batteryAdapter /\
        batteryNodeId1 batteryAdapter' = batteryNodeId1 batteryAdapter /\
        internalResistance batteryAdapter'
        = internalResistance batteryAdapter /\
        resistance batteryAdapter'
        = if Qltb batteryCurrentThreshold
                  (Qabs (getTimeAverageCurrent first i))
          then internalResistance batteryAdapter
          else resistance batteryAdapter).
Proof.
  intros outcome first.
  assert (Had : adapters outcome
                = adapters
                    (solveAndCorrect solveWithSubdivisions
                       getTimeAverageCurrent getNodeVoltage
                       batteryCurrentThreshold realBulbResistance
                       dynamicCircuit dt)) by reflexivity.
  unfold solveAndCorrect in Had. cbv zeta in Had.
  destruct (false || _ || _) in Had; cbn [adapters] in Had; rewrite Had;
    cbn [resistorAdapters resistiveBatteryAdapters capacitorAdapters
           inductorAdapters];
    (split; [rewrite !length_map; reflexivity|];
     split; [apply mapFrom_length|];
     split; [reflexivity|]; split; [reflexivity|]; split;
     [intros k resistorAdapter Hnth Hbulb;
      rewrite !nth_error_map, Hnth; cbn [option_map];
      rewrite Hbulb; cbv beta iota; rewrite Hbulb; reflexivity
     |intros i batteryAdapter Hnth;
      rewrite (mapFrom_nth_error _ _ O i batteryAdapter Hnth);
      cbn [Nat.add]; eexists; split; [reflexivity|];
      unfold exceedsThreshold; fold first;
      destruct (Qltb batteryCurrentThreshold
                     (Qabs (getTimeAverageCurrent first i)));
      repeat split]).
Qed.

Lemma correction_frame_witness :
  let dynamicCircuit : DynamicCircuit unit :=
    mkDynamicCircuit [mkResistorAdapter 1 0 10 false None 10]
                     [mkBatteryAdapter 0 1 9 (1 # 10000) 2] [] [] in
  let outcome :=
    solveAndCorrect shortedSolve shortedCurrent (fun _ _ => 0) 1000
                    (fun V => 10 + 3 * V) dynamicCircuit (1 # 60) in
  nth_error (resistorAdapters (adapters outcome)) 0
  = Some (mkResistorAdapter 1 0 10 false None 10) /\
  exists batteryAdapter',
    nth_error (resistiveBatteryAdapters (adapters outcome)) 0
    = Some batteryAdapter' /\
    voltage batteryAdapter' = 9 /\ resistance batteryAdapter' = 2.
Proof.
  intros dynamicCircuit outcome.
  destruct (correction_frame unit (list Q) shortedSolve shortedCurrent
              (fun _ _ => 0) 1000 (fun V => 10 + 3 * V) dynamicCircuit
              (1 # 60)) as (_ & _ & _ & _ & Hr & Hb).
  split; [apply Hr; reflexivity|].
  destruct (Hb O (mkBatteryAdapter 0 1 9 (1 # 10000) 2) eq_refl)
    as (b' & H1 & H2 & _ & _ & _ & H6).
  exists b'. split; [exact H1|]. split; [exact H2|exact H6].
Defined.

(** ** Further properties of [visit] *)

Lemma setVoltage_other (voltages : nat -> Q) (vertex w : nat) (v : Q) :
  w <> vertex -> setVoltage voltages vertex v w = voltages w.
Proof.
  intro H. unfold setVoltage. apply Nat.eqb_neq in H. rewrite H. reflexivity.
Qed.

Lemma setVoltage_same (voltages : nat -> Q) (vertex : nat) (v : Q) :
  setVoltage voltages vertex v vertex = v.
Proof. unfold setVoltage. rewrite Nat.eqb_refl. reflexivity. Qed.

Lemma existsb_eqb_true (x : nat) (l : list nat) :
  existsb (Nat.eqb x) l = true <-> In x l.
Proof.
  rewrite existsb_exists. split.
  - intros (y & Hy & E). apply Nat.eqb_eq in E. subst. exact Hy.
  - intro H. exists x. split; [exact H|apply Nat.eqb_refl].
Qed.

(** X20. [visit] never overwrites the voltage of a vertex that is visited
    already, such as those that got their voltage from the solution; the
    visited vertices stay visited, without repetition, and visiting the same
    path element again changes nothing. *)
Theorem visit_keeps_visited (st : VisitState) (pathElement : PathElement) :
  (forall w,
      In w (visitedVertices st) ->
      vertexVoltage (visit st pathElement) w = vertexVoltage st w /\
      In w (visitedVertices (visit st pathElement))) /\
  (NoDup (visitedVertices st) ->
   NoDup (visitedVertices (visit st pathElement))) /\
  visit (visit st pathElement) pathElement = visit st pathElement.
Proof.
  unfold visit. cbv zeta.
  destruct (existsb (Nat.eqb (pathEndVertex pathElement))
                    (visitedVertices st)) eqn:E; cbn [negb].
  - rewrite E. cbn [negb]. auto.
  - assert (Hnew : ~ In (pathEndVertex pathElement) (visitedVertices st)).
    { intro H. apply existsb_eqb_true in H. congruence. }
    assert (Hin : existsb (Nat.eqb (pathEndVertex pathElement))
                          (visitedVertices st
                             ++ [pathEndVertex pathElement]) = true).
    { apply existsb_eqb_true, in_or_app. right. left. reflexivity. }
    assert (Hnd : NoDup (visitedVertices st) ->
                  NoDup (visitedVertices st ++ [pathEndVertex pathElement])).
    { intro H. apply NoDup_app; [exact H|repeat constructor; intros []|].
      intros w Hw [<-|[]]. exact (Hnew Hw). }
    destruct (kind (circuitElement pathElement));
      cbn [vertexVoltage visitedVertices]; rewrite ?Hin, ?E; cbn [negb];
      (split; [|split; [assumption || auto|reflexivity]]);
      intros w Hw;
      (split; [try reflexivity; apply setVoltage_other; congruence
              |try assumption; apply in_or_app; left; exact Hw]).
Qed.

Lemma visit_keeps_visited_witness :
  let st := mkVisitState (fun w => if (w =? 0)%nat then 5 else 0) [0%nat] in
  let pathElement :=
    mkPathElement 0 (mkCircuitElement (Source 9) 0 1) 1 in
  vertexVoltage (visit st pathElement) 0%nat = 5 /\
  NoDup (visitedVertices (visit st pathElement)).
Proof.
  intros st pathElement.
  destruct (visit_keeps_visited st pathElement) as (H1 & H2 & _).
  split.
  - destruct (H1 O) as [E _]; [left; reflexivity|]. exact E.
  - apply H2. repeat constructor; simpl; tauto.
Defined.

(** X21. When [visit] reaches a vertex that is not visited yet across an
    element that is not an open switch, it appends the vertex to the visited
    ones and changes the voltage of no other vertex; across a resistor,
    wire, light bulb, closed switch, fuse or series ammeter the vertex gets
    the very voltage of the vertex the path comes from, whichever way the
    element is traversed.  Across an open switch [visit] changes nothing. *)
Theorem visit_copies_voltage (st : VisitState) (pathElement : PathElement) :
  ~ In (pathEndVertex pathElement) (visitedVertices st) ->
  (kind (circuitElement pathElement) <> OpenSwitch ->
   visitedVertices (visit st pathElement)
   = visitedVertices st ++ [pathEndVertex pathElement] /\
   forall w,
     w <> pathEndVertex pathElement ->
     vertexVoltage (visit st pathElement) w = vertexVoltage st w) /\
  (kind (circuitElement pathElement) = Resistive ->
   vertexVoltage (visit st pathElement) (pathEndVertex pathElement)
   = vertexVoltage st (pathStartVertex pathElement)) /\
  (kind (circuitElement pathElement) = OpenSwitch ->
   visit st pathElement = st).
Proof.
  intro Hnew. unfold visit. cbv zeta.
  assert (E : existsb (Nat.eqb (pathEndVertex pathElement))
                      (visitedVertices st) = false).
  { destruct (existsb _ _) eqn:E; [|reflexivity].
    apply existsb_eqb_true in E. contradiction. }
  rewrite E. cbn [negb].
  destruct (kind (circuitElement pathElement));
    cbn [vertexVoltage visitedVertices];
    (split; [|split]); try congruence; try reflexivity;
    try (intros _; apply setVoltage_same);
    intros _; (split; [reflexivity|]); intros w Hw;
    apply setVoltage_other; exact Hw.
Qed.

Lemma visit_copies_voltage_witness :
  vertexVoltage
    (visit (mkVisitState (fun w => if (w =? 1)%nat then 5 else 0) [1%nat])
           (mkPathElement 1 (mkCircuitElement Resistive 0 1) 0))
    0%nat
  = 5.
Proof.
  apply (visit_copies_voltage
           (mkVisitState (fun w => if (w =? 1)%nat then 5 else 0) [1%nat])
           (mkPathElement 1 (mkCircuitElement Resistive 0 1) 0)).
  - simpl. intros [H|[]]. discriminate.
  - reflexivity.
Defined.

End Adapter.
